(** * DSAlign: the approximate text locator of [align/text.py] and the
      bisecting minimizer of [align/utils.py]

    A shallow embedding of the Python sources.  Python integers are [Z],
    strings are lists of characters ([ascii], read as code points below 256),
    tuples are pairs, [None]-able values are [option]s, dictionaries are
    insertion-ordered association lists, and exceptions are the second
    constructor of [py_result]. *)

From Stdlib Require Import String Ascii ZArith QArith List Bool Lia.
From Stdlib Require Import Sorting.Permutation Sorting.Sorted.
Import ListNotations.

Local Open Scope Z_scope.

(** ** Python primitives *)

Module Py.

Inductive exn : Set := IndexError | KeyError | ZeroDivisionError.

Inductive py_result (A : Type) : Type :=
| Returns (v : A)
| Raises (e : exn).
Arguments Returns {A} v.
Arguments Raises {A} e.

Definition bind {A B} (m : py_result A) (k : A -> py_result B) : py_result B :=
  match m with
  | Returns v => k v
  | Raises e => Raises e
  end.

Definition len {A} (l : list A) : Z := Z.of_nat (length l).

(** Normalisation of one bound of a slice [l[i:j]] for a sequence of
    length [n]: a negative bound counts from the end, and every bound is
    clipped to [0, n]. *)
Definition clip (n i : Z) : Z :=
  if i <? 0 then Z.max 0 (i + n) else Z.min i n.

(** [l[i:j]] *)
Definition slice {A} (l : list A) (i j : Z) : list A :=
  let lo := clip (len l) i in
  let hi := clip (len l) j in
  firstn (Z.to_nat (hi - lo)) (skipn (Z.to_nat lo) l).

(** [l[i]], with Python's wrap-around for negative indices. *)
Definition index {A} (l : list A) (i : Z) : py_result A :=
  let k := if i <? 0 then i + len l else i in
  if k <? 0 then Raises IndexError
  else match nth_error l (Z.to_nat k) with
       | Some x => Returns x
       | None => Raises IndexError
       end.

(** [a // b] on integers (floor division). *)
Definition floordiv (a b : Z) : py_result Z :=
  if b =? 0 then Raises ZeroDivisionError else Returns (a / b).

(** [int(x)] for the float [x = n / 2]: truncation towards zero.  The
    products [(window - 0.5) * window_size] and [(window + 0.5) * window_size]
    are such halves, and exact as long as [n] stays below 2^53. *)
Definition int_of_halves (n : Z) : Z := Z.quot n 2.

(** [c.isspace()] for code points below 256: TAB..CR, FS..US, SPACE,
    NEL (0x85) and NBSP (0xA0). *)
Definition isspace (c : ascii) : bool :=
  let n := Z.of_N (N_of_ascii c) in
  ((9 <=? n) && (n <=? 13)) || ((28 <=? n) && (n <=? 32))
  || (n =? 133) || (n =? 160).

(** [c.lower()] for code points below 256: A..Z and the upper-case
    Latin-1 letters 0xC0..0xDE (but not the sign 0xD7) move up by 32. *)
Definition lower_char (c : ascii) : ascii :=
  let n := N_of_ascii c in
  if (((65 <=? n) && (n <=? 90))
      || ((192 <=? n) && (n <=? 222) && negb (n =? 215)))%N
  then ascii_of_N (n + 32) else c.

Definition lower (s : list ascii) : list ascii := map lower_char s.

Definition str (s : string) : list ascii := list_ascii_of_string s.

(** *** Dictionaries

    A [dict] keeps its keys in insertion order; assigning to a key that is
    present replaces the value in place. *)

Definition dict (K V : Type) : Type := list (K * V).

Fixpoint dict_get {K V} (keq : K -> K -> bool) (d : dict K V) (k : K)
  : option V :=
  match d with
  | [] => None
  | (k', v) :: d' => if keq k' k then Some v else dict_get keq d' k
  end.

(** [d[k] = v] *)
Fixpoint dict_set {K V} (keq : K -> K -> bool) (d : dict K V) (k : K) (v : V)
  : dict K V :=
  match d with
  | [] => [(k, v)]
  | (k', v') :: d' =>
      if keq k' k then (k', v) :: d' else (k', v') :: dict_set keq d' k v
  end.

(** [k in d] *)
Definition dict_mem {K V} (keq : K -> K -> bool) (d : dict K V) (k : K) : bool :=
  match dict_get keq d k with Some _ => true | None => false end.

(** [d[k]] as an expression *)
Definition getitem {K V} (keq : K -> K -> bool) (d : dict K V) (k : K)
  : py_result V :=
  match dict_get keq d k with Some v => Returns v | None => Raises KeyError end.

Definition dict_keys {K V} (d : dict K V) : list K := map fst d.

(** *** [sorted(l, key=..., reverse=...)]

    The keys are computed once per element, then a stable sort orders the
    elements; with [reverse=True] the order is descending and elements with
    equal keys still keep their original order. *)

Fixpoint decorate {X} (key : X -> py_result Z) (l : list X)
  : py_result (list (X * Z)) :=
  match l with
  | [] => Returns []
  | x :: l' =>
      bind (key x) (fun k =>
      bind (decorate key l') (fun r => Returns ((x, k) :: r)))
  end.

Definition goes_before (reverse : bool) (k1 k2 : Z) : bool :=
  if reverse then k2 <=? k1 else k1 <=? k2.

Fixpoint insert_sorted {X} (reverse : bool) (x : X * Z) (l : list (X * Z))
  : list (X * Z) :=
  match l with
  | [] => [x]
  | y :: l' =>
      if goes_before reverse (snd x) (snd y) then x :: y :: l'
      else y :: insert_sorted reverse x l'
  end.

Definition sort_decorated {X} (reverse : bool) (l : list (X * Z))
  : list (X * Z) :=
  fold_right (insert_sorted reverse) [] l.

Definition sorted {X} (key : X -> py_result Z) (reverse : bool) (l : list X)
  : py_result (list X) :=
  bind (decorate key l) (fun d => Returns (map fst (sort_decorated reverse d))).

End Py.
Import Py.

Declare Scope py_scope.
Notation "x <- m ;; k" := (bind m (fun x => k))
  (at level 61, m at next level, right associativity) : py_scope.
Local Open Scope py_scope.

(** ** [levenshtein] (text.py) *)

Section Levenshtein.

Context {A : Type} (eqb : A -> A -> bool).

(** The inner [for j] loop, building [current[1:]] from left to right.
    [previous] is the tail [previous[j-1:]] of the previous row, [a] the
    tail [a[j-1:]] and [left] the value [current[j-1]] just written. *)
Fixpoint next_row (a : list A) (bi : A) (previous : list Z) (left : Z)
  : list Z :=
  match a, previous with
  | aj :: a', diag :: ((up :: _) as previous') =>
      let add := up + 1 in
      let delete := left + 1 in
      let change := if eqb aj bi then diag else diag + 1 in
      let cur := Z.min (Z.min add delete) change in
      cur :: next_row a' bi previous' cur
  | _, _ => []
  end.

(** The outer [for i] loop; [i] is the number of elements of [b]
    consumed so far and [current[0]] is set to [i]. *)
Fixpoint rows (a b : list A) (i : Z) (current : list Z) : list Z :=
  match b with
  | [] => current
  | bi :: b' => rows a b' (i + 1) ((i + 1) :: next_row a bi current (i + 1))
  end.

Definition levenshtein (a b : list A) : Z :=
  let n := len a in
  let m := len b in
  let '(a, b, n) := if n >? m then (b, a, m) else (a, b, n) in
  let current := map Z.of_nat (seq 0 (Z.to_nat n + 1)) in
  nth (Z.to_nat n) (rows a b 0 current) 0.

(** *** The distance as a minimum over edit scripts *)

(** [edits x y n]: some sequence of [n] insertions, deletions and
    substitutions turns [x] into [y]. *)
Inductive edits : list A -> list A -> Z -> Prop :=
| edits_nil : edits [] [] 0
| edits_keep u x y n : edits x y n -> edits (u :: x) (u :: y) n
| edits_subst u v x y n : edits x y n -> edits (u :: x) (v :: y) (n + 1)
| edits_delete u x y n : edits x y n -> edits (u :: x) y (n + 1)
| edits_insert v x y n : edits x y n -> edits x (v :: y) (n + 1).

(** The recurrence the dynamic programme implements, read on reversed
    prefixes: the head of each list is the element compared last, so
    [distance (rev a[:j]) (rev b[:i])] is the table entry [(i, j)]. *)
Fixpoint distance (x : list A) : list A -> Z :=
  match x with
  | [] => fun y => len y
  | u :: x' =>
      fix inner (y : list A) : Z :=
        match y with
        | [] => len (u :: x')
        | v :: y' =>
            Z.min (Z.min (inner y' + 1) (distance x' (v :: y') + 1))
                  (if eqb u v then distance x' y' else distance x' y' + 1)
        end
  end.

(** Row [i] of the table from column [length x] on, where [x] is the
    reversed part of [a] already passed and [y] the reversed [b[:i]]. *)
Fixpoint table_row (x a y : list A) : list Z :=
  distance x y ::
  match a with
  | [] => []
  | u :: a' => table_row (u :: x) a' y
  end.

End Levenshtein.

(** ** The bisecting minimizer

    [greedy_minimum_search] (utils.py) and the nested [interval_search] of
    [_find_best_in_interval] (text.py).  A result is a [(cost, payload)]
    tuple, which is always truthy, so [result_a or compute(a)] evaluates
    [compute] exactly when [result_a] is [None].  Every function threads
    the list of positions at which [compute] has been invoked so far. *)

Section Minimizer.

Context {P : Type}.
Variable compute : Z -> Z * P.

Definition traced (X : Type) : Type := list Z -> X * list Z.

(** [compute(p)] *)
Definition call (p : Z) : traced (Z * P) :=
  fun calls => (compute p, calls ++ [p]).

(** [r or e] for a result [r] *)
Definition or_else (r : option (Z * P)) (e : traced (Z * P)) : traced (Z * P) :=
  fun calls =>
    match r with
    | Some v => (v, calls)
    | None => e calls
    end.

(** [result_a if result_a[0] < result_b[0] else result_b] *)
Definition cheaper (result_a result_b : Z * P) : Z * P :=
  if fst result_a <? fst result_b then result_a else result_b.

Fixpoint greedy_minimum_search_rec (fuel : nat) (a b : Z)
  (result_a result_b : option (Z * P)) : traced (Z * P) :=
  fun calls =>
    let '(a, b, result_a, result_b) :=
      if a >? b then (b, a, result_b, result_a)
      else (a, b, result_a, result_b) in
    if a =? b then or_else result_a (or_else result_b (call a)) calls
    else
      let '(result_a, calls) := or_else result_a (call a) calls in
      let '(result_b, calls) := or_else result_b (call b) calls in
      if b =? a + 1 then (cheaper result_a result_b, calls)
      else
        let c := (a + b) / 2 in
        match fuel with
        | O => (cheaper result_a result_b, calls)
        | S fuel' =>
            if fst result_a <? fst result_b
            then greedy_minimum_search_rec fuel' a c (Some result_a) None calls
            else greedy_minimum_search_rec fuel' c b None (Some result_b) calls
        end.

(** The recursion halves [b - a], so [|b - a|] nested calls are enough
    (see [greedy_minimum_search_unfold]). *)
Definition greedy_minimum_search (a b : Z) (result_a result_b : option (Z * P))
  : traced (Z * P) :=
  greedy_minimum_search_rec (Z.abs_nat (b - a)) a b result_a result_b.

(** The copy in text.py exchanges [a] and [b] but not the two results. *)
Fixpoint interval_search_rec (fuel : nat) (a b : Z)
  (result_a result_b : option (Z * P)) : traced (Z * P) :=
  fun calls =>
    let '(a, b) := if a >? b then (b, a) else (a, b) in
    if a =? b then or_else result_a (or_else result_b (call a)) calls
    else
      let '(result_a, calls) := or_else result_a (call a) calls in
      let '(result_b, calls) := or_else result_b (call b) calls in
      if b =? a + 1 then (cheaper result_a result_b, calls)
      else
        let c := (a + b) / 2 in
        match fuel with
        | O => (cheaper result_a result_b, calls)
        | S fuel' =>
            if fst result_a <? fst result_b
            then interval_search_rec fuel' a c (Some result_a) None calls
            else interval_search_rec fuel' c b None (Some result_b) calls
        end.

Definition interval_search (a b : Z) (result_a result_b : option (Z * P))
  : traced (Z * P) :=
  interval_search_rec (Z.abs_nat (b - a)) a b result_a result_b.

(** [result] is what [compute] returns at [p], or nothing is known yet. *)
Definition known (p : Z) (result : option (Z * P)) : Prop :=
  result = None \/ result = Some (compute p).

(** The calls [result or compute(p)] adds. *)
Definition new_calls (result : option (Z * P)) (p : Z) : list Z :=
  match result with None => [p] | Some _ => [] end.

(** What the minimizer owes its caller for a call without supplied
    results, in terms of the positions [calls] it passed to [compute]. *)
Definition minimizer_contract (search : Z -> Z -> traced (Z * P)) : Prop :=
  forall a b : Z,
    let '(result, calls) := search a b [] in
    (forall p, In p calls -> Z.min a b <= p <= Z.max a b)
    /\ (exists p, In p calls /\ result = compute p
                  /\ forall q, In q calls -> fst (compute p) <= fst (compute q))
    /\ (Z.abs (b - a) <= 1 ->
        result = cheaper (compute (Z.min a b)) (compute (Z.max a b)))
    /\ NoDup calls.

End Minimizer.

(** ** Interval utilities (text.py) *)

Definition interval : Type := (Z * Z)%type.

(** The loop condition [0 <= pos < len(text) and not text[pos].isspace()] *)
Definition in_token (text : list ascii) (pos : Z) : bool :=
  (0 <=? pos) && (pos <? len text)
  && match nth_error text (Z.to_nat pos) with
     | Some c => negb (isspace c)
     | None => false
     end.

(** The [while] loop of [get_token_interval] for one [step]; [se] is the
    pair [(start, end)]. *)
Fixpoint token_scan (fuel : nat) (text : list ascii) (step pos : Z)
  (se : Z * Z) : Z * Z :=
  match fuel with
  | O => se
  | S fuel' =>
      if in_token text pos then
        let '(start, end_) := se in
        let start := if pos <? start then pos else start in
        let end_ := if pos >? end_ then pos else end_ in
        token_scan fuel' text step (pos + step) (start, end_)
      else se
  end.

(** Each scan leaves the text after at most [len(text)] steps, so the
    loops run with [len(text) + 1] iterations at hand. *)
Definition get_token_interval (text : list ascii) (at_ : Z) : interval :=
  let fuel := S (length text) in
  let se := token_scan fuel text (-1) at_ (len text, 0) in
  let '(start, end_) := token_scan fuel text 1 at_ se in
  if start <=? end_ then (start, end_ + 1) else (at_, at_).

Definition get_token_sibling (text : list ascii) (i : interval) (direction : Z)
  : interval :=
  let '(start, end_) := i in
  get_token_interval text (if direction <? 0 then start - 2 else end_ + 1).

Definition get_interval_text (text : list ascii) (i : interval) : list ascii :=
  let '(start, end_) := i in
  slice text start end_.

Definition combine_intervals (i1 i2 : interval) : interval :=
  let '(s1, e1) := i1 in
  let '(s2, e2) := i2 in
  (Z.min s1 s2, Z.max e1 e2).

Definition interval_len (i : interval) : Z :=
  let '(start, end_) := i in
  end_ - start.

(** [start <= end] *)
Definition ordered (i : interval) : Prop := fst i <= snd i.

(** Both indices lie in [0, len(text)]. *)
Definition within (text : list ascii) (i : interval) : Prop :=
  0 <= fst i /\ snd i <= len text.

(** ** [Alphabet] and [TextCleaner] (text.py) *)

Definition str_eqb (s t : list ascii) : bool :=
  String.eqb (string_of_list_ascii s) (string_of_list_ascii t).

Record Alphabet : Type := {
  _str_to_label : dict (list ascii) Z
}.

Definition has_label (alphabet : Alphabet) (s : list ascii) : bool :=
  dict_mem str_eqb (_str_to_label alphabet) s.

Record TextCleaner : Type := {
  original_text : list ascii;
  positions : list Z;
  clean_text : list ascii
}.

(** The [for position, c in enumerate(prepared_text)] loop; every
    [continue] is a recursive call on the rest with the lists unchanged. *)
Fixpoint clean_loop (alphabet : Alphabet) (normalize_space dashes_to_ws : bool)
  (prepared_text : list ascii) (position : Z) (ws : bool)
  (cleaned : list ascii) (positions : list Z) : list ascii * list Z :=
  match prepared_text with
  | [] => (cleaned, positions)
  | c :: rest =>
      let continue ws cleaned positions :=
        clean_loop alphabet normalize_space dashes_to_ws rest (position + 1)
                   ws cleaned positions in
      let c :=
        if dashes_to_ws && Ascii.eqb c "-" && negb (has_label alphabet ["-"%char])
        then " "%char else c in
      let filter c ws :=
        if negb (has_label alphabet [c]) then continue ws cleaned positions
        else
          let ws := if negb (isspace c) then false else ws in
          continue ws (cleaned ++ [c]) (positions ++ [position]) in
      if normalize_space && isspace c then
        if ws then continue ws cleaned positions
        else filter " "%char true
      else filter c ws
  end.

Definition TextCleaner_init (original_text : list ascii) (alphabet : Alphabet)
  (to_lower normalize_space dashes_to_ws : bool) : TextCleaner :=
  let prepared_text := if to_lower then lower original_text else original_text in
  let '(cleaned, positions) :=
    clean_loop alphabet normalize_space dashes_to_ws prepared_text 0 false [] [] in
  {| original_text := original_text;
     positions := positions;
     clean_text := cleaned |}.

(** The permission oracle of the normalisation scenario: the labels are
    the lower-case letters and the space. *)
Definition lowercase_and_space : Alphabet :=
  {| _str_to_label :=
       combine (map (fun c => [c]) (str "abcdefghijklmnopqrstuvwxyz "))
               (map Z.of_nat (seq 0 27)) |}.

(** [get_original_offset] returns an integer or [None]; the first component
    is what it printed, one [(len(self.positions), clean_offset)] pair per
    line.  The bare [except:] swallows the [IndexError] of the lookup. *)
Definition get_original_offset (self : TextCleaner) (clean_offset : Z)
  : list (Z * Z) * py_result (option Z) :=
  if clean_offset =? len (positions self) then
    ([], p <- index (positions self) (-1) ;; Returns (Some (p + 1)))
  else
    match index (positions self) clean_offset with
    | Returns p => ([], Returns (Some p))
    | Raises _ => ([(len (positions self), clean_offset)], Returns None)
    end.

(** ** [LevenshteinSearch] (text.py) *)

Definition ngram : Type := (ascii * ascii * ascii)%type.

Definition ngram_eqb (g h : ngram) : bool :=
  let '(g1, g2, g3) := g in
  let '(h1, h2, h3) := h in
  Ascii.eqb g1 h1 && Ascii.eqb g2 h2 && Ascii.eqb g3 h3.

(** [nltk.ngrams(sequence, 3)] is library code: the windows of three
    consecutive items, from left to right. *)
Fixpoint ngrams3 (s : list ascii) : list ngram :=
  match s with
  | c1 :: s' =>
      match s' with
      | c2 :: c3 :: _ => (c1, c2, c3) :: ngrams3 s'
      | _ => []
      end
  | [] => []
  end.

(** [' ' + text + ' '] *)
Definition padded (text : list ascii) : list ascii :=
  " "%char :: text ++ [" "%char].

Record LevenshteinSearch : Type := {
  text : list ascii;
  ngrams : dict ngram (list Z)
}.

(** The bucket of [g], empty when [g] is not a key. *)
Definition bucket_of (index : dict ngram (list Z)) (g : ngram) : list Z :=
  match dict_get ngram_eqb index g with
  | Some bucket => bucket
  | None => []
  end.

(** One iteration of the constructor's loop: the bucket of [ngram], created
    empty when the key is new, receives [i]. *)
Definition add_occurrence (ngrams : dict ngram (list Z)) (i : Z) (g : ngram)
  : dict ngram (list Z) :=
  let ngram_bucket := bucket_of ngrams g in
  dict_set ngram_eqb ngrams g (ngram_bucket ++ [i]).

Fixpoint index_ngrams (grams : list ngram) (i : Z) (ngrams : dict ngram (list Z))
  : dict ngram (list Z) :=
  match grams with
  | [] => ngrams
  | g :: rest => index_ngrams rest (i + 1) (add_occurrence ngrams i g)
  end.

Definition LevenshteinSearch_init (text : list ascii) : LevenshteinSearch :=
  {| text := text;
     ngrams := index_ngrams (ngrams3 (padded text)) 0 [] |}.

(** The offsets, counted from [i], at which [g] stands in [grams]. *)
Fixpoint occurrences (g : ngram) (grams : list ngram) (i : Z) : list Z :=
  match grams with
  | [] => []
  | h :: rest =>
      if ngram_eqb h g then i :: occurrences g rest (i + 1)
      else occurrences g rest (i + 1)
  end.

(** Some trigram of the padded query stands in the padded [text] at an
    offset of [start..stop]. *)
Definition shares_trigram (text look_for : list ascii) (start stop : Z) : bool :=
  existsb
    (fun g =>
       existsb (fun occurrence => (start <=? occurrence) && (occurrence <=? stop))
               (occurrences g (ngrams3 (padded text)) 0))
    (ngrams3 (padded look_for)).

Definition lev : list ascii -> list ascii -> Z := levenshtein Ascii.eqb.

(** [levenshtein(get_interval_text(self.text, t), original_text)] *)
Definition token_distance (self : LevenshteinSearch)
  (original_text : list ascii) (t : interval) : Z :=
  lev (get_interval_text (text self) t) original_text.

Definition _find_best_neighbour_token (self : LevenshteinSearch)
  (original_text : list ascii) (center_interval : interval) : interval :=
  let tokens := [get_token_sibling (text self) center_interval (-1);
                 center_interval;
                 get_token_sibling (text self) center_interval 1] in
  let tokens := map (fun t => (t, token_distance self original_text t)) tokens in
  let tokens := sort_decorated false tokens in
  match tokens with
  | t :: _ => fst t
  | [] => center_interval
  end.

(** The three cost functions handed to [interval_search]. *)
Definition cost_window (self : LevenshteinSearch) (look_for : list ascii)
  (p : Z) : Z * interval :=
  (lev (slice (text self) p (p + len look_for)) look_for, (p, p + len look_for)).

Definition cost_start (self : LevenshteinSearch) (look_for : list ascii)
  (best_end p : Z) : Z * interval :=
  (lev (slice (text self) p best_end) look_for, (p, best_end)).

Definition cost_end (self : LevenshteinSearch) (look_for : list ascii)
  (best_start p : Z) : Z * interval :=
  (lev (slice (text self) best_start p) look_for, (best_start, p)).

(** The three searches of [_find_best_in_interval]: the interval found,
    and every interval a cost function was evaluated on, in order. *)
Definition stretch_search (self : LevenshteinSearch) (look_for : list ascii)
  (start stop : Z) : interval * list interval :=
  let '((_, best_interval), calls) :=
    interval_search (cost_window self look_for) start stop None None [] in
  let evaluated1 := map (fun p => snd (cost_window self look_for p)) calls in
  let '(best_start, best_end) := best_interval in
  let stretch_radius := len look_for / 3 in
  let '((_, best_interval), calls) :=
    interval_search (cost_start self look_for best_end)
      (best_start - stretch_radius) (best_start + stretch_radius)
      None None [] in
  let evaluated2 :=
    map (fun p => snd (cost_start self look_for best_end p)) calls in
  let '(best_start, best_end) := best_interval in
  let '((_, best_interval), calls) :=
    interval_search (cost_end self look_for best_start)
      (best_end - stretch_radius) (best_end + stretch_radius)
      None None [] in
  let evaluated3 :=
    map (fun p => snd (cost_end self look_for best_start p)) calls in
  (best_interval, evaluated1 ++ evaluated2 ++ evaluated3).

(** The token snapping of [_find_best_in_interval], from the stretched
    interval on. *)
Definition snap_to_tokens (self : LevenshteinSearch) (look_for : list ascii)
  (best_interval : interval) : Z * interval :=
  let '(best_start, best_end) := best_interval in
  let first_original_token := get_token_interval (text self) best_start in
  let first_original_token :=
    if interval_len first_original_token =? 0
    then get_token_interval (text self) (best_start + 1)
    else first_original_token in
  let first_search_token :=
    get_interval_text look_for (get_token_interval look_for 0) in
  let first_original_token :=
    _find_best_neighbour_token self first_search_token first_original_token in
  let last_original_token := get_token_interval (text self) (best_end - 1) in
  let last_original_token :=
    if interval_len last_original_token =? 0
    then get_token_interval (text self) (best_end - 2)
    else last_original_token in
  let last_search_token :=
    get_interval_text look_for
      (get_token_interval look_for (len look_for - 2)) in
  let last_original_token :=
    _find_best_neighbour_token self last_search_token last_original_token in
  let best_interval := combine_intervals first_original_token last_original_token in
  let '(best_start, best_end) := best_interval in
  let best_distance := lev (slice (text self) best_start best_end) look_for in
  (best_distance, best_interval).

Definition _find_best_in_interval (self : LevenshteinSearch)
  (look_for : list ascii) (start stop : Z) : Z * interval :=
  snap_to_tokens self look_for (fst (stretch_search self look_for start stop)).

(** The intervals [_find_best_in_interval] evaluates a cost on. *)
Definition evaluated_intervals (self : LevenshteinSearch)
  (look_for : list ascii) (start stop : Z) : list interval :=
  snd (stretch_search self look_for start stop).

(** [windows[window] = (windows[window] + 1) if window in windows else 1] *)
Definition add_vote (windows : dict Z Z) (window : Z) : dict Z Z :=
  dict_set Z.eqb windows window
    (match dict_get Z.eqb windows window with
     | Some votes => votes + 1
     | None => 1
     end).

(** The vote counter of [window]: zero when the window has no entry. *)
Definition votes (windows : dict Z Z) (window : Z) : Z :=
  match dict_get Z.eqb windows window with
  | Some v => v
  | None => 0
  end.

(** Every entry of the vote dictionary counts at least one vote. *)
Definition positive_votes (windows : dict Z Z) : Prop :=
  forall window v, dict_get Z.eqb windows window = Some v -> 1 <= v.

(** [for occurrence in ngram_bucket] *)
Fixpoint vote_bucket (start stop window_size : Z) (ngram_bucket : list Z)
  (windows : dict Z Z) : py_result (dict Z Z) :=
  match ngram_bucket with
  | [] => Returns windows
  | occurrence :: rest =>
      if (occurrence <? start) || (occurrence >? stop)
      then vote_bucket start stop window_size rest windows
      else
        window <- floordiv occurrence window_size ;;
        vote_bucket start stop window_size rest (add_vote windows window)
  end.

(** [for i, ngram in enumerate(ngrams(' ' + look_for + ' ', 3))]; the
    counter [i] is not used by the loop body. *)
Fixpoint vote_ngrams (self : LevenshteinSearch) (start stop window_size : Z)
  (grams : list ngram) (windows : dict Z Z) : py_result (dict Z Z) :=
  match grams with
  | [] => Returns windows
  | g :: rest =>
      match dict_get ngram_eqb (ngrams self) g with
      | Some ngram_bucket =>
          windows <- vote_bucket start stop window_size ngram_bucket windows ;;
          vote_ngrams self start stop window_size rest windows
      | None => vote_ngrams self start stop window_size rest windows
      end
  end.

(** The vote counters of [find_best] once its first loop is over. *)
Definition vote_windows (self : LevenshteinSearch) (look_for : list ascii)
  (start stop : Z) : py_result (dict Z Z) :=
  let stop := if stop <? 0 then len (text self) else stop in
  vote_ngrams self start stop (len look_for) (ngrams3 (padded look_for)) [].

(** [x / y < 0.8] on numbers, with the exact quotient standing for the
    float one (they agree on vote counts below 2^50). *)
Definition ratio_below_080 (x : Z) (y : Q) : py_result bool :=
  if Qeq_bool y 0 then Raises ZeroDivisionError
  else Returns (negb (Qle_bool (8 # 10) (inject_Z x / y))).

(** [max(start, int((window-0.5)*window_size))] and
    [min(stop-len(look_for), int((window+0.5)*window_size))] *)
Definition interval_start (start window_size window : Z) : Z :=
  Z.max start (int_of_halves ((2 * window - 1) * window_size)).

Definition interval_stop (stop window_size window : Z) : Z :=
  Z.min (stop - window_size) (int_of_halves ((2 * window + 1) * window_size)).

(** [for window in candidate_windows[:10]] with its [break]; a non-empty
    tuple is truthy, so [not best_interval] holds for [None] only. *)
Fixpoint walk_candidates (self : LevenshteinSearch) (look_for : list ascii)
  (start stop : Z) (windows : dict Z Z) (candidates : list Z)
  (best_interval : option interval) (best_distance : Z)
  (last_window_grams : Q) : py_result (option interval * Z) :=
  match candidates with
  | [] => Returns (best_interval, best_distance)
  | window :: rest =>
      votes <- getitem Z.eqb windows window ;;
      drop <- ratio_below_080 votes last_window_grams ;;
      if drop : bool then Returns (best_interval, best_distance)
      else
        let last_window_grams := inject_Z votes in
        let '(interval_distance, interval) :=
          _find_best_in_interval self look_for
            (interval_start start (len look_for) window)
            (interval_stop stop (len look_for) window) in
        if match best_interval with None => true | Some _ => false end
           || (interval_distance <? best_distance)
        then walk_candidates self look_for start stop windows rest
               (Some interval) interval_distance last_window_grams
        else walk_candidates self look_for start stop windows rest
               best_interval best_distance last_window_grams
  end.

(** [last_window_grams] starts at [0.1], read as the rational 1/10. *)
Definition find_best (self : LevenshteinSearch) (look_for : list ascii)
  (start stop threshold : Z) : py_result (option interval * Z) :=
  let stop' := if stop <? 0 then len (text self) else stop in
  windows <- vote_windows self look_for start stop ;;
  candidate_windows <-
    sorted (getitem Z.eqb windows) true (dict_keys windows) ;;
  walk_candidates self look_for start stop' windows
    (firstn 10 candidate_windows) None (-1) (1 # 10).

(** *** The walk over the candidates, in words

    [refine] is the refinement of one window, [pick] the update of the best
    result by one refined candidate, [drop_test] the test [v / last < 0.8]
    on integers, [kept_chain] says that no candidate of a list fails that
    test against its predecessor, and [last_after] is [last_window_grams]
    after a list of candidates. *)

Definition refine (self : LevenshteinSearch) (look_for : list ascii)
  (start stop : Z) (window : Z) : Z * interval :=
  _find_best_in_interval self look_for
    (interval_start start (len look_for) window)
    (interval_stop stop (len look_for) window).

Definition pick (best : option interval * Z) (refined : Z * interval)
  : option interval * Z :=
  if match fst best with None => true | Some _ => false end
     || (fst refined <? snd best)
  then (Some (snd refined), fst refined)
  else best.

Definition drop_test (v : Z) (last : Q) : bool :=
  10 * v * Zpos (Qden last) <? 8 * Qnum last.

Fixpoint kept_chain (windows : dict Z Z) (last : Q) (l : list Z) : Prop :=
  match l with
  | [] => True
  | w :: l' =>
      drop_test (votes windows w) last = false
      /\ kept_chain windows (inject_Z (votes windows w)) l'
  end.

Definition last_after (windows : dict Z Z) (last : Q) (l : list Z) : Q :=
  fold_left (fun _ w => inject_Z (votes windows w)) l last.

(** [v] is below 80% of [previous]. *)
Definition below_80_percent (v previous : Z) : Prop := 10 * v < 8 * previous.

(** ** More of text.py and utils.py

    The rest of [Alphabet], devices for the loop of [TextCleaner], and the
    helpers of utils.py that compute on sequences. *)

(** *** [TextCleaner]: what the loop keeps *)

(** The pairs [(c, position)] the loop of [TextCleaner.__init__] appends to
    [cleaned] and [self.positions], from [position] on with the flag [ws]. *)
Fixpoint kept (alphabet : Alphabet) (normalize_space dashes_to_ws : bool)
  (prepared_text : list ascii) (position : Z) (ws : bool) : list (ascii * Z) :=
  match prepared_text with
  | [] => []
  | c :: rest =>
      let continue ws :=
        kept alphabet normalize_space dashes_to_ws rest (position + 1) ws in
      let c :=
        if dashes_to_ws && Ascii.eqb c "-" && negb (has_label alphabet ["-"%char])
        then " "%char else c in
      let filter c ws :=
        if negb (has_label alphabet [c]) then continue ws
        else
          let ws := if negb (isspace c) then false else ws in
          (c, position) :: continue ws in
      if normalize_space && isspace c then
        if ws then continue ws
        else filter " "%char true
      else filter c ws
  end.

(** No two neighbours of the text are both whitespace. *)
Fixpoint collapsed (l : list ascii) : Prop :=
  match l with
  | c1 :: l' =>
      match l' with
      | c2 :: _ => (isspace c1 = false \/ isspace c2 = false) /\ collapsed l'
      | [] => True
      end
  | [] => True
  end.

(** The first character, if any, is not whitespace. *)
Definition starts_in_token (l : list ascii) : Prop :=
  match l with
  | c :: _ => isspace c = false
  | [] => True
  end.

(** [list(range(i, i + n))] *)
Definition range_from (i : Z) (n : nat) : list Z :=
  map (fun k => i + Z.of_nat k) (seq 0 n).

(** *** Intervals *)

(** [outer] contains [inner]. *)
Definition contains (outer inner : interval) : Prop :=
  fst outer <= fst inner /\ snd inner <= snd outer.

(** *** [Alphabet] (text.py)

    [Alphabet.__init__] reads the configuration file line by line; the model
    takes the lines as the file yields them, each with its line ending.  The
    record [Alphabet] above is the dictionary [_str_to_label] of the
    object. *)

Record Alphabet_object : Type := {
  _label_to_str : list ascii;
  _labels : Alphabet;
  _size : Z
}.

Definition newline : ascii := "010"%char.

(** [line[0:2] == '\\#'] *)
Definition escaped_hash (line : list ascii) : bool :=
  str_eqb (slice line 0 2) ["\"%char; "#"%char].

(** The loop of [Alphabet.__init__].  [self._label_to_str += line[:-1]]
    extends the list by the characters of the string. *)
Fixpoint Alphabet_read (lines : list (list ascii)) (label_to_str : list ascii)
  (str_to_label : dict (list ascii) Z) (size : Z) : py_result Alphabet_object :=
  match lines with
  | [] =>
      Returns {| _label_to_str := label_to_str;
                 _labels := {| _str_to_label := str_to_label |};
                 _size := size |}
  | line :: rest =>
      let store line :=
        Alphabet_read rest (label_to_str ++ slice line 0 (-1))
          (dict_set str_eqb str_to_label (slice line 0 (-1)) size)
          (size + 1) in
      if escaped_hash line then store ["#"%char; newline]
      else
        first <- index line 0 ;;
        if Ascii.eqb first "#" then
          Alphabet_read rest label_to_str str_to_label size
        else store line
  end.

Definition Alphabet_init (lines : list (list ascii)) : py_result Alphabet_object :=
  Alphabet_read lines [] [] 0.

Definition string_from_label (self : Alphabet_object) (label : Z)
  : py_result ascii :=
  index (_label_to_str self) label.

(** The [KeyError] of the lookup is raised again with a message. *)
Definition label_from_string (self : Alphabet_object) (string : list ascii)
  : py_result Z :=
  match getitem str_eqb (_str_to_label (_labels self)) string with
  | Returns label => Returns label
  | Raises _ => Raises KeyError
  end.

Fixpoint decode_loop (self : Alphabet_object) (labels : list Z)
  (res : list ascii) : py_result (list ascii) :=
  match labels with
  | [] => Returns res
  | label :: rest =>
      c <- string_from_label self label ;;
      decode_loop self rest (res ++ [c])
  end.

Definition decode (self : Alphabet_object) (labels : list Z)
  : py_result (list ascii) :=
  decode_loop self labels [].

Definition size (self : Alphabet_object) : Z := _size self.

(** The lines that are comments, and the label a line that is none
    registers. *)
Definition is_comment (line : list ascii) : bool :=
  negb (escaped_hash line)
  && match line with
     | c :: _ => Ascii.eqb c "#"
     | [] => false
     end.

Definition label_of_line (line : list ascii) : list ascii :=
  if escaped_hash line then ["#"%char] else slice line 0 (-1).

Definition entries (lines : list (list ascii)) : list (list ascii) :=
  map label_of_line (filter (fun line => negb (is_comment line)) lines).

(** [self._str_to_label[label] = self._size] for the labels in turn. *)
Fixpoint assign (labels : list (list ascii)) (size : Z)
  (str_to_label : dict (list ascii) Z) : dict (list ascii) Z :=
  match labels with
  | [] => str_to_label
  | s :: rest => assign rest (size + 1) (dict_set str_eqb str_to_label s size)
  end.

(** *** utils.py: helpers on sequences *)

(** [list(enumerate(l, start))] *)
Fixpoint enumerate {A} (l : list A) (start : Z) : list (Z * A) :=
  match l with
  | [] => []
  | x :: l' => (start, x) :: enumerate l' (start + 1)
  end.

(** What one round [i] of the loop of [circulate] yields: the item [i]
    places right of the center, then the one [i] places left of it, each if
    it exists. *)
Definition circulate_round {A} (items : list A) (count center i : Z)
  : py_result (list (Z * A)) :=
  right <- (if center + i <? count
            then item <- index items (center + i) ;; Returns [(center + i, item)]
            else Returns []) ;;
  left <- (if center - i >=? 0
           then item <- index items (center - i) ;; Returns [(center - i, item)]
           else Returns []) ;;
  Returns (right ++ left).

Fixpoint circulate_loop {A} (items : list A) (count center : Z) (range : list Z)
  : py_result (list (Z * A)) :=
  match range with
  | [] => Returns []
  | i :: range' =>
      round <- circulate_round items count center i ;;
      rest <- circulate_loop items count center range' ;;
      Returns (round ++ rest)
  end.

(** [list(circulate(items, center))]: the pairs the generator yields, in
    order. *)
Definition circulate {A} (items : list A) (center : option Z)
  : py_result (list (Z * A)) :=
  let count := len items in
  if count >? 0 then
    let center := match center with None => count / 2 | Some c => c end in
    let center := Z.min (Z.max center 0) (count - 1) in
    item <- index items center ;;
    rest <- circulate_loop items count center
              (range_from 1 (Z.to_nat (count - 1))) ;;
    Returns ((center, item) :: rest)
  else Returns [].

(** The position [circulate] starts from. *)
Definition circulate_center {A} (items : list A) (center : option Z) : Z :=
  let count := len items in
  Z.min (Z.max (match center with None => count / 2 | Some c => c end) 0)
        (count - 1).

(** [e1] is yielded before [e2]: it is nearer to the center, or as far and
    on its right. *)
Definition circulates_before {A} (center : Z) (e1 e2 : Z * A) : Prop :=
  Z.abs (fst e1 - center) < Z.abs (fst e2 - center)
  \/ (Z.abs (fst e1 - center) = Z.abs (fst e2 - center) /\ fst e2 < fst e1).

Definition by_len {A} (items : list (list A)) : py_result (list (Z * list A)) :=
  let indexed := enumerate items 0 in
  sorted (fun e => Returns (len (snd e))) true indexed.

(** [e1] comes before [e2] in [by_len]: it is longer, or as long and
    earlier in [items]. *)
Definition longer_first {A} (e1 e2 : Z * list A) : Prop :=
  len (snd e2) < len (snd e1)
  \/ (len (snd e1) = len (snd e2) /\ fst e1 < fst e2).

(** *** [Interleaved]

    The iterables are lists; an iterator over a list is the list of the
    items it has not produced yet.  The key is a function into the
    integers that does not fail. *)
Section Interleaved.

Context {A : Type}.
Variable key : A -> Z.

(** The first loop of [__iter__]: the iterators that produce an item, each
    with that item. *)
Fixpoint Interleaved_firsts (iterables : list (list A)) : list (list A * A) :=
  match iterables with
  | [] => []
  | iterable :: rest =>
      match iterable with
      | first :: it => (it, first) :: Interleaved_firsts rest
      | [] => Interleaved_firsts rest
      end
  end.

(** [firsts.sort(key=lambda it_first: self.key(it_first[1]))] *)
Definition sort_firsts (firsts : list (list A * A)) : list (list A * A) :=
  map fst (sort_decorated false (map (fun e => (e, key (snd e))) firsts)).

(** The [while] loop of [__iter__]; every round yields one item, so as many
    rounds as there are items left suffice. *)
Fixpoint Interleaved_loop (fuel : nat) (firsts : list (list A * A)) : list A :=
  match fuel with
  | O => []
  | S fuel' =>
      match sort_firsts firsts with
      | [] => []
      | (it, first) :: firsts' =>
          first ::
            match it with
            | [] => Interleaved_loop fuel' firsts'
            | first' :: it' => Interleaved_loop fuel' (firsts' ++ [(it', first')])
            end
      end
  end.

(** The items left in the iterators of [firsts], the held ones included. *)
Definition pending (firsts : list (list A * A)) : list A :=
  concat (map (fun e => snd e :: fst e) firsts).

(** [list(self)] for [self] made of [iterables] and [key] *)
Definition Interleaved_iter (iterables : list (list A)) : list A :=
  let firsts := Interleaved_firsts iterables in
  Interleaved_loop (length (pending firsts)) firsts.

(** [len(self)] *)
Definition Interleaved_len (iterables : list (list A)) : Z :=
  fold_left Z.add (map len iterables) 0.

End Interleaved.

(** *** [parse_file_size]

    [int()] raises [ValueError], which is none of the exceptions of text.py;
    an outcome of [parse_file_size] is a size, that error, or one of the
    others. *)

Inductive parsed (A : Type) : Type :=
| Parsed (v : A)
| ValueError
| Other (e : exn).
Arguments Parsed {A} v.
Arguments ValueError {A}.
Arguments Other {A} e.

Definition lift {A B} (m : py_result A) (k : A -> parsed B) : parsed B :=
  match m with
  | Returns v => k v
  | Raises e => Other e
  end.

Definition KILO : Z := 1024.
Definition KILOBYTE : Z := 1 * KILO.
Definition MEGABYTE : Z := KILO * KILOBYTE.
Definition GIGABYTE : Z := KILO * MEGABYTE.
Definition TERABYTE : Z := KILO * GIGABYTE.

(** The keys are strings of one character; they are looked up with a
    string of one character. *)
Definition SIZE_PREFIX_LOOKUP : dict ascii Z :=
  [("k"%char, KILOBYTE); ("m"%char, MEGABYTE); ("g"%char, GIGABYTE);
   ("t"%char, TERABYTE)].

(** [c.isdigit()] for code points below 256: 0..9 and the superscripts
    two, three (0xB2, 0xB3) and one (0xB9). *)
Definition isdigit (c : ascii) : bool :=
  let n := Z.of_N (N_of_ascii c) in
  ((48 <=? n) && (n <=? 57)) || (n =? 178) || (n =? 179) || (n =? 185).

Definition keep_only_digits (txt : list ascii) : list ascii :=
  filter isdigit txt.

(** The value of a decimal digit; [int()] reads 0..9 and no superscript. *)
Definition decimal_digit (c : ascii) : option Z :=
  let n := Z.of_N (N_of_ascii c) in
  if (48 <=? n) && (n <=? 57) then Some (n - 48) else None.

Fixpoint int_digits (s : list ascii) (value : Z) : option Z :=
  match s with
  | [] => Some value
  | c :: s' =>
      match decimal_digit c with
      | Some d => int_digits s' (10 * value + d)
      | None => None
      end
  end.

(** [int(s)] for a string [s] made of characters that pass [isdigit]; [None]
    stands for [ValueError], raised for the empty string and for a
    superscript.  The limit that Python 3.11 put on the number of digits
    [int()] reads (4300 unless configured) is not part of the model. *)
Definition int_of_digits (s : list ascii) : option Z :=
  match s with
  | [] => None
  | _ => int_digits s 0
  end.

(** [s.lstrip()] and [s.strip()] *)
Fixpoint lstrip (s : list ascii) : list ascii :=
  match s with
  | c :: s' => if isspace c then lstrip s' else s
  | [] => []
  end.

Definition strip (s : list ascii) : list ascii :=
  rev (lstrip (rev (lstrip s))).

Definition parse_file_size (file_size : list ascii) : parsed Z :=
  let file_size := strip (lower file_size) in
  if len file_size =? 0 then Parsed 0
  else
    match int_of_digits (keep_only_digits file_size) with
    | None => ValueError
    | Some n =>
        lift (index file_size (-1)) (fun last =>
        let file_size :=
          if Ascii.eqb last "b" then slice file_size 0 (-1) else file_size in
        lift (index file_size (-1)) (fun e =>
        if dict_mem Ascii.eqb SIZE_PREFIX_LOOKUP e
        then lift (getitem Ascii.eqb SIZE_PREFIX_LOOKUP e)
                  (fun factor => Parsed (factor * n))
        else Parsed n))
    end.

(** A superscript digit: it passes [isdigit], and [int()] rejects it. *)
Definition superscript (c : ascii) : bool :=
  isdigit c && match decimal_digit c with Some _ => false | None => true end.

Definition blank (s : list ascii) : Prop :=
  Forall (fun c => isspace c = true) s.

(** The value of the last line of [parse_file_size] for the unit [e] and
    the number [n]. *)
Definition scaled (e : ascii) (n : Z) : parsed Z :=
  if dict_mem Ascii.eqb SIZE_PREFIX_LOOKUP e
  then lift (getitem Ascii.eqb SIZE_PREFIX_LOOKUP e)
            (fun factor => Parsed (factor * n))
  else Parsed n.

(** * Properties *)

(** ** Python primitives *)

Lemma len_nil {A} : len (@nil A) = 0.
Proof. reflexivity. Qed.

Lemma len_cons {A} (x : A) (l : list A) : len (x :: l) = len l + 1.
Proof. unfold len. cbn [length]. lia. Qed.

Lemma len_app {A} (l1 l2 : list A) : len (l1 ++ l2) = len l1 + len l2.
Proof. unfold len. rewrite length_app. lia. Qed.

Lemma len_nonneg {A} (l : list A) : 0 <= len l.
Proof. unfold len. lia. Qed.

(** ** The edit distance *)

(** Extends the composite script [IH] gives by the step that the last
    rule of the second script asks for. *)
Ltac extend_script IH Hz :=
  let k := fresh "k" in
  destruct (IH _ _ Hz) as (k & ? & ?);
  first [ exists k; split; [solve [assumption | now constructor] | lia]
        | exists (k + 1); split; [now constructor | lia] ].

Ltac extend_insert IHz Ey :=
  let k := fresh "k" in
  destruct (IHz Ey) as (k & ? & ?);
  exists (k + 1); split; [now constructor | lia].

Section LevenshteinFacts.

Context {A : Type} (eqb : A -> A -> bool).
Hypothesis eqb_spec : forall x y, eqb x y = true <-> x = y.

Lemma distance_nil_r (x : list A) : distance eqb x [] = len x.
Proof. destruct x; reflexivity. Qed.

Lemma distance_cons (u v : A) (x y : list A) :
  distance eqb (u :: x) (v :: y) =
  Z.min (Z.min (distance eqb (u :: x) y + 1) (distance eqb x (v :: y) + 1))
        (if eqb u v then distance eqb x y else distance eqb x y + 1).
Proof. reflexivity. Qed.

Lemma edits_nonneg (x y : list A) (n : Z) : edits x y n -> 0 <= n.
Proof. induction 1; lia. Qed.

Lemma edits_from_nil (y : list A) : edits [] y (len y).
Proof.
  induction y as [|v y IH]; [constructor|].
  rewrite len_cons. now constructor.
Qed.

Lemma edits_to_nil (x : list A) : edits x [] (len x).
Proof.
  induction x as [|u x IH]; [constructor|].
  rewrite len_cons. now constructor.
Qed.

Lemma edits_refl (x : list A) : edits x x 0.
Proof. induction x; now constructor. Qed.

Lemma edits_sym (x y : list A) (n : Z) : edits x y n -> edits y x n.
Proof. induction 1; now constructor. Qed.

Lemma edits_zero (x y : list A) (n : Z) : edits x y n -> n = 0 -> x = y.
Proof.
  induction 1 as [|u x y n H IH|u v x y n H IH|u x y n H IH|v x y n H IH];
    intros Hn; try (apply edits_nonneg in H; lia).
  - reflexivity.
  - now rewrite IH.
Qed.

(** Edit scripts compose; the composite is no longer than the two
    scripts together. *)
Lemma edits_trans (x y : list A) (n : Z) :
  edits x y n ->
  forall z m, edits y z m -> exists k, edits x z k /\ k <= n + m.
Proof.
  induction 1 as [|u x y n H IH|u v x y n H IH|u x y n H IH|v x y n H IH];
    intros z m Hz.
  - exists m. split; [assumption | lia].
  - remember (u :: y) as y0 eqn:Ey.
    induction Hz as [|? ? ? ? Hz _|? ? ? ? ? Hz _|? ? ? ? Hz _|? ? ? ? Hz IHz];
      try discriminate;
      [ injection Ey as -> ->; extend_script IH Hz .. | extend_insert IHz Ey ].
  - remember (v :: y) as y0 eqn:Ey.
    induction Hz as [|? ? ? ? Hz _|? ? ? ? ? Hz _|? ? ? ? Hz _|? ? ? ? Hz IHz];
      try discriminate;
      [ injection Ey as -> ->; extend_script IH Hz .. | extend_insert IHz Ey ].
  - destruct (IH _ _ Hz) as (k & Hk & Hle).
    exists (k + 1). split; [now constructor | lia].
  - remember (v :: y) as y0 eqn:Ey.
    induction Hz as [|? ? ? ? Hz _|? ? ? ? ? Hz _|? ? ? ? Hz _|? ? ? ? Hz IHz];
      try discriminate;
      [ injection Ey as -> ->; extend_script IH Hz .. | extend_insert IHz Ey ].
Qed.

Lemma distance_edits (x y : list A) : edits x y (distance eqb x y).
Proof.
  revert y. induction x as [|u x IHx]; intros y.
  - apply edits_from_nil.
  - induction y as [|v y IHy].
    + rewrite distance_nil_r. apply edits_to_nil.
    + rewrite distance_cons.
      destruct (eqb u v) eqn:E.
      * apply eqb_spec in E. subst v.
        apply Z.min_case;
          [apply Z.min_case; [apply edits_insert, IHy | apply edits_delete, IHx]
          | apply edits_keep, IHx].
      * apply Z.min_case;
          [apply Z.min_case; [apply edits_insert, IHy | apply edits_delete, IHx]
          | apply edits_subst, IHx].
Qed.

Lemma distance_least (x y : list A) (n : Z) :
  edits x y n -> distance eqb x y <= n.
Proof.
  induction 1 as [|u x y n H IH|u v x y n H IH|u x y n H IH|v x y n H IH].
  - reflexivity.
  - rewrite distance_cons.
    assert (E : eqb u u = true) by now apply eqb_spec.
    rewrite E. lia.
  - rewrite distance_cons. destruct (eqb u v); lia.
  - destruct y as [|v y].
    + rewrite !distance_nil_r in *. rewrite len_cons. lia.
    + rewrite distance_cons. lia.
  - destruct x as [|u x].
    + cbn [distance] in *. rewrite len_cons. lia.
    + rewrite distance_cons. lia.
Qed.

Lemma distance_nonneg (x y : list A) : 0 <= distance eqb x y.
Proof. exact (edits_nonneg _ _ _ (distance_edits x y)). Qed.

Lemma distance_sym (x y : list A) : distance eqb x y = distance eqb y x.
Proof.
  apply Z.le_antisymm; apply distance_least, edits_sym, distance_edits.
Qed.

Lemma distance_refl (x : list A) : distance eqb x x = 0.
Proof.
  apply Z.le_antisymm; [apply distance_least, edits_refl | apply distance_nonneg].
Qed.

Lemma distance_triangle (x y z : list A) :
  distance eqb x z <= distance eqb x y + distance eqb y z.
Proof.
  destruct (edits_trans _ _ _ (distance_edits x y) _ _ (distance_edits y z))
    as (k & Hk & Hle).
  apply distance_least in Hk. lia.
Qed.

Lemma distance_zero (x y : list A) : distance eqb x y = 0 <-> x = y.
Proof.
  split.
  - intros H. exact (edits_zero _ _ _ (distance_edits x y) H).
  - intros ->. apply distance_refl.
Qed.

(** *** The rolling rows compute the table *)

Lemma table_row_head (x a y : list A) :
  table_row eqb x a y = distance eqb x y :: tl (table_row eqb x a y).
Proof. destruct a; reflexivity. Qed.

Lemma next_row_table (bi : A) (y a x : list A) :
  next_row eqb a bi (table_row eqb x a y) (distance eqb x (bi :: y))
  = tl (table_row eqb x a (bi :: y)).
Proof.
  revert x. induction a as [|u a IH]; intros x; [reflexivity|].
  cbn [table_row tl].
  rewrite (table_row_head (u :: x) a y).
  cbn [next_row].
  rewrite <- (table_row_head (u :: x) a y).
  rewrite (table_row_head (u :: x) a (bi :: y)).
  rewrite (distance_cons u bi x y). f_equal.
  rewrite <- (distance_cons u bi x y). apply IH.
Qed.

Lemma rows_table (a b y : list A) (i : Z) :
  i = len y ->
  rows eqb a b i (table_row eqb [] a y) = table_row eqb [] a (rev b ++ y).
Proof.
  revert y i. induction b as [|bi b IH]; intros y i Hi; [reflexivity|].
  cbn [rows rev]. rewrite <- app_assoc. cbn [app].
  rewrite <- (IH (bi :: y) (i + 1)) by (rewrite len_cons; lia).
  f_equal.
  rewrite (table_row_head [] a (bi :: y)).
  replace (i + 1) with (distance eqb [] (bi :: y))
    by (cbn [distance]; rewrite len_cons; lia).
  f_equal. apply next_row_table.
Qed.

Lemma table_row_initial (a x : list A) :
  table_row eqb x a [] = map Z.of_nat (seq (length x) (length a + 1)).
Proof.
  revert x. induction a as [|u a IH]; intros x.
  - cbn. now rewrite distance_nil_r.
  - cbn [table_row length Nat.add seq map].
    rewrite distance_nil_r. f_equal. apply (IH (u :: x)).
Qed.

Lemma table_row_last (a x y : list A) :
  nth (length a) (table_row eqb x a y) 0 = distance eqb (rev a ++ x) y.
Proof.
  revert x. induction a as [|u a IH]; intros x; [reflexivity|].
  cbn [table_row length nth rev]. rewrite <- app_assoc. apply (IH (u :: x)).
Qed.

Lemma rolling_rows_distance (a b : list A) :
  nth (Z.to_nat (len a))
      (rows eqb a b 0 (map Z.of_nat (seq 0 (Z.to_nat (len a) + 1)))) 0
  = distance eqb (rev a) (rev b).
Proof.
  unfold len at 1 2. rewrite !Nat2Z.id.
  pose proof (table_row_initial a []) as Hinit. cbn [length] in Hinit.
  rewrite <- Hinit, rows_table by reflexivity.
  rewrite table_row_last. now rewrite !app_nil_r.
Qed.

(** [levenshtein] is the least number of edits between its arguments. *)
Lemma levenshtein_distance (a b : list A) :
  levenshtein eqb a b = distance eqb (rev a) (rev b).
Proof.
  unfold levenshtein.
  destruct (len a >? len b).
  - rewrite rolling_rows_distance. apply distance_sym.
  - apply rolling_rows_distance.
Qed.

(** C6. [levenshtein] is symmetric, vanishes on equal arguments, satisfies
    the triangle inequality, and returns the length of the other sequence
    when one argument is empty. *)
Theorem levenshtein_metric (a b c s : list A) :
  levenshtein eqb a b = levenshtein eqb b a
  /\ levenshtein eqb a a = 0
  /\ levenshtein eqb a c <= levenshtein eqb a b + levenshtein eqb b c
  /\ levenshtein eqb [] s = len s
  /\ levenshtein eqb s [] = len s.
Proof.
  rewrite !levenshtein_distance. repeat split.
  - apply distance_sym.
  - apply distance_refl.
  - apply distance_triangle.
  - cbn [rev distance]. unfold len. now rewrite length_rev.
  - cbn [rev]. rewrite distance_nil_r. unfold len. now rewrite length_rev.
Qed.

Lemma levenshtein_zero (a b : list A) : levenshtein eqb a b = 0 <-> a = b.
Proof.
  rewrite levenshtein_distance, distance_zero. split.
  - intros H. apply (f_equal (@rev A)) in H. now rewrite !rev_involutive in H.
  - now intros ->.
Qed.

Lemma levenshtein_nonneg (a b : list A) : 0 <= levenshtein eqb a b.
Proof. rewrite levenshtein_distance. apply distance_nonneg. Qed.

End LevenshteinFacts.

Lemma levenshtein_metric_witness :
  lev (str "kitten") (str "sitting") = lev (str "sitting") (str "kitten")
  /\ lev (str "kitten") (str "kitten") = 0
  /\ lev (str "kitten") (str "sitting")
     <= lev (str "kitten") (str "mitten") + lev (str "mitten") (str "sitting")
  /\ lev [] (str "sitting") = len (str "sitting")
  /\ lev (str "sitting") [] = len (str "sitting").
Proof.
  exact (levenshtein_metric Ascii.eqb Ascii.eqb_eq
           (str "kitten") (str "sitting") (str "mitten") (str "sitting")).
Defined.

(** ** The bisecting minimizer *)

Section MinimizerFacts.

Context {P : Type}.
Variable compute : Z -> Z * P.

Lemma cheaper_same (r : Z * P) : cheaper r r = r.
Proof. unfold cheaper. now destruct (fst r <? fst r). Qed.

Lemma cheaper_le (r1 r2 : Z * P) :
  fst (cheaper r1 r2) <= fst r1 /\ fst (cheaper r1 r2) <= fst r2.
Proof. unfold cheaper. destruct (fst r1 <? fst r2) eqn:E; lia. Qed.

(** The body of [greedy_minimum_search] once [a <= b] holds. *)
Lemma greedy_minimum_search_rec_ordered (fuel : nat) (a b : Z)
  (result_a result_b : option (Z * P)) (calls : list Z) :
  a <= b ->
  greedy_minimum_search_rec compute fuel a b result_a result_b calls =
  if a =? b then or_else result_a (or_else result_b (call compute a)) calls
  else
    let '(ra, calls) := or_else result_a (call compute a) calls in
    let '(rb, calls) := or_else result_b (call compute b) calls in
    if b =? a + 1 then (cheaper ra rb, calls)
    else
      match fuel with
      | O => (cheaper ra rb, calls)
      | S fuel' =>
          if fst ra <? fst rb
          then greedy_minimum_search_rec compute fuel' a ((a + b) / 2)
                 (Some ra) None calls
          else greedy_minimum_search_rec compute fuel' ((a + b) / 2) b
                 None (Some rb) calls
      end.
Proof.
  intros Hab.
  assert (E : (a >? b) = false) by lia.
  destruct fuel; cbn [greedy_minimum_search_rec]; rewrite E; reflexivity.
Qed.

Lemma greedy_minimum_search_rec_swap (fuel : nat) (a b : Z)
  (result_a result_b : option (Z * P)) (calls : list Z) :
  b < a ->
  greedy_minimum_search_rec compute fuel a b result_a result_b calls =
  greedy_minimum_search_rec compute fuel b a result_b result_a calls.
Proof.
  intros Hab.
  assert (E : (a >? b) = true) by lia.
  assert (E' : (b >? a) = false) by lia.
  destruct fuel; cbn [greedy_minimum_search_rec]; rewrite E, E'; reflexivity.
Qed.

Lemma midpoint_inside (a b : Z) :
  a + 1 < b -> a < (a + b) / 2 < b.
Proof.
  intros H.
  pose proof (Z.div_mod (a + b) 2 ltac:(lia)).
  pose proof (Z.mod_pos_bound (a + b) 2 ltac:(lia)). lia.
Qed.

(** The text.py copy agrees with the utils.py one as soon as the bounds
    are ordered or no result is supplied. *)
Lemma interval_search_rec_greedy (fuel : nat) (a b : Z)
  (result_a result_b : option (Z * P)) (calls : list Z) :
  a <= b \/ (result_a = None /\ result_b = None) ->
  interval_search_rec compute fuel a b result_a result_b calls =
  greedy_minimum_search_rec compute fuel a b result_a result_b calls.
Proof.
  revert a b result_a result_b calls.
  induction fuel as [|fuel IH]; intros a b ra rb calls H.
  - cbn [interval_search_rec greedy_minimum_search_rec].
    destruct (a >? b) eqn:E; [|reflexivity].
    destruct H as [H | [-> ->]]; [lia | reflexivity].
  - cbn [interval_search_rec greedy_minimum_search_rec].
    destruct (a >? b) eqn:E.
    + destruct H as [H | [-> ->]]; [lia |].
      destruct (b =? a) eqn:E1; [reflexivity|].
      cbn [or_else call].
      destruct (a =? b + 1) eqn:E2; [reflexivity|].
      pose proof (midpoint_inside b a ltac:(lia)).
      destruct (_ <? _); apply IH; lia.
    + destruct (a =? b) eqn:E1; [reflexivity|].
      destruct (or_else ra (call compute a) calls) as [ra' calls1].
      destruct (or_else rb (call compute b) calls1) as [rb' calls2].
      destruct (b =? a + 1) eqn:E2; [reflexivity|].
      pose proof (midpoint_inside a b ltac:(lia)).
      destruct (_ <? _); apply IH; lia.
Qed.

Lemma or_else_known (p : Z) (result : option (Z * P)) (calls : list Z) :
  known compute p result ->
  or_else result (call compute p) calls
  = (compute p, calls ++ new_calls result p).
Proof.
  intros [-> | ->]; cbn [or_else call]; [reflexivity|].
  now rewrite app_nil_r.
Qed.

Lemma search_at_point (a : Z) (result_a result_b : option (Z * P))
  (calls : list Z) :
  known compute a result_a -> known compute a result_b ->
  exists new p,
    or_else result_a (or_else result_b (call compute a)) calls
    = (compute p, calls ++ new)
    /\ a <= p <= a
    /\ (In p new \/ (p = a /\ result_a <> None) \/ (p = a /\ result_b <> None))
    /\ fst (compute p) <= fst (compute a)
    /\ fst (compute p) <= fst (compute a)
    /\ NoDup new
    /\ forall q, In q new ->
         a <= q <= a
         /\ (result_a <> None -> q <> a)
         /\ (result_b <> None -> q <> a)
         /\ fst (compute p) <= fst (compute q).
Proof.
  intros Ka Kb.
  destruct Ka as [-> | ->]; [destruct Kb as [-> | ->]|]; cbn [or_else call];
    [exists [a], a | exists [], a | exists [], a];
    rewrite ?app_nil_r;
    (split; [reflexivity|]); (split; [lia|]);
    (split; [|split; [lia|split; [lia|split; [repeat constructor; cbn; tauto|]]]]).
  - left. cbn. auto.
  - intros q [<-|[]]. repeat split; try lia; congruence.
  - right. right. split; [reflexivity | discriminate].
  - intros q [].
  - right. left. split; [reflexivity | discriminate].
  - intros q [].
Qed.

Lemma search_adjacent (a : Z) (result_a result_b : option (Z * P))
  (calls : list Z) :
  exists new p,
    (cheaper (compute a) (compute (a + 1)),
     (calls ++ new_calls result_a a) ++ new_calls result_b (a + 1))
    = (compute p, calls ++ new)
    /\ a <= p <= a + 1
    /\ (In p new \/ (p = a /\ result_a <> None)
        \/ (p = a + 1 /\ result_b <> None))
    /\ fst (compute p) <= fst (compute a)
    /\ fst (compute p) <= fst (compute (a + 1))
    /\ NoDup new
    /\ forall q, In q new ->
         a <= q <= a + 1
         /\ (result_a <> None -> q <> a)
         /\ (result_b <> None -> q <> a + 1)
         /\ fst (compute p) <= fst (compute q).
Proof.
  exists (new_calls result_a a ++ new_calls result_b (a + 1)).
  pose proof (cheaper_le (compute a) (compute (a + 1))) as [Hle1 Hle2].
  assert (Hnew : forall q,
             In q (new_calls result_a a ++ new_calls result_b (a + 1)) ->
             (q = a /\ result_a = None) \/ (q = a + 1 /\ result_b = None)).
  { intros q Hq. apply in_app_or in Hq.
    destruct result_a, result_b; cbn in Hq; intuition auto. }
  assert (Hnd : NoDup (new_calls result_a a ++ new_calls result_b (a + 1))).
  { destruct result_a, result_b; cbn; repeat constructor; cbn; try tauto.
    intros [H|[]]. lia. }
  unfold cheaper in *.
  destruct (fst (compute a) <? fst (compute (a + 1))) eqn:E;
    [exists a | exists (a + 1)];
    (split; [now rewrite app_assoc|]);
    (split; [lia|]); (split; [|split; [lia|split; [lia|split; [exact Hnd|]]]]).
  - destruct result_a; [right; left; split; [reflexivity|discriminate]|].
    left. cbn. auto.
  - intros q Hq. destruct (Hnew q Hq) as [[-> ->] | [-> ->]];
      repeat split; try lia; try congruence.
  - destruct result_b; [right; right; split; [reflexivity|discriminate]|].
    left. apply in_or_app. right. cbn. auto.
  - intros q Hq. destruct (Hnew q Hq) as [[-> ->] | [-> ->]];
      repeat split; try lia; try congruence.
Qed.

(** The invariant of the recursion: the new calls stay between the bounds,
    avoid the bounds whose result was handed in, are pairwise distinct, and
    none of them nor the two bounds is cheaper than the result. *)
Lemma greedy_minimum_search_rec_spec (fuel : nat) :
  forall (a b : Z) (result_a result_b : option (Z * P)) (calls : list Z),
    a <= b -> b - a <= Z.of_nat fuel ->
    known compute a result_a -> known compute b result_b ->
    exists new p,
      greedy_minimum_search_rec compute fuel a b result_a result_b calls
      = (compute p, calls ++ new)
      /\ a <= p <= b
      /\ (In p new \/ (p = a /\ result_a <> None) \/ (p = b /\ result_b <> None))
      /\ fst (compute p) <= fst (compute a)
      /\ fst (compute p) <= fst (compute b)
      /\ NoDup new
      /\ forall q, In q new ->
           a <= q <= b
           /\ (result_a <> None -> q <> a)
           /\ (result_b <> None -> q <> b)
           /\ fst (compute p) <= fst (compute q).
Proof.
  induction fuel as [|fuel IH]; intros a b ra rb calls Hab Hfuel Ka Kb;
    rewrite greedy_minimum_search_rec_ordered by assumption.
  - destruct (a =? b) eqn:E.
    + assert (b = a) as -> by lia. now apply search_at_point.
    + rewrite (or_else_known a ra) by assumption.
      rewrite (or_else_known b rb) by assumption.
      assert (E1 : (b =? a + 1) = true) by lia. rewrite E1.
      assert (b = a + 1) as -> by lia. now apply search_adjacent.
  - destruct (a =? b) eqn:E.
    + assert (b = a) as -> by lia. now apply search_at_point.
    + rewrite (or_else_known a ra) by assumption.
      rewrite (or_else_known b rb) by assumption.
      destruct (b =? a + 1) eqn:E1.
      * assert (b = a + 1) as -> by lia. now apply search_adjacent.
      * pose proof (midpoint_inside a b ltac:(lia)) as Hc.
        set (c := (a + b) / 2) in *.
        set (calls' := (calls ++ _) ++ _).
        destruct (fst (compute a) <? fst (compute b)) eqn:Hlt.
        -- destruct (IH a c (Some (compute a)) None calls')
             as (new & p & Hrun & Hp & Hin & Hpa & Hpc & Hnd & Hnew);
             try lia; try (now right); try (now left).
           rewrite Hrun. subst calls'.
           exists (new_calls ra a ++ new_calls rb b ++ new), p.
           split; [now rewrite <- !app_assoc|].
           split; [lia|].
           split.
           { destruct Hin as [Hin | [[-> _] | [_ Hin]]]; [| |congruence].
             - left. rewrite !in_app_iff. auto.
             - destruct ra; [right; left; split; [reflexivity | discriminate]|].
               left. cbn. auto. }
           split; [lia|]. split; [lia|].
           split.
           { apply NoDup_app; [destruct ra; repeat constructor; cbn; tauto | |].
             - apply NoDup_app; [destruct rb; repeat constructor; cbn; tauto
                                | assumption |].
               intros q Hq1 Hq2. apply Hnew in Hq2.
               destruct rb; cbn in Hq1; [tauto|]. lia.
             - intros q Hq1 Hq2. rewrite in_app_iff in Hq2.
               destruct ra; cbn in Hq1; [tauto|].
               destruct Hq1 as [<-|[]].
               destruct Hq2 as [Hq2 | Hq2].
               + destruct rb; cbn in Hq2; [tauto|]. lia.
               + apply Hnew in Hq2. destruct Hq2 as (_ & Hq2 & _).
                 apply Hq2; [discriminate | reflexivity]. }
           intros q Hq. rewrite !in_app_iff in Hq.
           destruct Hq as [Hq | [Hq | Hq]].
           ++ destruct ra; cbn in Hq; [tauto|]. destruct Hq as [<-|[]].
              repeat split; try lia; congruence.
           ++ destruct rb; cbn in Hq; [tauto|]. destruct Hq as [<-|[]].
              repeat split; try lia; congruence.
           ++ destruct (Hnew q Hq) as (Hq1 & Hq2 & _ & Hq4).
              repeat split; try lia.
              intros _ ->. apply Hq2; [discriminate | reflexivity].
        -- destruct (IH c b None (Some (compute b)) calls')
             as (new & p & Hrun & Hp & Hin & Hpc & Hpb & Hnd & Hnew);
             try lia; try (now right); try (now left).
           rewrite Hrun. subst calls'.
           exists (new_calls ra a ++ new_calls rb b ++ new), p.
           split; [now rewrite <- !app_assoc|].
           split; [lia|].
           split.
           { destruct Hin as [Hin | [[_ Hin] | [-> _]]]; [|congruence|].
             - left. rewrite !in_app_iff. auto.
             - destruct rb; [right; right; split; [reflexivity | discriminate]|].
               left. rewrite !in_app_iff. cbn. auto. }
           split; [lia|]. split; [lia|].
           split.
           { apply NoDup_app; [destruct ra; repeat constructor; cbn; tauto | |].
             - apply NoDup_app; [destruct rb; repeat constructor; cbn; tauto
                                | assumption |].
               intros q Hq1 Hq2. apply Hnew in Hq2.
               destruct rb; cbn in Hq1; [tauto|].
               destruct Hq1 as [<-|[]]. destruct Hq2 as (_ & _ & Hq2 & _).
               apply Hq2; [discriminate | reflexivity].
             - intros q Hq1 Hq2. rewrite in_app_iff in Hq2.
               destruct ra; cbn in Hq1; [tauto|].
               destruct Hq1 as [<-|[]].
               destruct Hq2 as [Hq2 | Hq2].
               + destruct rb; cbn in Hq2; [tauto|]. lia.
               + apply Hnew in Hq2. lia. }
           intros q Hq. rewrite !in_app_iff in Hq.
           destruct Hq as [Hq | [Hq | Hq]].
           ++ destruct ra; cbn in Hq; [tauto|]. destruct Hq as [<-|[]].
              repeat split; try lia; congruence.
           ++ destruct rb; cbn in Hq; [tauto|]. destruct Hq as [<-|[]].
              repeat split; try lia; congruence.
           ++ destruct (Hnew q Hq) as (Hq1 & _ & Hq3 & Hq4).
              repeat split; try lia.
              intros _ ->. apply Hq3; [discriminate | reflexivity].
Qed.

(** More fuel than [|b - a|] changes nothing: the recursion never runs
    out of the fuel [greedy_minimum_search] starts it with. *)
Lemma greedy_minimum_search_rec_fuel (fuel1 : nat) :
  forall (fuel2 : nat) (a b : Z) (result_a result_b : option (Z * P))
         (calls : list Z),
    Z.abs (b - a) <= Z.of_nat fuel1 -> Z.abs (b - a) <= Z.of_nat fuel2 ->
    greedy_minimum_search_rec compute fuel1 a b result_a result_b calls
    = greedy_minimum_search_rec compute fuel2 a b result_a result_b calls.
Proof.
  induction fuel1 as [|fuel1 IH]; intros fuel2 a b ra rb calls H1 H2.
  - destruct (Z.le_gt_cases a b) as [Hab | Hab].
    + rewrite !greedy_minimum_search_rec_ordered by assumption.
      destruct (a =? b) eqn:E; [reflexivity|].
      assert (E1 : (b =? a + 1) = true) by lia. rewrite E1.
      destruct (or_else ra _ _) as [ra' calls1].
      now destruct (or_else rb _ _) as [rb' calls2].
    + lia.
  - destruct (Z.le_gt_cases a b) as [Hab | Hab].
    + rewrite !greedy_minimum_search_rec_ordered by assumption.
      destruct (a =? b) eqn:E; [reflexivity|].
      destruct (or_else ra _ _) as [ra' calls1].
      destruct (or_else rb _ _) as [rb' calls2].
      destruct (b =? a + 1) eqn:E1; [reflexivity|].
      pose proof (midpoint_inside a b ltac:(lia)) as Hc.
      destruct fuel2 as [|fuel2]; [lia|].
      destruct (_ <? _); apply IH; lia.
    + rewrite !(greedy_minimum_search_rec_swap _ a b) by assumption.
      rewrite !greedy_minimum_search_rec_ordered by lia.
      destruct (b =? a) eqn:E; [reflexivity|].
      destruct (or_else rb _ _) as [rb' calls1].
      destruct (or_else ra _ _) as [ra' calls2].
      destruct (a =? b + 1) eqn:E1; [reflexivity|].
      pose proof (midpoint_inside b a ltac:(lia)) as Hc.
      destruct fuel2 as [|fuel2]; [lia|].
      destruct (_ <? _); apply IH; lia.
Qed.

(** [greedy_minimum_search] satisfies the equation its source text reads. *)
Lemma greedy_minimum_search_unfold (a b : Z)
  (result_a result_b : option (Z * P)) (calls : list Z) :
  greedy_minimum_search compute a b result_a result_b calls =
  let '(a, b, result_a, result_b) :=
    if a >? b then (b, a, result_b, result_a)
    else (a, b, result_a, result_b) in
  if a =? b then or_else result_a (or_else result_b (call compute a)) calls
  else
    let '(result_a, calls) := or_else result_a (call compute a) calls in
    let '(result_b, calls) := or_else result_b (call compute b) calls in
    if b =? a + 1 then (cheaper result_a result_b, calls)
    else
      let c := (a + b) / 2 in
      if fst result_a <? fst result_b
      then greedy_minimum_search compute a c (Some result_a) None calls
      else greedy_minimum_search compute c b None (Some result_b) calls.
Proof.
  unfold greedy_minimum_search.
  destruct (a >? b) eqn:Hab.
  - rewrite greedy_minimum_search_rec_swap by lia.
    rewrite (greedy_minimum_search_rec_fuel _ (Z.abs_nat (a - b))) by lia.
    rewrite greedy_minimum_search_rec_ordered by lia.
    destruct (b =? a) eqn:E; [reflexivity|].
    destruct (or_else result_b _ _) as [rb' calls1].
    destruct (or_else result_a _ _) as [ra' calls2].
    destruct (a =? b + 1) eqn:E1; [reflexivity|].
    pose proof (midpoint_inside b a ltac:(lia)) as Hc.
    destruct (Z.abs_nat (a - b)) as [|fuel] eqn:Hf; [lia|].
    cbv zeta. destruct (_ <? _); apply greedy_minimum_search_rec_fuel; lia.
  - rewrite greedy_minimum_search_rec_ordered by lia.
    destruct (a =? b) eqn:E; [reflexivity|].
    destruct (or_else result_a _ _) as [ra' calls1].
    destruct (or_else result_b _ _) as [rb' calls2].
    destruct (b =? a + 1) eqn:E1; [reflexivity|].
    pose proof (midpoint_inside a b ltac:(lia)) as Hc.
    destruct (Z.abs_nat (b - a)) as [|fuel] eqn:Hf; [lia|].
    cbv zeta. destruct (_ <? _); apply greedy_minimum_search_rec_fuel; lia.
Qed.

Lemma interval_search_rec_swap (fuel : nat) (a b : Z)
  (result_a result_b : option (Z * P)) (calls : list Z) :
  b < a ->
  interval_search_rec compute fuel a b result_a result_b calls =
  interval_search_rec compute fuel b a result_a result_b calls.
Proof.
  intros Hab.
  assert (E : (a >? b) = true) by lia.
  assert (E' : (b >? a) = false) by lia.
  destruct fuel; cbn [interval_search_rec]; rewrite E, E'; reflexivity.
Qed.

(** [interval_search] satisfies the equation its source text reads: the
    bounds are exchanged, the results are not. *)
Lemma interval_search_unfold (a b : Z)
  (result_a result_b : option (Z * P)) (calls : list Z) :
  interval_search compute a b result_a result_b calls =
  let '(a, b) := if a >? b then (b, a) else (a, b) in
  if a =? b then or_else result_a (or_else result_b (call compute a)) calls
  else
    let '(result_a, calls) := or_else result_a (call compute a) calls in
    let '(result_b, calls) := or_else result_b (call compute b) calls in
    if b =? a + 1 then (cheaper result_a result_b, calls)
    else
      let c := (a + b) / 2 in
      if fst result_a <? fst result_b
      then interval_search compute a c (Some result_a) None calls
      else interval_search compute c b None (Some result_b) calls.
Proof.
  assert (Hordered : forall lo hi fuel,
             lo <= hi -> Z.abs (hi - lo) <= Z.of_nat fuel ->
             interval_search_rec compute fuel lo hi result_a result_b calls =
             if lo =? hi
             then or_else result_a (or_else result_b (call compute lo)) calls
             else
               let '(result_a, calls) :=
                 or_else result_a (call compute lo) calls in
               let '(result_b, calls) :=
                 or_else result_b (call compute hi) calls in
               if hi =? lo + 1 then (cheaper result_a result_b, calls)
               else
                 let c := (lo + hi) / 2 in
                 if fst result_a <? fst result_b
                 then interval_search compute lo c (Some result_a) None calls
                 else interval_search compute c hi None (Some result_b) calls).
  { intros lo hi fuel Hle Hfuel.
    rewrite interval_search_rec_greedy by now left.
    rewrite (greedy_minimum_search_rec_fuel _ (Z.abs_nat (hi - lo))) by lia.
    fold (greedy_minimum_search compute lo hi result_a result_b calls).
    rewrite greedy_minimum_search_unfold.
    assert (E : (lo >? hi) = false) by lia. rewrite E.
    destruct (lo =? hi) eqn:E0; [reflexivity|].
    destruct (or_else result_a _ _) as [ra' calls1].
    destruct (or_else result_b _ _) as [rb' calls2].
    destruct (hi =? lo + 1) eqn:E1; [reflexivity|].
    pose proof (midpoint_inside lo hi ltac:(lia)) as Hc.
    cbv zeta. unfold greedy_minimum_search, interval_search.
    destruct (_ <? _); symmetry; apply interval_search_rec_greedy; lia. }
  unfold interval_search at 1.
  destruct (a >? b) eqn:Hab.
  - rewrite interval_search_rec_swap by lia. apply Hordered; lia.
  - apply Hordered; lia.
Qed.

Lemma greedy_minimum_search_short (fuel : nat) (a b : Z) (calls : list Z) :
  Z.abs (b - a) <= 1 ->
  fst (greedy_minimum_search_rec compute fuel a b None None calls)
  = cheaper (compute (Z.min a b)) (compute (Z.max a b)).
Proof.
  intros H.
  destruct (Z.le_gt_cases a b) as [Hab | Hab].
  - rewrite greedy_minimum_search_rec_ordered by assumption.
    rewrite Z.min_l, Z.max_r by lia.
    destruct (a =? b) eqn:E.
    + assert (b = a) as -> by lia. cbn. now rewrite cheaper_same.
    + assert (E1 : (b =? a + 1) = true) by lia. cbn. now rewrite E1.
  - rewrite greedy_minimum_search_rec_swap by assumption.
    rewrite greedy_minimum_search_rec_ordered by lia.
    rewrite Z.min_r, Z.max_l by lia.
    assert (E : (b =? a) = false) by lia.
    assert (E1 : (a =? b + 1) = true) by lia.
    cbn. now rewrite E, E1.
Qed.

Lemma greedy_minimum_search_contract :
  minimizer_contract compute
    (fun a b => greedy_minimum_search compute a b None None).
Proof.
  intros a b. unfold greedy_minimum_search.
  pose proof (greedy_minimum_search_short (Z.abs_nat (b - a)) a b []) as Hshort.
  assert (Hspec : exists new p,
    greedy_minimum_search_rec compute (Z.abs_nat (b - a)) a b None None []
    = (compute p, [] ++ new)
    /\ Z.min a b <= p <= Z.max a b
    /\ In p new
    /\ NoDup new
    /\ forall q, In q new ->
         Z.min a b <= q <= Z.max a b /\ fst (compute p) <= fst (compute q)).
  { destruct (Z.le_gt_cases a b) as [Hab | Hab].
    - destruct (greedy_minimum_search_rec_spec (Z.abs_nat (b - a)) a b
                  None None []) as (new & p & Hrun & Hp & Hin & _ & _ & Hnd & Hnew);
        try lia; try (now left).
      exists new, p. rewrite Z.min_l, Z.max_r by lia.
      repeat split; try assumption; try lia.
      + destruct Hin as [Hin | [[_ Hin] | [_ Hin]]]; congruence.
      + apply Hnew; assumption.
      + apply Hnew; assumption.
      + apply Hnew; assumption.
    - rewrite greedy_minimum_search_rec_swap by assumption.
      destruct (greedy_minimum_search_rec_spec (Z.abs_nat (b - a)) b a
                  None None []) as (new & p & Hrun & Hp & Hin & _ & _ & Hnd & Hnew);
        try lia; try (now left).
      exists new, p. rewrite Z.min_r, Z.max_l by lia.
      repeat split; try assumption; try lia.
      + destruct Hin as [Hin | [[_ Hin] | [_ Hin]]]; congruence.
      + apply Hnew; assumption.
      + apply Hnew; assumption.
      + apply Hnew; assumption. }
  destruct Hspec as (new & p & Hrun & Hp & Hin & Hnd & Hnew).
  rewrite Hrun in *. cbn [app fst] in *.
  split; [intros q Hq; now apply Hnew|].
  split; [exists p; repeat split; try assumption; intros q Hq; now apply Hnew|].
  split; assumption.
Qed.

Lemma interval_search_contract :
  minimizer_contract compute
    (fun a b => interval_search compute a b None None).
Proof.
  intros a b.
  unfold interval_search. rewrite interval_search_rec_greedy by now right.
  apply greedy_minimum_search_contract.
Qed.

(** C7. Called on a range without supplied results, the bisecting minimizer
    (either copy) evaluates [compute] only between the bounds, returns the
    result of an evaluated position that is cheapest among all evaluated
    positions, returns the cheaper endpoint result on a range of length at
    most one, and evaluates no position twice. *)
Theorem bisecting_minimizer_contract :
  minimizer_contract compute
    (fun a b => greedy_minimum_search compute a b None None)
  /\ minimizer_contract compute
       (fun a b => interval_search compute a b None None).
Proof.
  split; [apply greedy_minimum_search_contract | apply interval_search_contract].
Qed.

(** C10. Without supplied endpoint results, [interval_search] and
    [greedy_minimum_search] return the same result for every pair of
    bounds and every cost function, after the same calls of [compute]. *)
Theorem interval_search_is_greedy_minimum_search (a b : Z) (calls : list Z) :
  interval_search compute a b None None calls
  = greedy_minimum_search compute a b None None calls.
Proof.
  unfold interval_search, greedy_minimum_search.
  apply interval_search_rec_greedy. now right.
Qed.

End MinimizerFacts.

(** ** Interval utilities *)

Lemma get_token_interval_ordered (text : list ascii) (at_ : Z) :
  ordered (get_token_interval text at_).
Proof.
  unfold get_token_interval, ordered.
  destruct (token_scan _ text 1 at_ _) as [start end_].
  destruct (start <=? end_) eqn:E; cbn [fst snd]; lia.
Qed.

(** A scan keeps [start] within [0, len(text)] and [end] below
    [len(text)]. *)
Lemma token_scan_bounds (text : list ascii) (step : Z) (fuel : nat) :
  forall pos start end_,
    0 <= start <= len text -> 0 <= end_ -> (text <> [] -> end_ < len text) ->
    let '(start', end') := token_scan fuel text step pos (start, end_) in
    0 <= start' <= len text /\ 0 <= end' /\ (text <> [] -> end' < len text).
Proof.
  induction fuel as [|fuel IH]; intros pos start end_ Hs He He'; cbn [token_scan].
  - auto.
  - destruct (in_token text pos) eqn:E; [|auto].
    unfold in_token in E. apply andb_prop in E as [E _].
    apply andb_prop in E as [E1 E2].
    apply IH; destruct (pos <? start) eqn:?, (pos >? end_) eqn:?; try lia;
      intros; try lia; auto.
Qed.

(** Token lookup returns an interval inside the text, or the empty interval
    at the queried position; on the empty text it returns [(0, 1)]. *)
Lemma get_token_interval_cases (text : list ascii) (at_ : Z) :
  (text = [] /\ get_token_interval text at_ = (0, 1))
  \/ (text <> [] /\ get_token_interval text at_ = (at_, at_))
  \/ (text <> [] /\ within text (get_token_interval text at_)).
Proof.
  destruct text as [|c text].
  { left. split; [reflexivity|].
    unfold get_token_interval. cbn [length token_scan].
    assert (E : in_token [] at_ = false).
    { unfold in_token, len. cbn [length Z.of_nat].
      destruct (0 <=? at_) eqn:?, (at_ <? 0) eqn:?; try reflexivity; lia. }
    now rewrite E. }
  right. set (t := c :: text).
  assert (Ht : t <> []) by discriminate.
  unfold get_token_interval.
  pose proof (token_scan_bounds t (-1) (S (length t)) at_ (len t) 0) as H1.
  destruct (token_scan _ t (-1) at_ _) as [s1 e1].
  destruct H1 as (Hs1 & He1 & He1'); try (pose proof (len_nonneg t); lia).
  { intros _. subst t. rewrite len_cons. pose proof (len_nonneg text). lia. }
  pose proof (token_scan_bounds t 1 (S (length t)) at_ s1 e1 Hs1 He1 He1') as H2.
  destruct (token_scan _ t 1 at_ _) as [s2 e2].
  destruct H2 as (Hs2 & He2 & He2').
  destruct (s2 <=? e2); [right | left]; split; auto.
  specialize (He2' Ht). unfold within. cbn [fst snd]. lia.
Qed.

(** The scans leave the text before their fuel runs out. *)
Lemma token_scan_right_fuel (text : list ascii) (fuel1 : nat) :
  forall (fuel2 : nat) (pos : Z) (se : Z * Z),
    len text - pos < Z.of_nat fuel1 -> len text - pos < Z.of_nat fuel2 ->
    token_scan fuel1 text 1 pos se = token_scan fuel2 text 1 pos se.
Proof.
  induction fuel1 as [|fuel1 IH]; intros fuel2 pos se H1 H2.
  - destruct fuel2 as [|fuel2]; [reflexivity|]. cbn [token_scan].
    destruct (in_token text pos) eqn:E; [|reflexivity].
    unfold in_token in E. lia.
  - cbn [token_scan]. destruct (in_token text pos) eqn:E.
    + destruct fuel2 as [|fuel2]; [unfold in_token in E; lia|].
      cbn [token_scan]. rewrite E. destruct se. apply IH; lia.
    + destruct fuel2; cbn [token_scan]; now rewrite ?E.
Qed.

Lemma token_scan_left_fuel (text : list ascii) (fuel1 : nat) :
  forall (fuel2 : nat) (pos : Z) (se : Z * Z),
    pos + 1 < Z.of_nat fuel1 -> pos + 1 < Z.of_nat fuel2 ->
    token_scan fuel1 text (-1) pos se = token_scan fuel2 text (-1) pos se.
Proof.
  induction fuel1 as [|fuel1 IH]; intros fuel2 pos se H1 H2.
  - destruct fuel2 as [|fuel2]; [reflexivity|]. cbn [token_scan].
    destruct (in_token text pos) eqn:E; [|reflexivity].
    unfold in_token in E. lia.
  - cbn [token_scan]. destruct (in_token text pos) eqn:E.
    + destruct fuel2 as [|fuel2]; [unfold in_token in E; lia|].
      cbn [token_scan]. rewrite E. destruct se. apply IH; lia.
    + destruct fuel2; cbn [token_scan]; now rewrite ?E.
Qed.

(** The fuel of [get_token_interval] is enough for either scan. *)
Lemma token_scan_fuel (text : list ascii) (step : Z) (fuel : nat) (pos : Z)
  (se : Z * Z) :
  step = 1 \/ step = -1 -> (length text < fuel)%nat ->
  token_scan fuel text step pos se
  = token_scan (S (length text)) text step pos se.
Proof.
  intros Hstep Hfuel. destruct fuel as [|fuel]; [lia|].
  cbn [token_scan]. destruct (in_token text pos) eqn:E; [|reflexivity].
  destruct se as [start end_].
  unfold in_token in E. apply andb_prop in E as [E _].
  apply andb_prop in E as [E1 E2]. unfold len in E2.
  destruct Hstep as [-> | ->].
  - apply token_scan_right_fuel; unfold len; lia.
  - apply token_scan_left_fuel; lia.
Qed.

Lemma get_token_sibling_ordered (text : list ascii) (i : interval)
  (direction : Z) :
  ordered (get_token_sibling text i direction).
Proof. destruct i. apply get_token_interval_ordered. Qed.

Lemma combine_intervals_ordered (i1 i2 : interval) :
  ordered i1 -> ordered (combine_intervals i1 i2).
Proof. destruct i1, i2. unfold ordered. cbn. lia. Qed.

Lemma combine_intervals_within (text : list ascii) (i1 i2 : interval) :
  within text i1 -> within text i2 -> within text (combine_intervals i1 i2).
Proof. destruct i1, i2. unfold within. cbn. lia. Qed.

(** ** Boundary snapping *)

(** The stable sort of the three candidates puts first the earliest one, in
    the order left sibling, center, right sibling, whose distance is least. *)
Lemma neighbour_token_choice (self : LevenshteinSearch)
  (original_text : list ascii) (center : interval) :
  let left := get_token_sibling (text self) center (-1) in
  let right := get_token_sibling (text self) center 1 in
  let d := token_distance self original_text in
  _find_best_neighbour_token self original_text center
  = if (d left <=? d center) && (d left <=? d right) then left
    else if d center <=? d right then center
    else right.
Proof.
  cbv zeta. unfold _find_best_neighbour_token.
  cbn [map sort_decorated fold_right insert_sorted goes_before snd].
  set (dl := token_distance _ _ (get_token_sibling _ _ (-1))).
  set (dr := token_distance _ _ (get_token_sibling _ _ 1)).
  set (dc := token_distance _ _ center).
  destruct (dc <=? dr) eqn:Ecr; cbn [insert_sorted goes_before snd];
    destruct (dl <=? dc) eqn:Elc; destruct (dl <=? dr) eqn:Elr;
    cbn [andb fst]; try reflexivity; lia.
Qed.

(** C3 (amended). Boundary snapping keeps a token of lowest distance among
    left sibling, center and right sibling; on ties it keeps the earliest in
    that order, so the center wins over the right sibling and the left
    sibling wins over the center. *)
Theorem best_neighbour_token_earliest_minimum (self : LevenshteinSearch)
  (original_text : list ascii) (center : interval) :
  let left := get_token_sibling (text self) center (-1) in
  let right := get_token_sibling (text self) center 1 in
  let d := token_distance self original_text in
  let kept := _find_best_neighbour_token self original_text center in
  (d kept <= d left /\ d kept <= d center /\ d kept <= d right)
  /\ (kept = left /\ d left <= d center
      \/ kept = center /\ d center < d left /\ d center <= d right
      \/ kept = right /\ d right < d left /\ d right < d center).
Proof.
  cbv zeta. rewrite neighbour_token_choice.
  set (dl := token_distance _ _ (get_token_sibling _ _ (-1))).
  set (dr := token_distance _ _ (get_token_sibling _ _ 1)).
  set (dc := token_distance _ _ center).
  destruct (dl <=? dc) eqn:Elc; destruct (dl <=? dr) eqn:Elr;
    destruct (dc <=? dr) eqn:Ecr; cbn [andb];
    fold dl dr dc; (split; [lia|]); try lia;
    first [ left; split; [reflexivity | lia]
          | right; left; split; [reflexivity | lia]
          | right; right; split; [reflexivity | lia] ].
Qed.

(** C3 (as stated) fails: in ["ab ab"] the center token [(3, 5)] and its
    left sibling [(0, 2)] both match the query token ["ab"] exactly, and the
    left sibling is kept. *)
Lemma best_neighbour_token_left_sibling_wins_tie :
  let self := LevenshteinSearch_init (str "ab ab") in
  let center := (3, 5) in
  let left := get_token_sibling (text self) center (-1) in
  token_distance self (str "ab") left = token_distance self (str "ab") center
  /\ token_distance self (str "ab") center
     <= token_distance self (str "ab") (get_token_sibling (text self) center 1)
  /\ _find_best_neighbour_token self (str "ab") center = (0, 2)
  /\ _find_best_neighbour_token self (str "ab") center <> center.
Proof. vm_compute. repeat split; discriminate. Qed.

(** ** Text normalisation *)

Lemma lowercase_and_space_permits (c : ascii) :
  has_label lowercase_and_space [c] = true
  <-> (97 <= Z.of_N (N_of_ascii c) <= 122 \/ c = " "%char).
Proof.
  destruct c as [[] [] [] [] [] [] [] []]; vm_compute;
    (split; [intros H; first [discriminate H | left; split; discriminate
                             | right; reflexivity]
            | intros [[H1 H2] | H]; first [reflexivity | now elim H1 | now elim H2
                                          | discriminate H]]).
Qed.

(** C5 (amended). Normalising ["Hello---World!!"] with lower-casing, dashes
    to spaces and whitespace collapsing, under the oracle that accepts the
    lower-case letters and the space, gives ["hello world"] with offset
    table [0,1,2,3,4,5,8,9,10,11,12]: the kept space is the first dash. *)
Theorem normalize_hello_world :
  let cleaner :=
    TextCleaner_init (str "Hello---World!!") lowercase_and_space true true true in
  clean_text cleaner = str "hello world"
  /\ positions cleaner = [0; 1; 2; 3; 4; 5; 8; 9; 10; 11; 12].
Proof. vm_compute. split; reflexivity. Qed.

(** C5 (as stated) fails: the offset table of the scenario is not
    [0,1,2,3,4,8,9,10,11,12,13]. *)
Lemma normalize_hello_world_offsets_differ :
  positions
    (TextCleaner_init (str "Hello---World!!") lowercase_and_space true true true)
  <> [0; 1; 2; 3; 4; 8; 9; 10; 11; 12; 13].
Proof. vm_compute. discriminate. Qed.

(** ** Offset lookup *)

Lemma index_in_range (l : list Z) (k : Z) :
  0 <= k < len l -> index l k = Returns (nth (Z.to_nat k) l 0).
Proof.
  intros H. unfold index.
  assert (E : (k <? 0) = false) by lia. rewrite E, E.
  destruct (nth_error l (Z.to_nat k)) as [x|] eqn:Hx.
  - now rewrite (nth_error_nth _ _ _ Hx).
  - apply nth_error_None in Hx. unfold len in H. lia.
Qed.

Lemma index_last (l : list Z) :
  0 < len l -> index l (-1) = Returns (nth (Z.to_nat (len l - 1)) l 0).
Proof.
  intros H. unfold index. cbn [Z.ltb Z.compare].
  assert (E : (-1 + len l <? 0) = false) by lia. rewrite E.
  replace (-1 + len l) with (len l - 1) by lia.
  destruct (nth_error l (Z.to_nat (len l - 1))) as [x|] eqn:Hx.
  - now rewrite (nth_error_nth _ _ _ Hx).
  - apply nth_error_None in Hx. unfold len in *. lia.
Qed.

Lemma index_out_of_range (l : list Z) (k : Z) :
  len l <= k \/ k < - len l -> index l k = Raises IndexError.
Proof.
  intros H. unfold index. pose proof (len_nonneg l) as Hl.
  destruct (k <? 0) eqn:E.
  - assert (E1 : (k + len l <? 0) = true) by lia. now rewrite E1.
  - rewrite E.
    destruct (nth_error l (Z.to_nat k)) as [x|] eqn:Hx; [|reflexivity].
    assert (Hlt : (Z.to_nat k < length l)%nat)
      by (apply nth_error_Some; congruence).
    unfold len in H. lia.
Qed.

(** C4 (amended). For an offset table of length [L], [get_original_offset]
    returns [offset_table[k]] for [0 <= k < L] and [offset_table[L-1] + 1]
    for [k = L >= 1]; for [k > L] and for [k < -L] it prints the pair
    [(L, k)] and returns [None], without raising. *)
Theorem get_original_offset_cases (self : TextCleaner) (k : Z) :
  let table := positions self in
  let L := len table in
  (0 <= k < L ->
   get_original_offset self k = ([], Returns (Some (nth (Z.to_nat k) table 0))))
  /\ (k = L -> 1 <= L ->
      get_original_offset self k
      = ([], Returns (Some (nth (Z.to_nat (L - 1)) table 0 + 1))))
  /\ (L < k \/ k < - L ->
      get_original_offset self k = ([(L, k)], Returns None)).
Proof.
  cbv zeta. unfold get_original_offset.
  pose proof (len_nonneg (positions self)) as HL. repeat split.
  - intros H. assert (E : (k =? len (positions self)) = false) by lia.
    now rewrite E, index_in_range.
  - intros -> H. rewrite Z.eqb_refl, index_last by lia. reflexivity.
  - intros H. assert (E : (k =? len (positions self)) = false) by lia.
    rewrite E, index_out_of_range by lia. reflexivity.
Qed.

(** C4 (as stated) fails: with the offset table [0, 1, 2], the offset [-1]
    outside [0, 3] silently yields the guessed value [2], and the offset [5]
    yields [None] after a printed line instead of an exception. *)
Lemma get_original_offset_no_failure :
  let self := TextCleaner_init (str "abc") lowercase_and_space true true true in
  positions self = [0; 1; 2]
  /\ get_original_offset self (-1) = ([], Returns (Some 2))
  /\ get_original_offset self 5 = ([(3, 5)], Returns None).
Proof. vm_compute. repeat split; reflexivity. Qed.

(** ** Interval refinement *)

Lemma neighbour_token_ordered (self : LevenshteinSearch)
  (original_text : list ascii) (center : interval) :
  ordered center ->
  ordered (_find_best_neighbour_token self original_text center).
Proof.
  intros H. rewrite neighbour_token_choice.
  destruct (_ && _); [apply get_token_sibling_ordered|].
  destruct (_ <=? _); [assumption | apply get_token_sibling_ordered].
Qed.

Lemma snap_to_tokens_ordered (self : LevenshteinSearch)
  (look_for : list ascii) (best_interval : interval) :
  ordered (snd (snap_to_tokens self look_for best_interval)).
Proof.
  unfold snap_to_tokens. destruct best_interval as [best_start best_end].
  match goal with
  | |- context [combine_intervals ?i1 ?i2] =>
      pose proof (combine_intervals_ordered i1 i2) as H;
      destruct (combine_intervals i1 i2) as [s e]
  end.
  cbn [snd]. apply H. apply neighbour_token_ordered.
  destruct (_ =? 0); apply get_token_interval_ordered.
Qed.

Lemma stretch_radius_bounds (n : Z) : 0 <= n -> 0 <= n / 3 /\ 2 * (n / 3) <= n.
Proof.
  intros H. pose proof (Z.div_mod n 3 ltac:(lia)).
  pose proof (Z.mod_pos_bound n 3 ltac:(lia)). lia.
Qed.

(** Every interval the three searches evaluate a cost on is ordered. *)
Lemma stretch_search_ordered (self : LevenshteinSearch)
  (look_for : list ascii) (start stop : Z) :
  Forall ordered (snd (stretch_search self look_for start stop)).
Proof.
  unfold stretch_search.
  pose proof (len_nonneg look_for) as Hn.
  pose proof (stretch_radius_bounds _ Hn) as [Hr1 Hr2].
  set (n := len look_for) in *. set (r := n / 3) in *.
  pose proof (interval_search_contract (cost_window self look_for) start stop)
    as H1.
  cbv beta in H1.
  destruct (interval_search _ start stop None None [])
    as [[d1 [s1 e1]] calls1].
  destruct H1 as (_ & (p1 & _ & Hp1 & _) & _).
  unfold cost_window in Hp1. fold n in Hp1. injection Hp1 as _ -> ->.
  pose proof (interval_search_contract (cost_start self look_for (p1 + n))
                (p1 - r) (p1 + r)) as H2.
  cbv beta in H2.
  destruct (interval_search _ (p1 - r) (p1 + r) None None [])
    as [[d2 [s2 e2]] calls2].
  destruct H2 as (Hc2 & (p2 & Hin2 & Hp2 & _) & _).
  unfold cost_start in Hp2. injection Hp2 as _ -> ->.
  pose proof (Hc2 p2 Hin2) as Hp2.
  pose proof (interval_search_contract (cost_end self look_for p2)
                (p1 + n - r) (p1 + n + r)) as H3.
  cbv beta in H3.
  destruct (interval_search _ (p1 + n - r) (p1 + n + r) None None [])
    as [[d3 i3] calls3].
  destruct H3 as (Hc3 & _).
  cbn [snd]. rewrite !Forall_app. repeat split; apply Forall_map, Forall_forall.
  - intros p _. unfold ordered, cost_window. cbn [fst snd]. lia.
  - intros p Hp. apply Hc2 in Hp. unfold ordered, cost_start. cbn [fst snd]. lia.
  - intros p Hp. apply Hc3 in Hp. unfold ordered, cost_end. cbn [fst snd]. lia.
Qed.


(** ** Dictionaries *)

Section DictFacts.

Context {K V : Type} (keq : K -> K -> bool).
Hypothesis keq_spec : forall x y, keq x y = true <-> x = y.

Lemma keq_refl (k : K) : keq k k = true.
Proof. now apply keq_spec. Qed.

Lemma dict_get_set (d : dict K V) (k k' : K) (v : V) :
  dict_get keq (dict_set keq d k v) k'
  = if keq k k' then Some v else dict_get keq d k'.
Proof.
  induction d as [|[k0 v0] d IH]; cbn [dict_set dict_get]; [reflexivity|].
  destruct (keq k0 k) eqn:E0.
  - apply keq_spec in E0. subst k0. cbn [dict_get].
    now destruct (keq k k').
  - cbn [dict_get]. rewrite IH.
    destruct (keq k0 k') eqn:E1; [|reflexivity].
    apply keq_spec in E1. subst k'.
    destruct (keq k k0) eqn:E2; [|reflexivity].
    apply keq_spec in E2. subst k0. now rewrite keq_refl in E0.
Qed.

Lemma dict_get_keys (d : dict K V) (k : K) :
  In k (dict_keys d) <-> dict_get keq d k <> None.
Proof.
  induction d as [|[k0 v0] d IH]; cbn [dict_keys map In dict_get fst].
  - tauto.
  - destruct (keq k0 k) eqn:E.
    + apply keq_spec in E. split; [discriminate | auto].
    + fold (dict_keys d). rewrite <- IH. split; [|tauto].
      intros [-> | H]; [|assumption]. now rewrite keq_refl in E.
Qed.

End DictFacts.

Lemma ngram_eqb_spec (g h : ngram) : ngram_eqb g h = true <-> g = h.
Proof.
  destruct g as [[g1 g2] g3], h as [[h1 h2] h3]. cbn [ngram_eqb].
  rewrite !andb_true_iff, !Ascii.eqb_eq. split.
  - now intros [[-> ->] ->].
  - intros H. now injection H as -> -> ->.
Qed.

(** ** The trigram index *)

Lemma dict_get_add_occurrence (index : dict ngram (list Z)) (i : Z)
  (h g : ngram) :
  dict_get ngram_eqb (add_occurrence index i h) g
  = if ngram_eqb h g then Some (bucket_of index h ++ [i])
    else dict_get ngram_eqb index g.
Proof.
  unfold add_occurrence. now rewrite (dict_get_set _ ngram_eqb_spec).
Qed.

(** The constructor's loop appends to the bucket of [g] the offsets at
    which [g] stands, in increasing order, and adds no other key. *)
Lemma dict_get_index_ngrams (g : ngram) (grams : list ngram) :
  forall (i : Z) (index : dict ngram (list Z)),
    dict_get ngram_eqb (index_ngrams grams i index) g
    = match occurrences g grams i with
      | [] => dict_get ngram_eqb index g
      | found => Some (bucket_of index g ++ found)
      end.
Proof.
  induction grams as [|h grams IH]; intros i index; [reflexivity|].
  cbn [index_ngrams occurrences]. rewrite IH.
  unfold bucket_of. rewrite !dict_get_add_occurrence.
  destruct (ngram_eqb h g) eqn:E.
  - apply ngram_eqb_spec in E. subst h. fold (bucket_of index g).
    destruct (occurrences g grams (i + 1)); [reflexivity|].
    now rewrite <- app_assoc.
  - reflexivity.
Qed.

(** The bucket of a trigram in the index of [text] lists the offsets of
    the trigram in the padded text. *)
Lemma index_bucket (text : list ascii) (g : ngram) (bucket : list Z) :
  dict_get ngram_eqb (ngrams (LevenshteinSearch_init text)) g = Some bucket ->
  bucket = occurrences g (ngrams3 (padded text)) 0.
Proof.
  cbn [ngrams LevenshteinSearch_init]. rewrite dict_get_index_ngrams.
  cbn [dict_get bucket_of app].
  destruct (occurrences _ _ _); [discriminate | congruence].
Qed.

Lemma index_bucket_found (text : list ascii) (g : ngram) (occurrence : Z) :
  In occurrence (occurrences g (ngrams3 (padded text)) 0) ->
  exists bucket,
    dict_get ngram_eqb (ngrams (LevenshteinSearch_init text)) g = Some bucket
    /\ In occurrence bucket.
Proof.
  intros H. cbn [ngrams LevenshteinSearch_init].
  rewrite dict_get_index_ngrams. cbn [dict_get bucket_of app].
  destruct (occurrences _ _ _) as [|o found]; [destruct H|].
  now exists (o :: found).
Qed.

Lemma occurrences_nth (g : ngram) (grams : list ngram) :
  forall (k : nat) (i : Z),
    nth_error grams k = Some g -> In (i + Z.of_nat k) (occurrences g grams i).
Proof.
  induction grams as [|h grams IH]; intros k i Hk; [now destruct k|].
  cbn [occurrences]. destruct k as [|k].
  - injection Hk as ->.
    assert (E : ngram_eqb g g = true) by now apply ngram_eqb_spec.
    rewrite E. left. cbn. lia.
  - cbn [nth_error] in Hk. apply (IH k (i + 1)) in Hk.
    replace (i + Z.of_nat (S k)) with (i + 1 + Z.of_nat k) by lia.
    destruct (ngram_eqb h g); [now right | assumption].
Qed.

Lemma ngrams3_nth (l1 l2 : list ascii) (c1 c2 c3 : ascii) :
  nth_error (ngrams3 (l1 ++ c1 :: c2 :: c3 :: l2)) (length l1)
  = Some (c1, c2, c3).
Proof.
  induction l1 as [|x l1 IH]; [reflexivity|].
  cbn [app length ngrams3].
  destruct (l1 ++ c1 :: c2 :: c3 :: l2) as [|y [|z l]] eqn:E.
  - now destruct l1.
  - destruct l1 as [|? [|? ?]]; discriminate.
  - cbn [nth_error]. exact IH.
Qed.

(** ** Trigram votes *)

Lemma votes_add_vote (windows : dict Z Z) (w w' : Z) :
  votes (add_vote windows w) w'
  = if w =? w' then votes windows w + 1 else votes windows w'.
Proof.
  unfold votes, add_vote. rewrite (dict_get_set _ Z.eqb_eq).
  destruct (w =? w'); [|reflexivity].
  now destruct (dict_get Z.eqb windows w).
Qed.

Lemma votes_nonneg (windows : dict Z Z) (w : Z) :
  positive_votes windows -> 0 <= votes windows w.
Proof.
  intros H. unfold votes.
  destruct (dict_get Z.eqb windows w) eqn:E; [apply H in E|]; lia.
Qed.

Lemma positive_votes_add_vote (windows : dict Z Z) (w : Z) :
  positive_votes windows -> positive_votes (add_vote windows w).
Proof.
  intros H w' v. unfold add_vote. rewrite (dict_get_set _ Z.eqb_eq).
  destruct (w =? w').
  - intros [= <-]. destruct (dict_get Z.eqb windows w) eqn:E; [apply H in E|]; lia.
  - apply H.
Qed.

Lemma vote_bucket_skip (start stop window_size : Z) (bucket : list Z)
  (windows : dict Z Z) :
  (forall occurrence, In occurrence bucket ->
                      occurrence < start \/ stop < occurrence) ->
  vote_bucket start stop window_size bucket windows = Returns windows.
Proof.
  induction bucket as [|o bucket IH]; intros H; [reflexivity|].
  cbn [vote_bucket].
  assert (E : (o <? start) || (o >? stop) = true).
  { destruct (H o (or_introl eq_refl)); apply orb_true_iff; lia. }
  rewrite E. apply IH. intros o' Ho'. apply H. now right.
Qed.

Lemma vote_bucket_returns (start stop window_size : Z) (bucket : list Z) :
  window_size <> 0 ->
  forall windows : dict Z Z,
    positive_votes windows ->
    exists windows',
      vote_bucket start stop window_size bucket windows = Returns windows'
      /\ positive_votes windows'
      /\ (forall w, votes windows w <= votes windows' w)
      /\ (forall occurrence,
             In occurrence bucket -> start <= occurrence <= stop ->
             1 <= votes windows' (occurrence / window_size)).
Proof.
  intros Hws. induction bucket as [|o bucket IH]; intros windows Hpos.
  - exists windows. repeat split; try assumption; try reflexivity.
    intros ? [].
  - cbn [vote_bucket].
    destruct ((o <? start) || (o >? stop)) eqn:E.
    + destruct (IH windows Hpos) as (w' & Hrun & Hpos' & Hmono & Hin).
      exists w'. repeat split; try assumption.
      intros o' [<- | Ho'] Hrange; [|now apply Hin].
      apply orb_true_iff in E. lia.
    + unfold floordiv.
      assert (E0 : (window_size =? 0) = false) by lia. rewrite E0.
      cbn [bind].
      destruct (IH _ (positive_votes_add_vote _ (o / window_size) Hpos))
        as (w' & Hrun & Hpos' & Hmono & Hin).
      exists w'. split; [assumption|]. split; [assumption|].
      assert (Hstep : forall w, votes windows w
                                <= votes (add_vote windows (o / window_size)) w).
      { intros w. rewrite votes_add_vote.
        destruct (_ =? w) eqn:Ew; [|lia]. apply Z.eqb_eq in Ew. subst w. lia. }
      split; [intros w; specialize (Hstep w); specialize (Hmono w); lia|].
      intros o' [<- | Ho'] Hrange; [|now apply Hin].
      specialize (Hmono (o / window_size)).
      rewrite votes_add_vote, Z.eqb_refl in Hmono.
      pose proof (votes_nonneg windows (o / window_size) Hpos). lia.
Qed.

Lemma vote_ngrams_skip (self : LevenshteinSearch) (start stop window_size : Z)
  (grams : list ngram) (windows : dict Z Z) :
  (forall g bucket occurrence,
      In g grams -> dict_get ngram_eqb (ngrams self) g = Some bucket ->
      In occurrence bucket -> occurrence < start \/ stop < occurrence) ->
  vote_ngrams self start stop window_size grams windows = Returns windows.
Proof.
  induction grams as [|g grams IH]; intros H; [reflexivity|].
  cbn [vote_ngrams].
  destruct (dict_get ngram_eqb (ngrams self) g) as [bucket|] eqn:E.
  - rewrite vote_bucket_skip.
    + cbn [bind]. apply IH. intros g' b o Hg'. apply H. now right.
    + intros o Ho. apply (H g bucket o); auto. now left.
  - apply IH. intros g' b o Hg'. apply H. now right.
Qed.

Lemma vote_ngrams_returns (self : LevenshteinSearch)
  (start stop window_size : Z) (grams : list ngram) :
  window_size <> 0 ->
  forall windows : dict Z Z,
    positive_votes windows ->
    exists windows',
      vote_ngrams self start stop window_size grams windows = Returns windows'
      /\ positive_votes windows'
      /\ (forall w, votes windows w <= votes windows' w)
      /\ (forall g bucket occurrence,
             In g grams -> dict_get ngram_eqb (ngrams self) g = Some bucket ->
             In occurrence bucket -> start <= occurrence <= stop ->
             1 <= votes windows' (occurrence / window_size)).
Proof.
  intros Hws. induction grams as [|g grams IH]; intros windows Hpos.
  - exists windows. repeat split; try assumption; try reflexivity.
    intros ? ? ? [].
  - cbn [vote_ngrams].
    destruct (dict_get ngram_eqb (ngrams self) g) as [bucket|] eqn:E.
    + destruct (vote_bucket_returns start stop window_size bucket Hws
                  windows Hpos) as (w1 & Hrun1 & Hpos1 & Hmono1 & Hin1).
      rewrite Hrun1. cbn [bind].
      destruct (IH w1 Hpos1) as (w2 & Hrun2 & Hpos2 & Hmono2 & Hin2).
      exists w2. split; [assumption|]. split; [assumption|].
      split; [intros w; specialize (Hmono1 w); specialize (Hmono2 w); lia|].
      intros g' b o [<- | Hg'] Hb Ho Hrange; [|now apply (Hin2 g' b)].
      assert (b = bucket) as -> by congruence.
      specialize (Hin1 o Ho Hrange).
      specialize (Hmono2 (o / window_size)). lia.
    + destruct (IH windows Hpos) as (w2 & Hrun2 & Hpos2 & Hmono2 & Hin2).
      exists w2. repeat split; try assumption.
      intros g' b o [<- | Hg'] Hb Ho Hrange; [congruence|].
      now apply (Hin2 g' b).
Qed.

Lemma len_zero {A} (l : list A) : len l = 0 -> l = [].
Proof. destruct l; [reflexivity|]. rewrite len_cons. pose proof (len_nonneg l). lia. Qed.

(** The first loop of [find_best] never raises: there is a trigram to
    look up only when the query, and so the window size, is not empty. *)
Lemma vote_windows_returns (self : LevenshteinSearch) (look_for : list ascii)
  (start stop : Z) :
  exists windows,
    vote_windows self look_for start stop = Returns windows
    /\ positive_votes windows
    /\ (forall g bucket occurrence,
           In g (ngrams3 (padded look_for)) ->
           dict_get ngram_eqb (ngrams self) g = Some bucket ->
           In occurrence bucket ->
           start <= occurrence <= (if stop <? 0 then len (text self) else stop) ->
           1 <= votes windows (occurrence / len look_for)).
Proof.
  unfold vote_windows.
  assert (Hempty : positive_votes []) by (intros w v; discriminate).
  destruct (Z.eq_dec (len look_for) 0) as [E | E].
  - apply len_zero in E. subst look_for. exists [].
    repeat split; try assumption. intros ? ? ? [].
  - destruct (vote_ngrams_returns self start
                (if stop <? 0 then len (text self) else stop)
                (len look_for) (ngrams3 (padded look_for)) E [] Hempty)
      as (w & Hrun & Hpos & _ & Hin).
    exists w. repeat split; assumption.
Qed.

Lemma existsb_false {X} (f : X -> bool) (l : list X) :
  existsb f l = false -> forall x, In x l -> f x = false.
Proof.
  intros H x Hx. destruct (f x) eqn:E; [|reflexivity].
  rewrite <- H. symmetry. apply existsb_exists. now exists x.
Qed.

(** [shares_trigram] decides whether a trigram of the padded query stands
    in the padded text at an offset of the range. *)
Lemma shares_trigram_spec (text look_for : list ascii) (start stop : Z) :
  shares_trigram text look_for start stop = true
  <-> exists g k,
        In g (ngrams3 (padded look_for))
        /\ In k (occurrences g (ngrams3 (padded text)) 0)
        /\ start <= k <= stop.
Proof.
  unfold shares_trigram. rewrite existsb_exists. split.
  - intros (g & Hg & H). apply existsb_exists in H as (k & Hk & H).
    exists g, k. repeat split; try assumption; lia.
  - intros (g & k & Hg & Hk & H). exists g. split; [assumption|].
    apply existsb_exists. exists k. split; [assumption | lia].
Qed.

(** C9. When no trigram of the padded query stands in the padded text at an
    offset of [start..stop], [find_best] returns normally, with [None] for
    the interval (and [-1] for the distance). *)
Theorem find_best_no_shared_trigram (reference look_for : list ascii)
  (start stop threshold : Z) :
  shares_trigram reference look_for start (if stop <? 0 then len reference else stop)
  = false ->
  find_best (LevenshteinSearch_init reference) look_for start stop threshold
  = Returns (None, -1).
Proof.
  intros H. unfold find_best, vote_windows.
  rewrite vote_ngrams_skip; [reflexivity|].
  intros g bucket k Hg Hbucket Hk.
  apply index_bucket in Hbucket. subst bucket.
  apply (existsb_false _ _ H) in Hg.
  apply (existsb_false _ _ Hg) in Hk.
  cbn [text LevenshteinSearch_init]. lia.
Qed.

Lemma find_best_no_shared_trigram_witness :
  shares_trigram (str "ab cd") (str "zzz") 0 (if -1 <? 0 then len (str "ab cd") else -1)
  = false
  /\ find_best (LevenshteinSearch_init (str "ab cd")) (str "zzz") 0 (-1) 0
     = Returns (None, -1).
Proof.
  assert (H : shares_trigram (str "ab cd") (str "zzz") 0
                (if -1 <? 0 then len (str "ab cd") else -1) = false)
    by reflexivity.
  split; [exact H|].
  exact (find_best_no_shared_trigram (str "ab cd") (str "zzz") 0 (-1) 0 H).
Defined.

(** ** Ranking and walking the candidate windows *)

Lemma insert_sorted_perm {X} (reverse : bool) (x : X * Z) (l : list (X * Z)) :
  Permutation (insert_sorted reverse x l) (x :: l).
Proof.
  induction l as [|y l IH]; cbn [insert_sorted]; [reflexivity|].
  destruct (goes_before reverse (snd x) (snd y)); [reflexivity|].
  rewrite IH. apply perm_swap.
Qed.

Lemma sort_decorated_perm {X} (reverse : bool) (l : list (X * Z)) :
  Permutation (sort_decorated reverse l) l.
Proof.
  induction l as [|x l IH]; cbn [sort_decorated fold_right]; [reflexivity|].
  rewrite insert_sorted_perm. now constructor.
Qed.

Lemma goes_before_total (reverse : bool) (k1 k2 : Z) :
  goes_before reverse k1 k2 = false -> goes_before reverse k2 k1 = true.
Proof. unfold goes_before. destruct reverse; lia. Qed.

Lemma goes_before_trans (reverse : bool) (k1 k2 k3 : Z) :
  goes_before reverse k1 k2 = true -> goes_before reverse k2 k3 = true ->
  goes_before reverse k1 k3 = true.
Proof. unfold goes_before. destruct reverse; lia. Qed.

Lemma insert_sorted_sorted {X} (reverse : bool) (x : X * Z) (l : list (X * Z)) :
  StronglySorted (fun a b => goes_before reverse (snd a) (snd b) = true) l ->
  StronglySorted (fun a b => goes_before reverse (snd a) (snd b) = true)
                 (insert_sorted reverse x l).
Proof.
  induction 1 as [|y l Hl IH Hy]; cbn [insert_sorted].
  - repeat constructor.
  - destruct (goes_before reverse (snd x) (snd y)) eqn:E.
    + constructor; [now constructor|].
      constructor; [assumption|].
      eapply Forall_impl; [|exact Hy].
      intros z Hz. eapply goes_before_trans; eassumption.
    + constructor; [assumption|].
      apply (Permutation_Forall (Permutation_sym (insert_sorted_perm _ _ _))).
      constructor; [now apply goes_before_total | assumption].
Qed.

Lemma sort_decorated_sorted {X} (reverse : bool) (l : list (X * Z)) :
  StronglySorted (fun a b => goes_before reverse (snd a) (snd b) = true)
                 (sort_decorated reverse l).
Proof.
  induction l as [|x l IH]; cbn [sort_decorated fold_right]; [constructor|].
  now apply insert_sorted_sorted.
Qed.

Lemma descending_by_key {X} (f : X -> Z) (l : list (X * Z)) :
  Forall (fun x => snd x = f (fst x)) l ->
  StronglySorted (fun a b => goes_before true (snd a) (snd b) = true) l ->
  StronglySorted (fun w1 w2 => f w2 <= f w1) (map fst l).
Proof.
  intros Hkey Hsorted.
  induction Hsorted as [|x l Hl IH Hx]; cbn [map]; [constructor|].
  inversion Hkey as [|? ? Hx0 Hl0]; subst.
  constructor; [now apply IH|].
  apply Forall_map. rewrite Forall_forall in Hx, Hl0 |- *.
  intros y Hy. specialize (Hx y Hy). specialize (Hl0 y Hy).
  unfold goes_before in Hx. lia.
Qed.

(** Looking up the vote counters of keys of the dictionary never raises. *)
Lemma decorate_votes (windows : dict Z Z) (l : list Z) :
  (forall w, In w l -> In w (dict_keys windows)) ->
  decorate (getitem Z.eqb windows) l
  = Returns (map (fun w => (w, votes windows w)) l).
Proof.
  induction l as [|w l IH]; intros H; [reflexivity|].
  cbn [decorate map]. rewrite IH by (intros; apply H; now right).
  assert (Hw : dict_get Z.eqb windows w <> None).
  { apply (dict_get_keys _ Z.eqb_eq). apply H. now left. }
  unfold getitem, votes.
  destruct (dict_get Z.eqb windows w); [reflexivity | congruence].
Qed.

(** [sorted(windows.keys(), key=lambda w: windows[w], reverse=True)] is a
    rearrangement of the keys by descending vote count. *)
Lemma sorted_windows (windows : dict Z Z) :
  exists ranked,
    sorted (getitem Z.eqb windows) true (dict_keys windows) = Returns ranked
    /\ Permutation ranked (dict_keys windows)
    /\ StronglySorted (fun w1 w2 => votes windows w2 <= votes windows w1) ranked.
Proof.
  unfold sorted. rewrite decorate_votes by auto. cbn [bind].
  set (decorated := map (fun w => (w, votes windows w)) (dict_keys windows)).
  exists (map fst (sort_decorated true decorated)).
  split; [reflexivity|].
  pose proof (sort_decorated_perm true decorated) as Hperm.
  split.
  - rewrite Hperm. subst decorated. rewrite map_map. cbn [fst].
    now rewrite map_id.
  - assert (Hkey : Forall (fun x => snd x = votes windows (fst x))
                          (sort_decorated true decorated)).
    { apply (Permutation_Forall (Permutation_sym Hperm)).
      subst decorated. apply Forall_map, Forall_forall. reflexivity. }
    apply descending_by_key; [assumption | apply sort_decorated_sorted].
Qed.

Lemma ratio_below_080_pos (v : Z) (last : Q) :
  0 < Qnum last ->
  ratio_below_080 v last = Returns (drop_test v last).
Proof.
  intros H. destruct last as [n d]. cbn [Qnum] in H.
  destruct n as [|n|n]; try lia.
  unfold ratio_below_080, drop_test, Qeq_bool, Qle_bool, Qdiv, Qmult, Qinv,
    inject_Z.
  cbn [Qnum Qden]. rewrite Pos.mul_1_l.
  destruct (Z.pos n * 1 =? 0 * Z.pos d) eqn:E0; [lia|].
  f_equal.
  destruct (_ <=? _) eqn:E1; destruct (_ <? _) eqn:E2; cbn [negb];
    try reflexivity; lia.
Qed.

Section Walk.

Variable self : LevenshteinSearch.
Variable look_for : list ascii.
Variables start stop : Z.
Variable windows : dict Z Z.
Hypothesis windows_positive : positive_votes windows.

Lemma getitem_votes (w : Z) :
  In w (dict_keys windows) ->
  getitem Z.eqb windows w = Returns (votes windows w) /\ 1 <= votes windows w.
Proof.
  intros H. apply (dict_get_keys _ Z.eqb_eq) in H.
  unfold getitem, votes.
  destruct (dict_get Z.eqb windows w) as [v|] eqn:E; [|congruence].
  split; [reflexivity | now apply windows_positive in E].
Qed.

(** The loop refines a prefix of the candidates, each of which passed the
    80% test against its predecessor, and stops at the end of the list or
    at the first candidate that fails the test. *)
Lemma walk_candidates_split (candidates : list Z) :
  forall (best_interval : option interval) (best_distance : Z) (last : Q),
    0 < Qnum last ->
    (forall w, In w candidates -> In w (dict_keys windows)) ->
    exists refined skipped,
      candidates = refined ++ skipped
      /\ walk_candidates self look_for start stop windows candidates
           best_interval best_distance last
         = Returns (fold_left pick
                      (map (refine self look_for start stop) refined)
                      (best_interval, best_distance))
      /\ kept_chain windows last refined
      /\ match skipped with
         | [] => True
         | w :: _ =>
             drop_test (votes windows w) (last_after windows last refined) = true
         end.
Proof.
  induction candidates as [|w rest IH]; intros bi bd last Hlast Hkeys.
  - exists [], []. repeat split.
  - cbn [walk_candidates].
    destruct (getitem_votes w (Hkeys w (or_introl eq_refl))) as [Hget Hpos].
    rewrite Hget. cbn [bind].
    rewrite ratio_below_080_pos by assumption. cbn [bind].
    destruct (drop_test (votes windows w) last) eqn:Hdrop.
    + exists [], (w :: rest). repeat split. exact Hdrop.
    + destruct (IH (fst (pick (bi, bd) (refine self look_for start stop w)))
                   (snd (pick (bi, bd) (refine self look_for start stop w)))
                   (inject_Z (votes windows w)))
        as (refined & skipped & Hsplit & Hrun & Hchain & Hstop).
      { cbn. lia. }
      { intros w' Hw'. apply Hkeys. now right. }
      exists (w :: refined), skipped.
      split; [now rewrite Hsplit|].
      split.
      { cbn [map fold_left]. rewrite <- surjective_pairing in Hrun.
        rewrite <- Hrun. unfold pick, refine. cbn [fst snd].
        destruct (_find_best_in_interval _ _ _ _) as [d i]. cbn [fst snd].
        now destruct (_ || _). }
      split; [split; assumption | exact Hstop].
Qed.

End Walk.

Lemma pick_some (i0 : interval) (d0 : Z) (r : Z * interval) :
  pick (Some i0, d0) r
  = if fst r <? d0 then (Some (snd r), fst r) else (Some i0, d0).
Proof. reflexivity. Qed.

Lemma pick_none (d0 : Z) (r : Z * interval) :
  pick (None, d0) r = (Some (snd r), fst r).
Proof. reflexivity. Qed.

(** The best result is the first refined candidate of least distance. *)
Lemma fold_pick_first_minimum (results : list (Z * interval)) :
  forall (i0 : interval) (d0 : Z),
    (fold_left pick results (Some i0, d0) = (Some i0, d0)
     /\ forall r, In r results -> d0 <= fst r)
    \/ exists k r,
         nth_error results k = Some r
         /\ fold_left pick results (Some i0, d0) = (Some (snd r), fst r)
         /\ fst r < d0
         /\ (forall r', In r' results -> fst r <= fst r')
         /\ (forall m r', (m < k)%nat -> nth_error results m = Some r' ->
                          fst r < fst r').
Proof.
  induction results as [|r1 results IH]; intros i0 d0.
  - left. split; [reflexivity | intros ? []].
  - cbn [fold_left]. rewrite pick_some.
    destruct (fst r1 <? d0) eqn:E.
    + right.
      destruct (IH (snd r1) (fst r1))
        as [[Hrun Hall] | (k & r & Hk & Hrun & Hlt & Hall & Hfirst)].
      * exists 0%nat, r1.
        split; [reflexivity|]. split; [assumption|]. split; [lia|]. split.
        -- intros r' [<- | Hr']; [lia | now apply Hall].
        -- intros m r' Hm. lia.
      * exists (S k), r.
        split; [assumption|]. split; [assumption|]. split; [lia|]. split.
        -- intros r' [<- | Hr']; [lia | now apply Hall].
        -- intros [|m] r' Hm Hr'; cbn [nth_error] in Hr'.
           ++ injection Hr' as <-. lia.
           ++ apply (Hfirst m); [lia | assumption].
    + destruct (IH i0 d0)
        as [[Hrun Hall] | (k & r & Hk & Hrun & Hlt & Hall & Hfirst)].
      * left. split; [assumption|].
        intros r' [<- | Hr']; [lia | now apply Hall].
      * right. exists (S k), r.
        split; [assumption|]. split; [assumption|]. split; [lia|]. split.
        -- intros r' [<- | Hr']; [lia | now apply Hall].
        -- intros [|m] r' Hm Hr'; cbn [nth_error] in Hr'.
           ++ injection Hr' as <-. lia.
           ++ apply (Hfirst m); [lia | assumption].
Qed.

Lemma pick_first_minimum (r1 : Z * interval) (results : list (Z * interval))
  (d0 : Z) :
  exists k r,
    nth_error (r1 :: results) k = Some r
    /\ fold_left pick (r1 :: results) (None, d0) = (Some (snd r), fst r)
    /\ (forall r', In r' (r1 :: results) -> fst r <= fst r')
    /\ (forall m r', (m < k)%nat -> nth_error (r1 :: results) m = Some r' ->
                     fst r < fst r').
Proof.
  cbn [fold_left]. rewrite pick_none.
  destruct (fold_pick_first_minimum results (snd r1) (fst r1))
    as [[Hrun Hall] | (k & r & Hk & Hrun & Hlt & Hall & Hfirst)].
  - exists 0%nat, r1.
    split; [reflexivity|]. split; [assumption|]. split.
    + intros r' [<- | Hr']; [lia | now apply Hall].
    + intros m r' Hm. lia.
  - exists (S k), r.
    split; [assumption|]. split; [assumption|]. split.
    + intros r' [<- | Hr']; [lia | now apply Hall].
    + intros [|m] r' Hm Hr'; cbn [nth_error] in Hr'.
      * injection Hr' as <-. lia.
      * apply (Hfirst m); [lia | assumption].
Qed.

Lemma kept_chain_pairs (windows : dict Z Z) (l : list Z) :
  forall (last : Q) (k : nat) (u v : Z),
    kept_chain windows last l ->
    nth_error l k = Some u -> nth_error l (S k) = Some v ->
    drop_test (votes windows v) (inject_Z (votes windows u)) = false.
Proof.
  induction l as [|w l IH]; intros last k u v Hchain Hu Hv; [now destruct k|].
  destruct Hchain as [_ Hchain]. destruct k as [|k].
  - injection Hu as <-. destruct l as [|w' l]; [discriminate|].
    injection Hv as <-. apply Hchain.
  - apply (IH _ k u v Hchain); assumption.
Qed.

Lemma last_after_last (windows : dict Z Z) (l : list Z) (w : Z) (last : Q) :
  last_after windows last (l ++ [w]) = inject_Z (votes windows w).
Proof. unfold last_after. now rewrite fold_left_app. Qed.

Lemma drop_test_votes (v u : Z) :
  drop_test v (inject_Z u) = true <-> below_80_percent v u.
Proof. unfold drop_test, below_80_percent, inject_Z. cbn [Qnum Qden]. lia. Qed.

Lemma in_firstn {X} (n : nat) (l : list X) (x : X) :
  In x (firstn n l) -> In x l.
Proof.
  intros H. rewrite <- (firstn_skipn n l). apply in_or_app. now left.
Qed.

Lemma first_candidate_kept (windows : dict Z Z) (w : Z) :
  1 <= votes windows w -> drop_test (votes windows w) (1 # 10) = false.
Proof. intros H. unfold drop_test. cbn [Qnum Qden]. lia. Qed.

(** [find_best] never raises: it returns what [pick] makes of the
    refinements of a prefix of the first ten ranked windows. *)
Lemma find_best_walk (self : LevenshteinSearch) (look_for : list ascii)
  (start stop threshold : Z) :
  let stop' := if stop <? 0 then len (text self) else stop in
  exists windows ranked refined skipped,
    vote_windows self look_for start stop = Returns windows
    /\ positive_votes windows
    /\ sorted (getitem Z.eqb windows) true (dict_keys windows) = Returns ranked
    /\ Permutation ranked (dict_keys windows)
    /\ StronglySorted (fun w1 w2 => votes windows w2 <= votes windows w1) ranked
    /\ firstn 10 ranked = refined ++ skipped
    /\ (ranked <> [] -> refined <> [])
    /\ kept_chain windows (1 # 10) refined
    /\ match skipped with
       | [] => True
       | w :: _ =>
           drop_test (votes windows w) (last_after windows (1 # 10) refined)
           = true
       end
    /\ find_best self look_for start stop threshold
       = Returns (fold_left pick
                    (map (refine self look_for start stop') refined)
                    (None, -1)).
Proof.
  cbv zeta.
  destruct (vote_windows_returns self look_for start stop)
    as (windows & Hvotes & Hpos & _).
  destruct (sorted_windows windows) as (ranked & Hsorted & Hperm & Hdesc).
  destruct (walk_candidates_split self look_for start
              (if stop <? 0 then len (text self) else stop) windows Hpos
              (firstn 10 ranked) None (-1) (1 # 10))
    as (refined & skipped & Hsplit & Hrun & Hchain & Hstop).
  { cbn. lia. }
  { intros w Hw. apply in_firstn in Hw.
    now apply (Permutation_in _ Hperm). }
  exists windows, ranked, refined, skipped.
  split; [assumption|]. split; [assumption|]. split; [assumption|].
  split; [assumption|]. split; [assumption|]. split; [assumption|].
  split.
  { intros Hranked ->. cbn [app] in Hsplit.
    destruct skipped as [|w rest];
      [destruct ranked; [congruence | discriminate]|].
    cbn [last_after fold_left] in Hstop.
    rewrite first_candidate_kept in Hstop; [discriminate|].
    apply (getitem_votes windows Hpos), (Permutation_in _ Hperm), (in_firstn 10).
    rewrite Hsplit. now left. }
  split; [assumption|]. split; [assumption|].
  unfold find_best. rewrite Hvotes. cbn [bind]. rewrite Hsorted. cbn [bind].
  exact Hrun.
Qed.

(** C2. [find_best] ranks the voted windows by descending vote count and
    refines a prefix [refined] of the first ten: no refined candidate is
    below 80% of its predecessor's count, and the walk stops at the first
    candidate that is.  The result is the refined candidate of least
    distance, the earliest one among equals. *)
Theorem find_best_ranking (self : LevenshteinSearch) (look_for : list ascii)
  (start stop threshold : Z) :
  let stop' := if stop <? 0 then len (text self) else stop in
  let distance w := fst (refine self look_for start stop' w) in
  exists windows ranked refined skipped,
    vote_windows self look_for start stop = Returns windows
    /\ sorted (getitem Z.eqb windows) true (dict_keys windows) = Returns ranked
    /\ Permutation ranked (dict_keys windows)
    /\ StronglySorted (fun w1 w2 => votes windows w2 <= votes windows w1) ranked
    /\ firstn 10 ranked = refined ++ skipped
    /\ (length refined <= 10)%nat
    /\ (ranked <> [] -> refined <> [])
    /\ (forall k u v,
           nth_error refined k = Some u -> nth_error refined (S k) = Some v ->
           ~ below_80_percent (votes windows v) (votes windows u))
    /\ (forall w rest,
           skipped = w :: rest ->
           exists front u,
             refined = front ++ [u]
             /\ below_80_percent (votes windows w) (votes windows u))
    /\ match refined with
       | [] =>
           find_best self look_for start stop threshold = Returns (None, -1)
       | _ :: _ =>
           exists k w,
             nth_error refined k = Some w
             /\ find_best self look_for start stop threshold
                = Returns (Some (snd (refine self look_for start stop' w)),
                           distance w)
             /\ (forall w', In w' refined -> distance w <= distance w')
             /\ (forall m w', (m < k)%nat -> nth_error refined m = Some w' ->
                              distance w < distance w')
       end.
Proof.
  cbv zeta.
  destruct (find_best_walk self look_for start stop threshold)
    as (windows & ranked & refined & skipped & Hvotes & Hpos & Hsorted & Hperm
        & Hdesc & Hsplit & Hnonempty & Hchain & Hstop & Hrun).
  exists windows, ranked, refined, skipped.
  split; [assumption|]. split; [assumption|]. split; [assumption|].
  split; [assumption|]. split; [assumption|].
  split.
  { pose proof (firstn_le_length 10 ranked) as Hlen.
    rewrite Hsplit, length_app in Hlen. lia. }
  split; [assumption|].
  split.
  { intros k u v Hu Hv Hbelow.
    apply drop_test_votes in Hbelow.
    now rewrite (kept_chain_pairs _ _ _ k u v Hchain Hu Hv) in Hbelow. }
  split.
  { intros w rest ->.
    assert (Hne : refined <> []).
    { apply Hnonempty. intros ->. destruct refined; discriminate. }
    destruct (exists_last Hne) as (front & u & ->).
    exists front, u. split; [reflexivity|].
    rewrite last_after_last in Hstop. now apply drop_test_votes. }
  rewrite Hrun.
  destruct refined as [|w1 refined']; [reflexivity|].
  cbn [map].
  destruct (pick_first_minimum
              (refine self look_for start
                 (if stop <? 0 then len (text self) else stop) w1)
              (map (refine self look_for start
                      (if stop <? 0 then len (text self) else stop)) refined')
              (-1))
    as (k & r & Hk & Hbest & Hleast & Hearliest).
  change (refine self look_for start
            (if stop <? 0 then len (text self) else stop) w1
          :: map (refine self look_for start
                    (if stop <? 0 then len (text self) else stop)) refined')
    with (map (refine self look_for start
                 (if stop <? 0 then len (text self) else stop)) (w1 :: refined'))
    in Hk, Hleast, Hearliest.
  rewrite nth_error_map in Hk.
  destruct (nth_error (w1 :: refined') k) as [w|] eqn:Hw; [|discriminate].
  injection Hk as <-.
  exists k, w. split; [exact Hw|]. split; [now rewrite Hbest|]. split.
  - intros w' Hw'. apply Hleast. now apply in_map.
  - intros m w' Hm Hw'. apply (Hearliest m); [assumption|].
    now rewrite nth_error_map, Hw'.
Qed.

(** ** Well-formed intervals *)

(** [find_best] returns the null result or the refinement of a window. *)
Lemma find_best_result (self : LevenshteinSearch) (look_for : list ascii)
  (start stop threshold : Z) :
  let stop' := if stop <? 0 then len (text self) else stop in
  find_best self look_for start stop threshold = Returns (None, -1)
  \/ exists w,
       find_best self look_for start stop threshold
       = Returns (Some (snd (refine self look_for start stop' w)),
                  fst (refine self look_for start stop' w)).
Proof.
  cbv zeta.
  destruct (find_best_walk self look_for start stop threshold)
    as (windows & ranked & refined & skipped & _ & _ & _ & _ & _ & _ & _ & _
        & _ & Hrun).
  rewrite Hrun.
  destruct refined as [|w1 refined']; [now left | right].
  cbn [map].
  destruct (pick_first_minimum
              (refine self look_for start
                 (if stop <? 0 then len (text self) else stop) w1)
              (map (refine self look_for start
                      (if stop <? 0 then len (text self) else stop)) refined')
              (-1))
    as (k & r & Hk & Hbest & _).
  apply nth_error_In in Hk.
  change (In r (map (refine self look_for start
                       (if stop <? 0 then len (text self) else stop))
                    (w1 :: refined'))) in Hk.
  apply in_map_iff in Hk as (w & <- & _).
  exists w. now rewrite Hbest.
Qed.

(** C8 (amended). Token lookup, sibling lookup, the union with an ordered
    interval, every interval evaluated during refinement, the interval
    refinement returns and the interval [find_best] returns all satisfy
    [start <= end].  Token lookup returns either an interval within
    [0, len(text)] or the empty interval at the queried position, and
    [(0, 1)] on the empty text; the union of two intervals within the text
    is within the text. *)
Theorem intervals_ordered (self : LevenshteinSearch) (txt look_for : list ascii)
  (at_ direction start stop threshold : Z) (i1 i2 : interval) :
  ordered i1 ->
  ordered (get_token_interval txt at_)
  /\ ordered (get_token_sibling txt i2 direction)
  /\ ordered (combine_intervals i1 i2)
  /\ Forall ordered (evaluated_intervals self look_for start stop)
  /\ ordered (snd (_find_best_in_interval self look_for start stop))
  /\ (forall i d,
         find_best self look_for start stop threshold = Returns (Some i, d) ->
         ordered i)
  /\ ((txt = [] /\ get_token_interval txt at_ = (0, 1))
      \/ (txt <> [] /\ get_token_interval txt at_ = (at_, at_))
      \/ (txt <> [] /\ within txt (get_token_interval txt at_)))
  /\ (within txt i1 -> within txt i2 -> within txt (combine_intervals i1 i2)).
Proof.
  intros H1.
  split; [apply get_token_interval_ordered|].
  split; [apply get_token_sibling_ordered|].
  split; [now apply combine_intervals_ordered|].
  split; [apply stretch_search_ordered|].
  split; [apply snap_to_tokens_ordered|].
  split.
  { intros i d Hfound.
    destruct (find_best_result self look_for start stop threshold)
      as [Hnone | [w Hsome]]; [congruence|].
    rewrite Hsome in Hfound. injection Hfound as <- _.
    apply snap_to_tokens_ordered. }
  split; [apply get_token_interval_cases | apply combine_intervals_within].
Qed.

Lemma intervals_ordered_witness :
  let self := LevenshteinSearch_init (str "ab cd") in
  ordered (0, 2)
  /\ ordered (get_token_interval (str "ab cd") 3)
  /\ ordered (get_token_sibling (str "ab cd") (3, 5) 1)
  /\ ordered (combine_intervals (0, 2) (3, 5))
  /\ Forall ordered (evaluated_intervals self (str "cd") 0 3)
  /\ ordered (snd (_find_best_in_interval self (str "cd") 0 3))
  /\ (forall i d,
         find_best self (str "cd") 0 3 0 = Returns (Some i, d) -> ordered i)
  /\ ((str "ab cd" = [] /\ get_token_interval (str "ab cd") 3 = (0, 1))
      \/ (str "ab cd" <> []
          /\ get_token_interval (str "ab cd") 3 = (3, 3))
      \/ (str "ab cd" <> []
          /\ within (str "ab cd") (get_token_interval (str "ab cd") 3)))
  /\ (within (str "ab cd") (0, 2) -> within (str "ab cd") (3, 5) ->
      within (str "ab cd") (combine_intervals (0, 2) (3, 5))).
Proof.
  assert (H : ordered (0, 2)) by (unfold ordered; cbn; lia).
  split; [exact H|].
  exact (intervals_ordered (LevenshteinSearch_init (str "ab cd")) (str "ab cd")
           (str "cd") 3 1 0 3 0 (0, 2) (3, 5) H).
Defined.

(** C8 (as stated) fails: token lookup at position 7 of ["a b"] returns
    [(7, 7)], beyond the end of the text, and [find_best] returns
    [(-2, -2)] for the query ["abc"] on ["xyabcd"]. *)
Lemma interval_outside_text :
  get_token_interval (str "a b") 7 = (7, 7)
  /\ ~ within (str "a b") (get_token_interval (str "a b") 7)
  /\ find_best (LevenshteinSearch_init (str "xyabcd")) (str "abc") 0 (-1) 0
     = Returns (Some (-2, -2), 3)
  /\ ~ within (str "xyabcd") (-2, -2).
Proof.
  vm_compute. repeat split; try reflexivity; intros [H1 H2];
    first [now apply H1 | now apply H2].
Qed.

(** ** Exact substrings *)

Lemma slice_inside {X} (l : list X) (i j : Z) :
  0 <= i -> i <= j -> j <= len l ->
  l = firstn (Z.to_nat i) l ++ slice l i j ++ skipn (Z.to_nat j) l
  /\ len (firstn (Z.to_nat i) l) = i.
Proof.
  intros Hi Hij Hj. unfold slice, clip.
  assert (E1 : (i <? 0) = false) by lia.
  assert (E2 : (j <? 0) = false) by lia.
  rewrite E1, E2, !Z.min_l by lia.
  split.
  - rewrite <- (firstn_skipn (Z.to_nat i) l) at 1. f_equal.
    rewrite <- (firstn_skipn (Z.to_nat (j - i)) (skipn (Z.to_nat i) l)) at 1.
    f_equal. rewrite skipn_skipn. f_equal. lia.
  - unfold len in *. rewrite length_firstn. lia.
Qed.

Lemma snap_to_tokens_distance (self : LevenshteinSearch)
  (look_for : list ascii) (best_interval : interval) :
  fst (snap_to_tokens self look_for best_interval)
  = lev (get_interval_text (text self)
           (snd (snap_to_tokens self look_for best_interval))) look_for.
Proof.
  unfold snap_to_tokens. destruct best_interval as [best_start best_end].
  now destruct (combine_intervals _ _).
Qed.

(** The first trigram of a query of three characters or more is the second
    trigram of the padded query. *)
Lemma first_trigram_of_query (c1 c2 c3 : ascii) (rest : list ascii) :
  In (c1, c2, c3) (ngrams3 (padded (c1 :: c2 :: c3 :: rest))).
Proof. unfold padded. cbn. right. now left. Qed.

(** Where the text reads [c1 c2 c3] from position [i] on, the trigram has
    the offset [i + 1] in the padded text. *)
Lemma trigram_occurrence (before after : list ascii) (c1 c2 c3 : ascii) :
  In (len before + 1)
     (occurrences (c1, c2, c3)
        (ngrams3 (padded (before ++ c1 :: c2 :: c3 :: after))) 0).
Proof.
  unfold padded.
  pose proof (ngrams3_nth (" "%char :: before) (after ++ [" "%char]) c1 c2 c3)
    as H.
  cbn [app] in H. rewrite <- app_assoc. cbn [app].
  apply (occurrences_nth _ _ _ 0) in H.
  unfold len. cbn [length] in H.
  now replace (Z.of_nat (length before) + 1)
    with (0 + Z.of_nat (S (length before))) by lia.
Qed.

(** C1 (amended). For an exact substring [s = text[i:j]] of three
    characters or more, the vote counter of the window [(i + 1) // len(s)],
    the window of the padded offset of the first trigram of [s], is not
    zero.  So [find_best(s)] over the full text never returns the null
    result: it returns the interval [(a, b)], [a <= b], that refinement
    yields for a window [w] that received votes, with the edit distance
    between [text[a:b]] and [s].  That distance is no greater than the one
    refinement reaches from the most voted window [top], and it is 0 exactly
    when [text[a:b]] is [s]. *)
Theorem find_best_exact_substring (reference s : list ascii) (i j : Z) :
  0 <= i -> i <= j -> j <= len reference ->
  slice reference i j = s -> 3 <= len s ->
  let self := LevenshteinSearch_init reference in
  exists windows,
    vote_windows self s 0 (-1) = Returns windows
    /\ 1 <= votes windows ((i + 1) / len s)
    /\ exists top w a b,
         (forall w', votes windows w' <= votes windows top)
         /\ 1 <= votes windows w
         /\ refine self s 0 (len reference) w
            = (lev (slice reference a b) s, (a, b))
         /\ a <= b
         /\ lev (slice reference a b) s
            <= fst (refine self s 0 (len reference) top)
         /\ find_best self s 0 (-1) 0
            = Returns (Some (a, b), lev (slice reference a b) s)
         /\ (lev (slice reference a b) s = 0 <-> slice reference a b = s).
Proof.
  intros Hi Hij Hj Hs Hlen. cbv zeta.
  destruct (slice_inside reference i j Hi Hij Hj) as [Hsplit Hbefore].
  rewrite Hs in Hsplit.
  destruct s as [|c1 [|c2 [|c3 rest]]];
    try (rewrite ?len_cons, ?len_nil in Hlen; lia).
  set (s := c1 :: c2 :: c3 :: rest) in *.
  set (self := LevenshteinSearch_init reference).
  destruct (find_best_walk self s 0 (-1) 0)
    as (windows & ranked & refined & skipped & Hvotes & Hpos & Hsorted & Hperm
        & Hdesc & Hprefix & Hnonempty & _ & _ & Hrun).
  assert (Hvote : 1 <= votes windows ((i + 1) / len s)).
  { destruct (vote_windows_returns self s 0 (-1))
      as (windows' & Hvotes' & _ & Hcount).
    assert (windows' = windows) as -> by congruence.
    pose proof (trigram_occurrence (firstn (Z.to_nat i) reference)
                  (rest ++ skipn (Z.to_nat j) reference) c1 c2 c3) as Hocc.
    change (c1 :: c2 :: c3 :: rest ++ skipn (Z.to_nat j) reference)
      with (s ++ skipn (Z.to_nat j) reference) in Hocc.
    rewrite <- Hsplit, Hbefore in Hocc.
    destruct (index_bucket_found _ _ _ Hocc) as (bucket & Hbucket & Hin).
    apply (Hcount (c1, c2, c3) bucket); try assumption.
    - apply first_trigram_of_query.
    - cbn [Z.ltb Z.compare text self LevenshteinSearch_init].
      assert (Hs3 : len s = len rest + 3)
        by (subst s; rewrite !len_cons; lia).
      pose proof (len_nonneg rest).
      assert (len s <= j - i).
      { rewrite <- Hs. unfold slice, clip.
        assert (E1 : (i <? 0) = false) by lia.
        assert (E2 : (j <? 0) = false) by lia.
        rewrite E1, E2, !Z.min_l by lia.
        unfold len. rewrite length_firstn. lia. }
      lia. }
  exists windows. split; [assumption|]. split; [assumption|].
  assert (Hvoted : forall w, In w ranked -> 1 <= votes windows w).
  { intros w Hw. apply (Permutation_in _ Hperm) in Hw.
    apply (dict_get_keys _ Z.eqb_eq) in Hw. unfold votes.
    destruct (dict_get Z.eqb windows w) as [v|] eqn:E; [|congruence].
    exact (Hpos w v E). }
  assert (Hranked : ranked <> []).
  { assert (Hkey : In ((i + 1) / len s) (dict_keys windows)).
    { apply (dict_get_keys _ Z.eqb_eq). unfold votes in Hvote.
      destruct (dict_get Z.eqb windows _); [discriminate | lia]. }
    intros ->. apply Permutation_sym in Hperm.
    apply (Permutation_in _ Hperm) in Hkey. destruct Hkey. }
  specialize (Hnonempty Hranked).
  destruct ranked as [|top ranked']; [congruence|].
  destruct refined as [|w1 refined']; [congruence|].
  assert (w1 = top) as -> by (cbn in Hprefix; congruence).
  assert (Hrefined : forall w, In w (top :: refined') ->
                               In w (top :: ranked')).
  { intros w Hw. apply (in_firstn 10). rewrite Hprefix.
    apply in_or_app. now left. }
  assert (Htop : forall w', votes windows w' <= votes windows top).
  { intros w'. inversion Hdesc as [|? ? _ Hbelow]; subst.
    destruct (in_dec Z.eq_dec w' (top :: ranked')) as [[<- | Hw'] | Hout].
    - lia.
    - rewrite Forall_forall in Hbelow. now apply Hbelow.
    - assert (Hnone : votes windows w' = 0).
      { unfold votes.
        destruct (dict_get Z.eqb windows w') as [v|] eqn:E; [|reflexivity].
        exfalso. apply Hout. apply Permutation_sym in Hperm.
        apply (Permutation_in _ Hperm).
        apply (dict_get_keys _ Z.eqb_eq). congruence. }
      pose proof (Hvoted top ltac:(now left)). lia. }
  cbn [map] in Hrun.
  change (if -1 <? 0 then len (text self) else -1) with (len reference)
    in Hrun.
  destruct (pick_first_minimum
              (refine self s 0 (len reference) top)
              (map (refine self s 0 (len reference)) refined') (-1))
    as (k & r & Hk & Hbest & Hleast & _).
  specialize (Hleast (refine self s 0 (len reference) top) ltac:(now left)).
  apply nth_error_In in Hk.
  change (In r (map (refine self s 0 (len reference)) (top :: refined')))
    in Hk.
  apply in_map_iff in Hk as (w & <- & Hw).
  rewrite Hbest in Hrun.
  pose proof (snap_to_tokens_distance self s
                (fst (stretch_search self s
                        (interval_start 0 (len s) w)
                        (interval_stop (len reference) (len s) w))))
    as Hdistance.
  pose proof (snap_to_tokens_ordered self s
                (fst (stretch_search self s
                        (interval_start 0 (len s) w)
                        (interval_stop (len reference) (len s) w))))
    as Hordered.
  change (snap_to_tokens self s
            (fst (stretch_search self s (interval_start 0 (len s) w)
                    (interval_stop (len reference) (len s) w))))
    with (refine self s 0 (len reference) w) in Hdistance, Hordered.
  destruct (refine self s 0 (len reference) w) as [d [a b]] eqn:Hrefine.
  cbn [fst snd] in *. unfold get_interval_text in Hdistance.
  cbn [fst snd text self LevenshteinSearch_init] in Hdistance. subst d.
  exists top, w, a, b.
  split; [exact Htop|].
  split; [apply Hvoted, Hrefined, Hw|].
  split; [exact Hrefine|].
  split; [exact Hordered|].
  split; [exact Hleast|].
  split; [exact Hrun|].
  apply (levenshtein_zero _ Ascii.eqb_eq).
Qed.

Lemma find_best_exact_substring_witness :
  let reference := str "a hello world b" in
  let s := str "hello" in
  let self := LevenshteinSearch_init reference in
  (0 <= 2 /\ 2 <= 7 /\ 7 <= len reference
   /\ slice reference 2 7 = s /\ 3 <= len s)
  /\ exists windows,
       vote_windows self s 0 (-1) = Returns windows
       /\ 1 <= votes windows ((2 + 1) / len s)
       /\ exists top w a b,
            (forall w', votes windows w' <= votes windows top)
            /\ 1 <= votes windows w
            /\ refine self s 0 (len reference) w
               = (lev (slice reference a b) s, (a, b))
            /\ a <= b
            /\ lev (slice reference a b) s
               <= fst (refine self s 0 (len reference) top)
            /\ find_best self s 0 (-1) 0
               = Returns (Some (a, b), lev (slice reference a b) s)
            /\ (lev (slice reference a b) s = 0 <-> slice reference a b = s).
Proof.
  assert (H1 : 0 <= 2) by lia.
  assert (H2 : 2 <= 7) by lia.
  assert (H3 : 7 <= len (str "a hello world b")) by (vm_compute; discriminate).
  assert (H4 : slice (str "a hello world b") 2 7 = str "hello") by reflexivity.
  assert (H5 : 3 <= len (str "hello")) by (vm_compute; discriminate).
  split; [repeat split; assumption|].
  exact (find_best_exact_substring (str "a hello world b") (str "hello") 2 7
           H1 H2 H3 H4 H5).
Defined.

(** C1 (as stated) fails, and not only for a substring that is part of a
    token.  In ["aaa b aaaa"] the query ["aaaa"] is the token [text[6:10]]
    and occurs nowhere else; window 0 collects 4 votes and windows 1 and 2
    collect 3, below 80% of 4, so only window 0 is refined and [find_best]
    returns [(0, 3)] at distance 1, although refinement from window 1
    reaches [(6, 10)] at distance 0.  For the whole text ["aa aa"] as query
    the left sibling wins the tie of the last token, and [find_best]
    returns [(0, 2)] at distance 3.  ["abc"] is the substring [text[2:5]] of
    ["xyabc def"], yet [find_best] widens the match to the token [(0, 5)]
    at distance 2, and only window 1 received votes, not window
    [2 // 3 = 0] that contains position 2.  In ["xyabcd"] the same query
    even ends on the interval [(-2, -2)], which does not contain [2, 5). *)
Lemma find_best_exact_substring_missed :
  (slice (str "aaa b aaaa") 6 10 = str "aaaa"
   /\ get_token_interval (str "aaa b aaaa") 6 = (6, 10)
   /\ (forall k, 0 <= k <= 6 ->
                 slice (str "aaa b aaaa") k (k + 4) = str "aaaa" -> k = 6)
   /\ vote_windows (LevenshteinSearch_init (str "aaa b aaaa")) (str "aaaa")
        0 (-1)
      = Returns [(0, 4); (1, 3); (2, 3)]
   /\ refine (LevenshteinSearch_init (str "aaa b aaaa")) (str "aaaa") 0 10 1
      = (0, (6, 10))
   /\ find_best (LevenshteinSearch_init (str "aaa b aaaa")) (str "aaaa")
        0 (-1) 0
      = Returns (Some (0, 3), 1))
  /\ (slice (str "aa aa") 0 5 = str "aa aa"
      /\ find_best (LevenshteinSearch_init (str "aa aa")) (str "aa aa") 0 (-1) 0
         = Returns (Some (0, 2), 3))
  /\ slice (str "xyabc def") 2 5 = str "abc"
  /\ find_best (LevenshteinSearch_init (str "xyabc def")) (str "abc") 0 (-1) 0
     = Returns (Some (0, 5), 2)
  /\ vote_windows (LevenshteinSearch_init (str "xyabc def")) (str "abc") 0 (-1)
     = Returns [(1, 2)]
  /\ votes [(1, 2)] (2 / len (str "abc")) = 0
  /\ slice (str "xyabcd") 2 5 = str "abc"
  /\ find_best (LevenshteinSearch_init (str "xyabcd")) (str "abc") 0 (-1) 0
     = Returns (Some (-2, -2), 3).
Proof.
  split; [|vm_compute; repeat split; reflexivity].
  split; [reflexivity|]. split; [reflexivity|]. split.
  - intros k Hk Hslice.
    assert (Hcases : k = 0 \/ k = 1 \/ k = 2 \/ k = 3 \/ k = 4 \/ k = 5 \/ k = 6)
      by lia.
    destruct Hcases as [-> | [-> | [-> | [-> | [-> | [-> | ->]]]]]];
      solve [reflexivity | vm_compute in Hslice; discriminate Hslice].
  - split; [vm_compute; reflexivity|].
    split; vm_compute; reflexivity.
Qed.

(** * Further properties *)

(** ** The edit distance separates and is bounded by the lengths *)

Section LevenshteinBounds.

Context {A : Type} (eqb : A -> A -> bool).
Hypothesis eqb_spec : forall x y, eqb x y = true <-> x = y.

Lemma edits_length_gap (x y : list A) (n : Z) :
  edits x y n -> Z.abs (len x - len y) <= n.
Proof.
  induction 1; rewrite ?len_cons, ?len_nil in *; lia.
Qed.

Lemma edits_within_longer (x : list A) :
  forall y, exists n, edits x y n /\ n <= Z.max (len x) (len y).
Proof.
  induction x as [|u x IH]; intros y.
  - exists (len y). split; [apply edits_from_nil|].
    rewrite len_nil. pose proof (len_nonneg y). lia.
  - destruct y as [|v y].
    + exists (len (u :: x)). split; [apply edits_to_nil|].
      rewrite len_nil. pose proof (len_nonneg (u :: x)). lia.
    + destruct (IH y) as (n & Hn & Hle).
      exists (n + 1). split; [now constructor|].
      rewrite !len_cons. lia.
Qed.

(** X1. [levenshtein(a, b)] is 0 exactly when [a == b], is at least the
    difference of the two lengths and at most the greater length. *)
Theorem levenshtein_separates (a b : list A) :
  (levenshtein eqb a b = 0 <-> a = b)
  /\ Z.abs (len a - len b) <= levenshtein eqb a b
  /\ levenshtein eqb a b <= Z.max (len a) (len b).
Proof.
  split; [apply (levenshtein_zero eqb eqb_spec)|].
  rewrite (levenshtein_distance eqb eqb_spec).
  assert (Hrev : forall l : list A, len (rev l) = len l)
    by (intros l; unfold len; now rewrite length_rev).
  split.
  - rewrite <- (Hrev a), <- (Hrev b).
    apply edits_length_gap, (distance_edits eqb eqb_spec).
  - destruct (edits_within_longer (rev a) (rev b)) as (n & Hn & Hle).
    apply (distance_least eqb eqb_spec) in Hn.
    rewrite !Hrev in Hle. lia.
Qed.

End LevenshteinBounds.

Lemma levenshtein_separates_witness :
  (lev (str "kitten") (str "sitting") = 0 <-> str "kitten" = str "sitting")
  /\ Z.abs (len (str "kitten") - len (str "sitting"))
     <= lev (str "kitten") (str "sitting")
  /\ lev (str "kitten") (str "sitting")
     <= Z.max (len (str "kitten")) (len (str "sitting")).
Proof.
  exact (levenshtein_separates Ascii.eqb Ascii.eqb_eq
           (str "kitten") (str "sitting")).
Defined.

(** ** The bisecting minimizer: endpoints, monotone costs, number of calls *)

Section MinimizerMore.

Context {P : Type}.
Variable compute : Z -> Z * P.

Lemma greedy_minimum_search_endpoints (a b : Z) (calls : list Z) :
  let result := fst (greedy_minimum_search compute a b None None calls) in
  fst result <= fst (compute a) /\ fst result <= fst (compute b).
Proof.
  cbv zeta. unfold greedy_minimum_search.
  destruct (Z.le_gt_cases a b) as [Hab | Hab].
  - destruct (greedy_minimum_search_rec_spec compute (Z.abs_nat (b - a)) a b
                None None calls)
      as (new & p & Hrun & _ & _ & Ha & Hb & _); try lia; try (now left).
    rewrite Hrun. cbn [fst]. lia.
  - rewrite greedy_minimum_search_rec_swap by assumption.
    destruct (greedy_minimum_search_rec_spec compute (Z.abs_nat (b - a)) b a
                None None calls)
      as (new & p & Hrun & _ & _ & Hb & Ha & _); try lia; try (now left).
    rewrite Hrun. cbn [fst]. lia.
Qed.

(** X2. Called without supplied results, either copy of the minimizer
    returns a result no costlier than the cost at either bound; so when the
    cost is monotone over the range, in either direction, no position of the
    range is cheaper than the result. *)
Theorem minimizer_exact_on_monotone_cost (a b p : Z) :
  (forall x y, Z.min a b <= x -> x <= y -> y <= Z.max a b ->
               fst (compute x) <= fst (compute y))
  \/ (forall x y, Z.min a b <= x -> x <= y -> y <= Z.max a b ->
                  fst (compute y) <= fst (compute x)) ->
  Z.min a b <= p <= Z.max a b ->
  let greedy := fst (greedy_minimum_search compute a b None None []) in
  let nested := fst (interval_search compute a b None None []) in
  nested = greedy
  /\ fst greedy <= fst (compute a)
  /\ fst greedy <= fst (compute b)
  /\ fst greedy <= fst (compute p).
Proof.
  intros Hmono Hp. cbv zeta.
  split.
  { unfold interval_search, greedy_minimum_search.
    rewrite interval_search_rec_greedy by now right. reflexivity. }
  destruct (greedy_minimum_search_endpoints a b []) as [Ha Hb].
  split; [exact Ha|]. split; [exact Hb|].
  destruct Hmono as [Hup | Hdown].
  - assert (fst (compute (Z.min a b)) <= fst (compute p)) by (apply Hup; lia).
    destruct (Z.min_spec a b) as [[_ E] | [_ E]]; rewrite E in *; lia.
  - assert (fst (compute (Z.max a b)) <= fst (compute p)) by (apply Hdown; lia).
    destruct (Z.max_spec a b) as [[_ E] | [_ E]]; rewrite E in *; lia.
Qed.

Lemma log2_up_half (n m : Z) :
  2 <= n -> 1 <= m -> 2 * m <= n + 1 -> Z.log2_up m + 1 <= Z.log2_up n.
Proof.
  intros Hn Hm Hhalf.
  pose proof (Z.log2_up_nonneg n) as Hk0.
  assert (Hk1 : 1 <= Z.log2_up n).
  { change 1 with (Z.log2_up 2). apply Z.log2_up_le_mono. lia. }
  assert (Hpow : n <= 2 ^ Z.log2_up n).
  { apply Z.log2_up_le_pow2; lia. }
  assert (Hsplit : 2 ^ Z.log2_up n = 2 * 2 ^ (Z.log2_up n - 1)).
  { rewrite <- Z.pow_succ_r by lia. f_equal. lia. }
  assert (m <= 2 ^ (Z.log2_up n - 1)) by lia.
  assert (Z.log2_up m <= Z.log2_up n - 1) by (apply Z.log2_up_le_pow2; lia).
  lia.
Qed.

(** Each level of the recursion adds one call and halves the range. *)
Lemma greedy_minimum_search_rec_calls (fuel : nat) :
  forall (a b : Z) (result_a result_b : option (Z * P)) (calls : list Z),
    a <= b -> b - a <= Z.of_nat fuel ->
    len (snd (greedy_minimum_search_rec compute fuel a b result_a result_b calls))
    <= len calls + len (new_calls result_a a) + len (new_calls result_b b)
       + Z.log2_up (b - a).
Proof.
  induction fuel as [|fuel IH]; intros a b ra rb calls Hab Hfuel;
    rewrite greedy_minimum_search_rec_ordered by assumption.
  - destruct (a =? b) eqn:E.
    + assert (b = a) as -> by lia. rewrite Z.sub_diag.
      destruct ra, rb; cbn [or_else call snd new_calls];
        rewrite ?len_app, ?len_cons, ?len_nil; cbn; lia.
    + assert (E1 : (b =? a + 1) = true) by lia. rewrite E1.
      replace (b - a) with 1 by lia.
      destruct ra, rb; cbn [or_else call snd new_calls];
        rewrite ?len_app, ?len_cons, ?len_nil; cbn; lia.
  - destruct (a =? b) eqn:E.
    + assert (b = a) as -> by lia. rewrite Z.sub_diag.
      destruct ra, rb; cbn [or_else call snd new_calls];
        rewrite ?len_app, ?len_cons, ?len_nil; cbn; lia.
    + destruct (or_else ra (call compute a) calls) as [ra' calls1] eqn:Ea.
      destruct (or_else rb (call compute b) calls1) as [rb' calls2] eqn:Eb.
      assert (Hcalls2 : len calls2
                        = len calls + len (new_calls ra a) + len (new_calls rb b)).
      { destruct ra, rb; cbn [or_else call new_calls] in *;
          injection Ea as <- <-; injection Eb as <- <-;
          rewrite ?len_app, ?len_cons, ?len_nil; lia. }
      destruct (b =? a + 1) eqn:E1.
      * cbn [snd]. pose proof (Z.log2_up_nonneg (b - a)). lia.
      * pose proof (midpoint_inside a b ltac:(lia)) as Hc.
        assert (Hdiv : 2 * ((a + b) / 2) <= a + b < 2 * ((a + b) / 2) + 2).
        { pose proof (Z.div_mod (a + b) 2 ltac:(lia)).
          pose proof (Z.mod_pos_bound (a + b) 2 ltac:(lia)). lia. }
        destruct (fst ra' <? fst rb').
        -- specialize (IH a ((a + b) / 2) (Some ra') None calls2).
           cbn [new_calls] in IH. rewrite ?len_cons, ?len_nil in IH.
           pose proof (log2_up_half (b - a) ((a + b) / 2 - a)).
           lia.
        -- specialize (IH ((a + b) / 2) b None (Some rb') calls2).
           cbn [new_calls] in IH. rewrite ?len_cons, ?len_nil in IH.
           pose proof (log2_up_half (b - a) (b - (a + b) / 2)).
           lia.
Qed.

(** X3. Called without supplied results on the bounds [a] and [b], either
    copy of the minimizer calls [compute] at most [log2_up |b - a| + 2]
    times. *)
Theorem minimizer_logarithmic_calls (a b : Z) :
  len (snd (greedy_minimum_search compute a b None None []))
  <= Z.log2_up (Z.abs (b - a)) + 2
  /\ len (snd (interval_search compute a b None None []))
     <= Z.log2_up (Z.abs (b - a)) + 2.
Proof.
  assert (H : len (snd (greedy_minimum_search compute a b None None []))
              <= Z.log2_up (Z.abs (b - a)) + 2).
  { unfold greedy_minimum_search.
    destruct (Z.le_gt_cases a b) as [Hab | Hab].
    - pose proof (greedy_minimum_search_rec_calls (Z.abs_nat (b - a)) a b
                    None None [] Hab ltac:(lia)) as Hlen.
      cbn [new_calls] in Hlen. rewrite ?len_cons, ?len_nil in Hlen.
      rewrite Z.abs_eq by lia. lia.
    - rewrite greedy_minimum_search_rec_swap by assumption.
      pose proof (greedy_minimum_search_rec_calls (Z.abs_nat (b - a)) b a
                    None None [] ltac:(lia) ltac:(lia)) as Hlen.
      cbn [new_calls] in Hlen. rewrite ?len_cons, ?len_nil in Hlen.
      replace (Z.abs (b - a)) with (a - b) by lia. lia. }
  split; [exact H|].
  unfold interval_search. rewrite interval_search_rec_greedy by now right.
  exact H.
Qed.

End MinimizerMore.

Lemma minimizer_exact_on_monotone_cost_witness :
  let compute := fun p : Z => (2 * p, p) in
  ((forall x y, Z.min 0 10 <= x -> x <= y -> y <= Z.max 0 10 ->
                fst (compute x) <= fst (compute y))
   \/ (forall x y, Z.min 0 10 <= x -> x <= y -> y <= Z.max 0 10 ->
                   fst (compute y) <= fst (compute x)))
  /\ Z.min 0 10 <= 3 <= Z.max 0 10
  /\ fst (interval_search compute 0 10 None None [])
     = fst (greedy_minimum_search compute 0 10 None None [])
  /\ fst (fst (greedy_minimum_search compute 0 10 None None []))
     <= fst (compute 0)
  /\ fst (fst (greedy_minimum_search compute 0 10 None None []))
     <= fst (compute 10)
  /\ fst (fst (greedy_minimum_search compute 0 10 None None []))
     <= fst (compute 3).
Proof.
  assert (H1 : (forall x y, Z.min 0 10 <= x -> x <= y -> y <= Z.max 0 10 ->
                            fst (2 * x, x) <= fst (2 * y, y))
               \/ (forall x y, Z.min 0 10 <= x -> x <= y -> y <= Z.max 0 10 ->
                               fst (2 * y, y) <= fst (2 * x, x))).
  { left. intros x y _ Hxy _. cbn [fst]. lia. }
  assert (H2 : Z.min 0 10 <= 3 <= Z.max 0 10) by (cbn; lia).
  split; [exact H1|]. split; [exact H2|].
  exact (minimizer_exact_on_monotone_cost (fun p : Z => (2 * p, p)) 0 10 3 H1 H2).
Defined.

(** ** Token lookup finds the maximal run *)

Lemma token_scan_stops (fuel : nat) (text : list ascii) (step pos : Z)
  (se : Z * Z) :
  in_token text pos = false -> token_scan fuel text step pos se = se.
Proof. intros H. destruct fuel; cbn [token_scan]; now rewrite ?H. Qed.

(** The scan to the left walks to the first position of the run. *)
Lemma token_scan_left_run (text : list ascii) (fuel : nat) :
  forall (pos start end_ : Z),
    pos < Z.of_nat fuel -> in_token text pos = true ->
    exists s,
      0 <= s <= pos
      /\ (forall p, s <= p <= pos -> in_token text p = true)
      /\ in_token text (s - 1) = false
      /\ token_scan fuel text (-1) pos (start, end_)
         = (Z.min start s, Z.max end_ pos).
Proof.
  induction fuel as [|fuel IH]; intros pos start end_ Hfuel Hin;
    assert (Hpos : 0 <= pos)
      by (unfold in_token in Hin; apply andb_prop in Hin as [Hin _];
          apply andb_prop in Hin as [Hin _]; lia);
    [lia|].
  cbn [token_scan]. rewrite Hin.
  replace (if pos <? start then pos else start) with (Z.min start pos)
    by (destruct (pos <? start) eqn:E; lia).
  replace (if pos >? end_ then pos else end_) with (Z.max end_ pos)
    by (destruct (pos >? end_) eqn:E; lia).
  destruct (in_token text (pos + -1)) eqn:Hprev.
  - destruct (IH (pos + -1) (Z.min start pos) (Z.max end_ pos))
      as (s & Hs & Hall & Hstop & Hrun); [lia | assumption |].
    exists s. split; [lia|]. split.
    + intros p Hp. destruct (Z.eq_dec p pos) as [-> | Hne]; [assumption|].
      apply Hall. lia.
    + split; [assumption|]. rewrite Hrun. f_equal; lia.
  - exists pos. split; [lia|]. split.
    + intros p Hp. now replace p with pos by lia.
    + split; [exact Hprev|].
      rewrite token_scan_stops by assumption. f_equal; lia.
Qed.

(** The scan to the right walks to the last position of the run. *)
Lemma token_scan_right_run (text : list ascii) (fuel : nat) :
  forall (pos start end_ : Z),
    len text - pos <= Z.of_nat fuel -> in_token text pos = true ->
    exists e,
      pos < e <= len text
      /\ (forall p, pos <= p < e -> in_token text p = true)
      /\ in_token text e = false
      /\ token_scan fuel text 1 pos (start, end_)
         = (Z.min start pos, Z.max end_ (e - 1)).
Proof.
  induction fuel as [|fuel IH]; intros pos start end_ Hfuel Hin.
  { unfold in_token in Hin. apply andb_prop in Hin as [Hin _].
    apply andb_prop in Hin as [_ Hin]. lia. }
  assert (Hpos : pos < len text).
  { unfold in_token in Hin. apply andb_prop in Hin as [Hin _].
    apply andb_prop in Hin as [_ Hin]. lia. }
  cbn [token_scan]. rewrite Hin.
  replace (if pos <? start then pos else start) with (Z.min start pos)
    by (destruct (pos <? start) eqn:E; lia).
  replace (if pos >? end_ then pos else end_) with (Z.max end_ pos)
    by (destruct (pos >? end_) eqn:E; lia).
  destruct (in_token text (pos + 1)) eqn:Hnext.
  - destruct (IH (pos + 1) (Z.min start pos) (Z.max end_ pos))
      as (e & He & Hall & Hstop & Hrun); [lia | assumption |].
    exists e. split; [lia|]. split.
    + intros p Hp. destruct (Z.eq_dec p pos) as [-> | Hne]; [assumption|].
      apply Hall. lia.
    + split; [assumption|]. rewrite Hrun. f_equal; lia.
  - exists (pos + 1). split; [lia|]. split.
    + intros p Hp. now replace p with pos by lia.
    + split; [exact Hnext|].
      rewrite token_scan_stops by assumption. f_equal; lia.
Qed.

Lemma get_token_interval_run (text : list ascii) (at_ : Z) :
  in_token text at_ = true ->
  let '(start, end_) := get_token_interval text at_ in
  0 <= start /\ start <= at_ /\ at_ < end_ /\ end_ <= len text
  /\ (forall p, start <= p < end_ -> in_token text p = true)
  /\ in_token text (start - 1) = false
  /\ in_token text end_ = false.
Proof.
  intros Hin. unfold get_token_interval.
  assert (Hat : 0 <= at_ < len text).
  { unfold in_token in Hin. apply andb_prop in Hin as [Hin _].
    apply andb_prop in Hin as [H1 H2]. lia. }
  destruct (token_scan_left_run text (S (length text)) at_ (len text) 0)
    as (s & Hs & Hleft & Hstop_left & Hrun_left);
    [unfold len in *; lia | assumption |].
  rewrite Hrun_left.
  destruct (token_scan_right_run text (S (length text)) at_
              (Z.min (len text) s) (Z.max 0 at_))
    as (e & He & Hright & Hstop_right & Hrun_right);
    [unfold len in *; lia | assumption |].
  rewrite Hrun_right.
  replace (Z.min (Z.min (len text) s) at_) with s by lia.
  replace (Z.max (Z.max 0 at_) (e - 1)) with (e - 1) by lia.
  assert (E : (s <=? e - 1) = true) by lia. rewrite E.
  replace (e - 1 + 1) with e by lia.
  repeat (split; [lia|]).
  split; [|split; assumption].
  intros p Hp. destruct (Z.le_gt_cases p at_); [apply Hleft | apply Hright]; lia.
Qed.

(** X4. At a position [at] that holds a non-whitespace character,
    [get_token_interval] returns the maximal whitespace-free run around it:
    [start <= at < end] within the text, every position of [start, end) is
    non-whitespace, and neither [start - 1] nor [end] is a non-whitespace
    position of the text. *)
Theorem get_token_interval_maximal_run (text : list ascii) (at_ : Z) :
  in_token text at_ = true ->
  let '(start, end_) := get_token_interval text at_ in
  0 <= start /\ start <= at_ /\ at_ < end_ /\ end_ <= len text
  /\ (forall p, start <= p < end_ -> in_token text p = true)
  /\ in_token text (start - 1) = false
  /\ in_token text end_ = false.
Proof. exact (get_token_interval_run text at_). Qed.

Lemma get_token_interval_maximal_run_witness :
  in_token (str "the quick fox") 6 = true
  /\ let '(start, end_) := get_token_interval (str "the quick fox") 6 in
     0 <= start /\ start <= 6 /\ 6 < end_ /\ end_ <= len (str "the quick fox")
     /\ (forall p, start <= p < end_ -> in_token (str "the quick fox") p = true)
     /\ in_token (str "the quick fox") (start - 1) = false
     /\ in_token (str "the quick fox") end_ = false.
Proof.
  assert (H : in_token (str "the quick fox") 6 = true) by reflexivity.
  split; [exact H|].
  exact (get_token_interval_maximal_run (str "the quick fox") 6 H).
Defined.

(** X5. At a position outside a non-empty text, or one that holds
    whitespace, [get_token_interval] returns the empty interval
    [(at, at)]. *)
Theorem get_token_interval_no_token (text : list ascii) (at_ : Z) :
  text <> [] -> in_token text at_ = false ->
  get_token_interval text at_ = (at_, at_).
Proof.
  intros Htext Hin. unfold get_token_interval.
  rewrite !token_scan_stops by assumption.
  assert (E : (len text <=? 0) = false).
  { destruct text as [|c rest]; [congruence|]. rewrite len_cons.
    pose proof (len_nonneg rest). lia. }
  now rewrite E.
Qed.

Lemma get_token_interval_no_token_witness :
  str "the quick fox" <> []
  /\ in_token (str "the quick fox") 3 = false
  /\ get_token_interval (str "the quick fox") 3 = (3, 3).
Proof.
  assert (H1 : str "the quick fox" <> []) by discriminate.
  assert (H2 : in_token (str "the quick fox") 3 = false) by reflexivity.
  split; [exact H1|]. split; [exact H2|].
  exact (get_token_interval_no_token (str "the quick fox") 3 H1 H2).
Defined.

(** ** Text normalisation: what the loop keeps

    The loop of [TextCleaner.__init__] runs over the prepared text, and the
    offsets it records are offsets of that text.  The strings of this
    development hold code points below 256, on which [lower] keeps the
    length; the statements below speak of the prepared text and do not use
    that. *)

Lemma clean_loop_kept (alphabet : Alphabet) (normalize_space dashes_to_ws : bool)
  (prepared_text : list ascii) :
  forall (position : Z) (ws : bool) (cleaned : list ascii) (positions : list Z),
    clean_loop alphabet normalize_space dashes_to_ws prepared_text position ws
               cleaned positions
    = (cleaned
         ++ map fst (kept alphabet normalize_space dashes_to_ws prepared_text
                          position ws),
       positions
         ++ map snd (kept alphabet normalize_space dashes_to_ws prepared_text
                          position ws)).
Proof.
  induction prepared_text as [|c rest IH]; intros position ws cleaned positions.
  - cbn. now rewrite !app_nil_r.
  - cbn [clean_loop kept].
    set (c' := if dashes_to_ws && Ascii.eqb c "-"
                  && negb (has_label alphabet ["-"%char])
               then " "%char else c).
    destruct (normalize_space && isspace c').
    + destruct ws; [apply IH|].
      destruct (negb (has_label alphabet [" "%char])); [apply IH|].
      rewrite IH. cbn [map fst snd]. now rewrite <- !app_assoc.
    + destruct (negb (has_label alphabet [c'])); [apply IH|].
      rewrite IH. cbn [map fst snd]. now rewrite <- !app_assoc.
Qed.

Lemma TextCleaner_init_kept (original : list ascii) (alphabet : Alphabet)
  (to_lower normalize_space dashes_to_ws : bool) :
  let prepared := if to_lower then lower original else original in
  let out := kept alphabet normalize_space dashes_to_ws prepared 0 false in
  clean_text (TextCleaner_init original alphabet to_lower normalize_space
                dashes_to_ws) = map fst out
  /\ positions (TextCleaner_init original alphabet to_lower normalize_space
                  dashes_to_ws) = map snd out.
Proof.
  cbv zeta. unfold TextCleaner_init. rewrite clean_loop_kept. now cbn.
Qed.

(** The case analysis of one iteration of the loop. *)
Ltac step_kept alphabet c ws :=
  cbn [kept];
  set (c' := if _ && Ascii.eqb c "-" && negb (has_label alphabet ["-"%char])
             then " "%char else c) in *;
  destruct (_ && isspace c') eqn:Hspace;
  [ destruct ws;
    [ | destruct (has_label alphabet [" "%char]) eqn:Hlabel; cbn [negb] ]
  | destruct (has_label alphabet [c']) eqn:Hlabel; cbn [negb] ].

Lemma kept_positions (alphabet : Alphabet) (normalize_space dashes_to_ws : bool)
  (prepared_text : list ascii) :
  forall (position : Z) (ws : bool),
    let out := kept alphabet normalize_space dashes_to_ws prepared_text
                    position ws in
    StronglySorted Z.lt (map snd out)
    /\ Forall (fun p => position <= p < position + len prepared_text)
              (map snd out).
Proof.
  induction prepared_text as [|c rest IH]; intros position ws; cbv zeta.
  - split; constructor.
  - assert (Hrest : forall ws',
               StronglySorted Z.lt
                 (map snd (kept alphabet normalize_space dashes_to_ws rest
                                (position + 1) ws'))
               /\ Forall (fun p => position < p < position + len (c :: rest))
                    (map snd (kept alphabet normalize_space dashes_to_ws rest
                                   (position + 1) ws'))).
    { intros ws'. destruct (IH (position + 1) ws') as [Hs Hr].
      split; [assumption|]. eapply Forall_impl; [|exact Hr].
      intros p Hp. cbv beta in Hp. rewrite len_cons. lia. }
    assert (Hskip : forall ws',
               StronglySorted Z.lt
                 (map snd (kept alphabet normalize_space dashes_to_ws rest
                                (position + 1) ws'))
               /\ Forall (fun p => position <= p < position + len (c :: rest))
                    (map snd (kept alphabet normalize_space dashes_to_ws rest
                                   (position + 1) ws'))).
    { intros ws'. destruct (Hrest ws') as [Hs Hr].
      split; [assumption|]. eapply Forall_impl; [|exact Hr].
      intros p Hp. cbv beta in Hp. lia. }
    assert (Hkeep : forall ws',
               StronglySorted Z.lt
                 (position
                  :: map snd (kept alphabet normalize_space dashes_to_ws rest
                                   (position + 1) ws'))
               /\ Forall (fun p => position <= p < position + len (c :: rest))
                    (position
                     :: map snd (kept alphabet normalize_space dashes_to_ws rest
                                      (position + 1) ws'))).
    { intros ws'. destruct (Hrest ws') as [Hs Hr]. split.
      - constructor; [assumption|]. eapply Forall_impl; [|exact Hr].
        intros p Hp. cbv beta in Hp. lia.
      - constructor.
        + rewrite len_cons. pose proof (len_nonneg rest). lia.
        + eapply Forall_impl; [|exact Hr]. intros p Hp. cbv beta in Hp. lia. }
    step_kept alphabet c ws; cbn [map snd]; auto.
Qed.

Lemma kept_permitted (alphabet : Alphabet) (normalize_space dashes_to_ws : bool)
  (prepared_text : list ascii) :
  forall (position : Z) (ws : bool),
    Forall (fun c => has_label alphabet [c] = true)
           (map fst (kept alphabet normalize_space dashes_to_ws prepared_text
                          position ws)).
Proof.
  induction prepared_text as [|c rest IH]; intros position ws; [constructor|].
  step_kept alphabet c ws; cbn [map fst]; auto.
Qed.

(** X6. The offset table of a [TextCleaner] has one entry per character of
    the normalized text; its entries are strictly increasing offsets into
    the prepared text, the text the loop runs over: [original_text.lower()]
    under [to_lower], else [original_text].  Nothing here rests on the
    length of the lowered text. *)
Theorem cleaner_offset_table (original : list ascii) (alphabet : Alphabet)
  (to_lower normalize_space dashes_to_ws : bool) :
  let prepared := if to_lower then lower original else original in
  let cleaner :=
    TextCleaner_init original alphabet to_lower normalize_space dashes_to_ws in
  len (positions cleaner) = len (clean_text cleaner)
  /\ StronglySorted Z.lt (positions cleaner)
  /\ Forall (fun p => 0 <= p < len prepared) (positions cleaner)
  /\ len (clean_text cleaner) <= len prepared.
Proof.
  cbv zeta.
  destruct (TextCleaner_init_kept original alphabet to_lower normalize_space
              dashes_to_ws) as [-> ->].
  set (prepared := if to_lower then lower original else original).
  destruct (kept_positions alphabet normalize_space dashes_to_ws prepared 0 false)
    as [Hsorted Hrange].
  cbn [Z.add] in Hrange.
  split; [unfold len; now rewrite !length_map|].
  split; [assumption|]. split; [assumption|].
  assert (Hcount : forall l : list Z, forall lo hi,
             StronglySorted Z.lt l -> Forall (fun p => lo <= p < hi) l ->
             lo <= hi -> len l <= hi - lo).
  { induction l as [|p l IHl]; intros lo hi Hs Hr Hle.
    - rewrite len_nil. lia.
    - inversion Hs as [|? ? Hs' Hp]; inversion Hr as [|? ? Hp0 Hr']; subst.
      rewrite len_cons.
      assert (len l <= hi - (p + 1)); [|lia].
      apply IHl; [assumption | | lia].
      rewrite Forall_forall in Hp, Hr' |- *.
      intros q Hq. specialize (Hp q Hq). specialize (Hr' q Hq). lia. }
  pose proof (Hcount _ 0 (len prepared) Hsorted Hrange (len_nonneg prepared)).
  unfold len in *. rewrite length_map in *. lia.
Qed.

Lemma kept_provenance (alphabet : Alphabet) (normalize_space dashes_to_ws : bool)
  (prepared_text : list ascii) :
  forall (position : Z) (ws : bool),
    Forall (fun cp =>
              position <= snd cp
              /\ exists orig,
                   nth_error prepared_text (Z.to_nat (snd cp - position))
                   = Some orig
                   /\ (fst cp = orig
                       \/ (fst cp = " "%char
                           /\ (orig = "-"%char \/ isspace orig = true))))
           (kept alphabet normalize_space dashes_to_ws prepared_text
                 position ws).
Proof.
  induction prepared_text as [|c rest IH]; intros position ws; [constructor|].
  assert (Hrest : forall ws',
             Forall (fun cp =>
                       position <= snd cp
                       /\ exists orig,
                            nth_error (c :: rest) (Z.to_nat (snd cp - position))
                            = Some orig
                            /\ (fst cp = orig
                                \/ (fst cp = " "%char
                                    /\ (orig = "-"%char
                                        \/ isspace orig = true))))
                    (kept alphabet normalize_space dashes_to_ws rest
                          (position + 1) ws')).
  { intros ws'. eapply Forall_impl; [|apply (IH (position + 1) ws')].
    intros [c0 p] (Hp & orig & Horig & Hc). cbn [fst snd] in *.
    split; [lia|]. exists orig. split; [|assumption].
    replace (Z.to_nat (p - position)) with (S (Z.to_nat (p - (position + 1))))
      by lia.
    exact Horig. }
  assert (Hhead : forall c0 : ascii,
             c0 = c \/ (c0 = " "%char /\ (c = "-"%char \/ isspace c = true)) ->
             position <= snd (c0, position)
             /\ exists orig,
                  nth_error (c :: rest)
                            (Z.to_nat (snd (c0, position) - position))
                  = Some orig
                  /\ (fst (c0, position) = orig
                      \/ (fst (c0, position) = " "%char
                          /\ (orig = "-"%char \/ isspace orig = true)))).
  { intros c0 Hc0. cbn [fst snd]. split; [lia|]. exists c.
    rewrite Z.sub_diag. split; [reflexivity | exact Hc0]. }
  cbn [kept].
  set (dash := dashes_to_ws && Ascii.eqb c "-"
               && negb (has_label alphabet ["-"%char])).
  assert (Hdash : dash = true -> c = "-"%char).
  { subst dash. intros H. apply andb_prop in H as [H _].
    apply andb_prop in H as [_ H]. now apply Ascii.eqb_eq in H. }
  destruct dash.
  - specialize (Hdash eq_refl).
    destruct (normalize_space && isspace " ").
    + destruct ws; [apply Hrest|].
      destruct (negb (has_label alphabet [" "%char])); [apply Hrest|].
      constructor; [apply Hhead; right; auto | apply Hrest].
    + destruct (negb (has_label alphabet [" "%char])); [apply Hrest|].
      constructor; [apply Hhead; right; auto | apply Hrest].
  - destruct (normalize_space && isspace c) eqn:Hspace.
    + apply andb_prop in Hspace as [_ Hspace].
      destruct ws; [apply Hrest|].
      destruct (negb (has_label alphabet [" "%char])); [apply Hrest|].
      constructor; [apply Hhead; right; auto | apply Hrest].
    + destruct (negb (has_label alphabet [c])); [apply Hrest|].
      constructor; [apply Hhead; left; reflexivity | apply Hrest].
Qed.

(** X7. Every character of the normalized text is permitted by the
    alphabet, and it is the character of the prepared text at its recorded
    offset, or a space that stands for a dash or a whitespace character
    there. *)
Theorem cleaner_characters (original : list ascii) (alphabet : Alphabet)
  (to_lower normalize_space dashes_to_ws : bool) :
  let cleaner :=
    TextCleaner_init original alphabet to_lower normalize_space dashes_to_ws in
  let prepared := if to_lower then lower original else original in
  Forall2 (fun c p =>
             has_label alphabet [c] = true
             /\ exists orig,
                  index prepared p = Returns orig
                  /\ (c = orig
                      \/ (c = " "%char
                          /\ (orig = "-"%char \/ isspace orig = true))))
          (clean_text cleaner) (positions cleaner).
Proof.
  cbv zeta.
  destruct (TextCleaner_init_kept original alphabet to_lower normalize_space
              dashes_to_ws) as [-> ->].
  set (prepared := if to_lower then lower original else original).
  pose proof (kept_permitted alphabet normalize_space dashes_to_ws prepared
                0 false) as Hperm.
  pose proof (kept_provenance alphabet normalize_space dashes_to_ws prepared
                0 false) as Hprov.
  induction (kept alphabet normalize_space dashes_to_ws prepared 0 false)
    as [|[c p] out IH]; cbn [map fst snd]; constructor.
  - inversion Hperm as [|? ? Hc _]; inversion Hprov as [|? ? Hp _]; subst.
    cbn [fst snd] in *. split; [assumption|].
    destruct Hp as (Hpos & orig & Horig & Hcases).
    exists orig. split; [|assumption].
    unfold index. assert (E : (p <? 0) = false) by lia. rewrite E, E.
    rewrite Z.sub_0_r in Horig. now rewrite Horig.
  - apply IH; [now inversion Hperm | now inversion Hprov].
Qed.

Lemma collapsed_cons (c : ascii) (l : list ascii) :
  collapsed (c :: l)
  <-> (isspace c = false \/ starts_in_token l) /\ collapsed l.
Proof.
  destruct l as [|c2 l]; cbn [collapsed starts_in_token]; tauto.
Qed.

Lemma kept_collapsed (alphabet : Alphabet) (dashes_to_ws : bool)
  (prepared_text : list ascii) :
  forall (position : Z) (ws : bool),
    let l := map fst (kept alphabet true dashes_to_ws prepared_text
                           position ws) in
    collapsed l
    /\ (ws = true -> starts_in_token l)
    /\ Forall (fun c => isspace c = true -> c = " "%char) l.
Proof.
  induction prepared_text as [|c rest IH]; intros position ws; cbv zeta.
  - repeat split; constructor.
  - cbn [kept andb].
    set (c' := if dashes_to_ws && Ascii.eqb c "-"
                  && negb (has_label alphabet ["-"%char])
               then " "%char else c).
    destruct (isspace c') eqn:Hspace.
    + destruct ws; [apply IH|].
      destruct (has_label alphabet [" "%char]); cbn [negb].
      * destruct (IH (position + 1) true) as (Hc & Hs & Hf).
        cbn [map fst isspace]. change (negb (isspace " ")) with false.
        cbv iota. split; [|split].
        -- apply collapsed_cons. split; [right; now apply Hs | assumption].
        -- discriminate.
        -- constructor; [reflexivity | assumption].
      * destruct (IH (position + 1) true) as (Hc & Hs & Hf).
        split; [assumption|]. split; [discriminate | assumption].
    + destruct (has_label alphabet [c']); cbn [negb].
      * cbn [negb map fst].
        destruct (IH (position + 1) false) as (Hc & Hs & Hf).
        split; [|split].
        -- apply collapsed_cons. split; [now left | assumption].
        -- intros _. exact Hspace.
        -- constructor; [intros H; congruence | assumption].
      * apply IH.
Qed.

(** X8. With [normalize_space], every whitespace character of the
    normalized text is a plain space and no two neighbours are both
    whitespace. *)
Theorem cleaner_collapses_whitespace (original : list ascii)
  (alphabet : Alphabet) (to_lower dashes_to_ws : bool) :
  let cleaner := TextCleaner_init original alphabet to_lower true dashes_to_ws in
  collapsed (clean_text cleaner)
  /\ Forall (fun c => isspace c = true -> c = " "%char) (clean_text cleaner).
Proof.
  cbv zeta.
  destruct (TextCleaner_init_kept original alphabet to_lower true dashes_to_ws)
    as [-> _].
  destruct (kept_collapsed alphabet dashes_to_ws
              (if to_lower then lower original else original) 0 false)
    as (Hc & _ & Hf).
  split; assumption.
Qed.

Lemma range_from_S (i : Z) (n : nat) :
  range_from i (S n) = i :: range_from (i + 1) n.
Proof.
  unfold range_from. cbn [seq map]. f_equal; [lia|].
  rewrite <- seq_shift, map_map. apply map_ext. intros k. lia.
Qed.

Lemma range_from_length (i : Z) (n : nat) : length (range_from i n) = n.
Proof. unfold range_from. now rewrite length_map, length_seq. Qed.

(** A text of permitted characters, with single spaces for whitespace when
    [normalize_space] is set, passes the loop unchanged. *)
Lemma kept_unchanged (alphabet : Alphabet) (normalize_space dashes_to_ws : bool)
  (l : list ascii) :
  forall (position : Z) (ws : bool),
    Forall (fun c => has_label alphabet [c] = true) l ->
    (normalize_space = true ->
     collapsed l /\ (ws = true -> starts_in_token l)
     /\ Forall (fun c => isspace c = true -> c = " "%char) l) ->
    kept alphabet normalize_space dashes_to_ws l position ws
    = combine l (range_from position (length l)).
Proof.
  induction l as [|c rest IH]; intros position ws Hperm Hnorm; [reflexivity|].
  inversion Hperm as [|? ? Hc Hperm']; subst.
  cbn [length]. rewrite range_from_S. cbn [combine kept].
  assert (Hdash : dashes_to_ws && Ascii.eqb c "-"
                  && negb (has_label alphabet ["-"%char]) = false).
  { destruct (Ascii.eqb c "-") eqn:E.
    - apply Ascii.eqb_eq in E. subst c. rewrite Hc.
      now rewrite andb_false_r.
    - now rewrite andb_false_r. }
  rewrite Hdash.
  destruct (normalize_space && isspace c) eqn:Hspace.
  - apply andb_prop in Hspace as [-> Hspace].
    destruct (Hnorm eq_refl) as (Hcol & Hstart & Hplain).
    apply collapsed_cons in Hcol as [Hnext Hcol].
    inversion Hplain as [|? ? Hc0 Hplain']; subst.
    specialize (Hc0 Hspace). subst c.
    destruct ws; [specialize (Hstart eq_refl); cbn in Hstart; congruence|].
    rewrite Hc. cbn [negb]. change (negb (isspace " ")) with false. cbv iota.
    f_equal. apply IH; [assumption|].
    intros _. split; [assumption|]. split; [|assumption].
    intros _. destruct Hnext as [Hnext | Hnext]; [discriminate | assumption].
  - rewrite Hc. cbn [negb]. f_equal.
    destruct normalize_space.
    + cbn [andb] in Hspace. rewrite Hspace. cbn [negb].
      destruct (Hnorm eq_refl) as (Hcol & _ & Hplain).
      apply collapsed_cons in Hcol as [_ Hcol].
      inversion Hplain; subst.
      apply IH; [assumption|].
      intros _. split; [assumption|]. split; [discriminate | assumption].
    + apply IH; [assumption | discriminate].
Qed.

Lemma combine_fst {X Y} (l : list X) (r : list Y) :
  length l = length r -> map fst (combine l r) = l.
Proof.
  revert r. induction l as [|x l IH]; intros [|y r] H; try discriminate.
  - reflexivity.
  - cbn. f_equal. apply IH. now injection H.
Qed.

Lemma combine_snd {X Y} (l : list X) (r : list Y) :
  length l = length r -> map snd (combine l r) = r.
Proof.
  revert r. induction l as [|x l IH]; intros [|y r] H; try discriminate.
  - reflexivity.
  - cbn. f_equal. apply IH. now injection H.
Qed.

(** X9. A prepared text that is already normal, all characters permitted
    and, under [normalize_space], whitespace only as single spaces, is
    its own normalized text, with the identity on the offsets of the
    prepared text as offset table. *)
Theorem cleaner_keeps_normal_text (original : list ascii) (alphabet : Alphabet)
  (to_lower normalize_space dashes_to_ws : bool) :
  let prepared := if to_lower then lower original else original in
  Forall (fun c => has_label alphabet [c] = true) prepared ->
  (normalize_space = true ->
   collapsed prepared
   /\ Forall (fun c => isspace c = true -> c = " "%char) prepared) ->
  let cleaner :=
    TextCleaner_init original alphabet to_lower normalize_space dashes_to_ws in
  clean_text cleaner = prepared
  /\ positions cleaner = range_from 0 (length prepared).
Proof.
  cbv zeta. intros Hperm Hnorm.
  destruct (TextCleaner_init_kept original alphabet to_lower normalize_space
              dashes_to_ws) as [-> ->].
  set (prepared := if to_lower then lower original else original) in *.
  rewrite kept_unchanged; [|assumption|].
  - now rewrite combine_fst, combine_snd by now rewrite range_from_length.
  - intros Hns. destruct (Hnorm Hns) as [Hcol Hplain].
    split; [assumption|]. split; [discriminate | assumption].
Qed.

Lemma cleaner_keeps_normal_text_witness :
  let original := str "Hello World" in
  let prepared := lower original in
  Forall (fun c => has_label lowercase_and_space [c] = true) prepared
  /\ (true = true ->
      collapsed prepared
      /\ Forall (fun c => isspace c = true -> c = " "%char) prepared)
  /\ clean_text (TextCleaner_init original lowercase_and_space true true true)
     = prepared
  /\ positions (TextCleaner_init original lowercase_and_space true true true)
     = range_from 0 (length prepared).
Proof.
  assert (H1 : Forall (fun c => has_label lowercase_and_space [c] = true)
                      (lower (str "Hello World")))
    by (repeat constructor).
  assert (H2 : true = true ->
               collapsed (lower (str "Hello World"))
               /\ Forall (fun c => isspace c = true -> c = " "%char)
                         (lower (str "Hello World"))).
  { intros _. split.
    - cbn. repeat split; auto.
    - repeat constructor; intros H; solve [reflexivity | discriminate H]. }
  split; [exact H1|]. split; [exact H2|].
  exact (cleaner_keeps_normal_text (str "Hello World") lowercase_and_space
           true true true H1 H2).
Defined.

Lemma lower_char_idempotent (c : ascii) :
  lower_char (lower_char c) = lower_char c.
Proof. destruct c as [[] [] [] [] [] [] [] []]; reflexivity. Qed.

Lemma clean_text_permitted (original : list ascii) (alphabet : Alphabet)
  (to_lower normalize_space dashes_to_ws : bool) :
  Forall (fun c => has_label alphabet [c] = true)
         (clean_text (TextCleaner_init original alphabet to_lower
                        normalize_space dashes_to_ws)).
Proof.
  destruct (TextCleaner_init_kept original alphabet to_lower normalize_space
              dashes_to_ws) as [-> _].
  apply kept_permitted.
Qed.

Lemma clean_text_lowered (original : list ascii) (alphabet : Alphabet)
  (normalize_space dashes_to_ws : bool) :
  Forall (fun c => lower_char c = c)
         (clean_text (TextCleaner_init original alphabet true
                        normalize_space dashes_to_ws)).
Proof.
  destruct (TextCleaner_init_kept original alphabet true normalize_space
              dashes_to_ws) as [-> _].
  apply Forall_map.
  eapply Forall_impl;
    [|apply (kept_provenance alphabet normalize_space dashes_to_ws
               (lower original) 0 false)].
  intros [c p] (_ & orig & Horig & [Hc | [Hc _]]); cbn [fst snd] in *.
  - subst c. apply nth_error_In in Horig. unfold lower in Horig.
    apply in_map_iff in Horig as (x & <- & _). apply lower_char_idempotent.
  - now subst c.
Qed.

(** X10. Normalizing a normalized text again, with the same alphabet and
    flags, returns it unchanged, with the identity as offset table. *)
Theorem cleaner_idempotent (original : list ascii) (alphabet : Alphabet)
  (to_lower normalize_space dashes_to_ws : bool) :
  let once :=
    TextCleaner_init original alphabet to_lower normalize_space dashes_to_ws in
  let twice :=
    TextCleaner_init (clean_text once) alphabet to_lower normalize_space
      dashes_to_ws in
  clean_text twice = clean_text once
  /\ positions twice = range_from 0 (length (clean_text once)).
Proof.
  cbv zeta.
  set (once := TextCleaner_init original alphabet to_lower normalize_space
                 dashes_to_ws).
  pose proof (clean_text_permitted original alphabet to_lower normalize_space
                dashes_to_ws) as Hperm.
  fold once in Hperm.
  assert (Hprepared : (if to_lower then lower (clean_text once)
                       else clean_text once) = clean_text once).
  { destruct to_lower; [|reflexivity].
    unfold lower. rewrite <- (map_id (clean_text once)) at 2.
    apply map_ext_in. intros c Hc.
    pose proof (clean_text_lowered original alphabet normalize_space
                  dashes_to_ws) as Hall.
    rewrite Forall_forall in Hall. now apply Hall. }
  destruct (TextCleaner_init_kept (clean_text once) alphabet to_lower
              normalize_space dashes_to_ws) as [-> ->].
  rewrite Hprepared.
  rewrite kept_unchanged; [|assumption|].
  - now rewrite combine_fst, combine_snd by now rewrite range_from_length.
  - intros ->. split; [|split; [discriminate|]].
    + subst once.
      destruct (TextCleaner_init_kept original alphabet to_lower true
                  dashes_to_ws) as [-> _].
      apply kept_collapsed.
    + subst once.
      destruct (TextCleaner_init_kept original alphabet to_lower true
                  dashes_to_ws) as [-> _].
      apply kept_collapsed.
Qed.

Lemma strictly_sorted_nth (l : list Z) :
  StronglySorted Z.lt l ->
  forall i j : nat, (i < j < length l)%nat -> nth i l 0 < nth j l 0.
Proof.
  induction 1 as [|x l Hl IH Hx]; intros i j Hij; [cbn in Hij; lia|].
  destruct j as [|j]; [lia|]. cbn [length] in Hij.
  destruct i as [|i]; cbn [nth].
  - rewrite Forall_forall in Hx. apply Hx, nth_In. lia.
  - apply IH. lia.
Qed.

(** X11. On a [TextCleaner], [get_original_offset] maps the offsets
    [0..len(clean_text)] of the normalized text to strictly increasing
    offsets of the prepared text ([original_text.lower()] under [to_lower],
    else [original_text]): for [0 <= k < len(clean_text)] it returns at [k]
    an offset [p] and at [k + 1] an offset [q] with
    [0 <= p < q <= len(prepared_text)], printing nothing. *)
Theorem cleaner_offsets_increase (original : list ascii) (alphabet : Alphabet)
  (to_lower normalize_space dashes_to_ws : bool) (k : Z) :
  let prepared := if to_lower then lower original else original in
  let cleaner :=
    TextCleaner_init original alphabet to_lower normalize_space dashes_to_ws in
  0 <= k < len (clean_text cleaner) ->
  exists p q,
    get_original_offset cleaner k = ([], Returns (Some p))
    /\ get_original_offset cleaner (k + 1) = ([], Returns (Some q))
    /\ 0 <= p /\ p < q /\ q <= len prepared.
Proof.
  cbv zeta. intros Hk.
  set (prepared := if to_lower then lower original else original).
  set (cleaner := TextCleaner_init original alphabet to_lower normalize_space
                    dashes_to_ws) in *.
  assert (Hlen : len (positions cleaner) = len (clean_text cleaner)
                 /\ StronglySorted Z.lt (positions cleaner)
                 /\ Forall (fun p => 0 <= p < len prepared) (positions cleaner)).
  { subst cleaner.
    destruct (TextCleaner_init_kept original alphabet to_lower normalize_space
                dashes_to_ws) as [-> ->].
    fold prepared.
    destruct (kept_positions alphabet normalize_space dashes_to_ws prepared
                0 false) as [Hsorted Hrange].
    cbn [Z.add] in Hrange.
    split; [unfold len; now rewrite !length_map|]. split; assumption. }
  destruct Hlen as (Hlen & Hsorted & Hrange).
  rewrite <- Hlen in Hk.
  set (table := positions cleaner) in *.
  assert (Hin : forall i : nat, (i < length table)%nat ->
                                0 <= nth i table 0 < len prepared).
  { intros i Hi. rewrite Forall_forall in Hrange. apply Hrange, nth_In, Hi. }
  exists (nth (Z.to_nat k) table 0).
  unfold get_original_offset. fold table.
  assert (E : (k =? len table) = false) by lia. rewrite E.
  rewrite index_in_range by assumption.
  destruct (Z.eq_dec (k + 1) (len table)) as [Hlast | Hmore].
  - exists (nth (Z.to_nat k) table 0 + 1).
    rewrite Hlast, Z.eqb_refl, index_last by lia. cbn [bind].
    replace (len table - 1) with k by lia.
    specialize (Hin (Z.to_nat k) ltac:(unfold len in *; lia)).
    repeat split; try reflexivity; lia.
  - exists (nth (Z.to_nat (k + 1)) table 0).
    assert (E1 : (k + 1 =? len table) = false) by lia. rewrite E1.
    rewrite index_in_range by lia.
    pose proof (Hin (Z.to_nat k) ltac:(unfold len in *; lia)).
    pose proof (Hin (Z.to_nat (k + 1)) ltac:(unfold len in *; lia)).
    pose proof (strictly_sorted_nth table Hsorted (Z.to_nat k)
                  (Z.to_nat (k + 1)) ltac:(unfold len in *; lia)).
    repeat split; try reflexivity; lia.
Qed.

Lemma cleaner_offsets_increase_witness :
  let prepared := lower (str "Hello---World!!") in
  let cleaner :=
    TextCleaner_init (str "Hello---World!!") lowercase_and_space true true true in
  0 <= 5 < len (clean_text cleaner)
  /\ exists p q,
       get_original_offset cleaner 5 = ([], Returns (Some p))
       /\ get_original_offset cleaner (5 + 1) = ([], Returns (Some q))
       /\ 0 <= p /\ p < q /\ q <= len prepared.
Proof.
  assert (H : 0 <= 5 < len (clean_text
                              (TextCleaner_init (str "Hello---World!!")
                                 lowercase_and_space true true true)))
    by (vm_compute; split; [discriminate | reflexivity]).
  split; [exact H|].
  exact (cleaner_offsets_increase (str "Hello---World!!") lowercase_and_space
           true true true 5 H).
Defined.

(** ** The trigram index lists every occurrence once, in order *)

Lemma occurrences_spec (g : ngram) (grams : list ngram) :
  forall (i k : Z),
    In k (occurrences g grams i)
    <-> i <= k /\ nth_error grams (Z.to_nat (k - i)) = Some g.
Proof.
  induction grams as [|h grams IH]; intros i k.
  - cbn. split; [tauto|]. intros [_ H]. now destruct (Z.to_nat (k - i)).
  - cbn [occurrences].
    assert (Hnext : In k (occurrences g grams (i + 1))
                    <-> i < k /\ nth_error (h :: grams) (Z.to_nat (k - i))
                                 = Some g).
    { rewrite IH. split; intros [Hk Hn]; (split; [lia|]).
      - replace (Z.to_nat (k - i)) with (S (Z.to_nat (k - (i + 1)))) by lia.
        exact Hn.
      - replace (Z.to_nat (k - i)) with (S (Z.to_nat (k - (i + 1)))) in Hn
          by lia.
        exact Hn. }
    destruct (ngram_eqb h g) eqn:E.
    + apply ngram_eqb_spec in E. subst h. cbn [In]. rewrite Hnext. split.
      * intros [<- | [Hk Hn]]; [|split; [lia | assumption]].
        split; [lia|]. now rewrite Z.sub_diag.
      * intros [Hk Hn]. destruct (Z.eq_dec i k) as [-> | Hne]; [now left|].
        right. split; [lia | assumption].
    + rewrite Hnext. split; intros [Hk Hn]; (split; [|assumption]); [lia|].
      destruct (Z.eq_dec i k) as [-> | Hne]; [|lia].
      rewrite Z.sub_diag in Hn. cbn in Hn. injection Hn as ->.
      assert (ngram_eqb g g = true) by now apply ngram_eqb_spec.
      congruence.
Qed.

Lemma occurrences_sorted (g : ngram) (grams : list ngram) :
  forall i : Z,
    StronglySorted Z.lt (occurrences g grams i)
    /\ Forall (fun k => i <= k) (occurrences g grams i).
Proof.
  induction grams as [|h grams IH]; intros i; [split; constructor|].
  cbn [occurrences]. destruct (IH (i + 1)) as [Hs Hf].
  assert (Hf' : Forall (fun k => i < k) (occurrences g grams (i + 1))).
  { eapply Forall_impl; [|exact Hf]. intros k Hk. cbv beta in Hk. lia. }
  destruct (ngram_eqb h g).
  - split; constructor; try assumption; try lia.
    eapply Forall_impl; [|exact Hf']. intros k Hk. cbv beta in Hk. lia.
  - split; [assumption|].
    eapply Forall_impl; [|exact Hf']. intros k Hk. cbv beta in Hk. lia.
Qed.

(** X12. In the index [LevenshteinSearch.__init__] builds, a trigram is a key
    exactly when it occurs in the padded text, and its bucket lists exactly
    the offsets at which it stands there, each once, in increasing
    order. *)
Theorem index_buckets (reference : list ascii) (g : ngram) :
  let index := ngrams (LevenshteinSearch_init reference) in
  let grams := ngrams3 (padded reference) in
  (dict_get ngram_eqb index g = None <-> ~ In g grams)
  /\ (forall k, In k (bucket_of index g)
                <-> 0 <= k /\ nth_error grams (Z.to_nat k) = Some g)
  /\ StronglySorted Z.lt (bucket_of index g).
Proof.
  cbv zeta. cbn [ngrams LevenshteinSearch_init].
  set (grams := ngrams3 (padded reference)).
  assert (Hget : dict_get ngram_eqb (index_ngrams grams 0 []) g
                 = match occurrences g grams 0 with
                   | [] => None
                   | found => Some found
                   end).
  { rewrite dict_get_index_ngrams. cbn [dict_get bucket_of app].
    now destruct (occurrences g grams 0). }
  assert (Hbucket : bucket_of (index_ngrams grams 0 []) g
                    = occurrences g grams 0).
  { unfold bucket_of. rewrite Hget. now destruct (occurrences g grams 0). }
  split; [|split].
  - rewrite Hget. split.
    + intros Hnone Hin. apply In_nth_error in Hin as [n Hn].
      pose proof (occurrences_nth g grams n 0 Hn) as Hocc.
      destruct (occurrences g grams 0); [destruct Hocc | discriminate].
    + intros Hnot. destruct (occurrences g grams 0) as [|k found] eqn:E;
        [reflexivity|].
      exfalso. apply Hnot.
      assert (Hk : In k (occurrences g grams 0)) by (rewrite E; now left).
      apply occurrences_spec in Hk as [_ Hk]. now apply nth_error_In in Hk.
  - intros k. rewrite Hbucket, occurrences_spec. now rewrite Z.sub_0_r.
  - rewrite Hbucket. apply occurrences_sorted.
Qed.

(** ** [find_best] always returns *)

(** X13. [find_best] never raises, whatever the index, the query and the
    range: it returns the null result [(None, -1)], as it does for the empty
    query, or an interval with [start <= end] together with the edit
    distance between the text of that interval and the query. *)
Theorem find_best_always_returns (self : LevenshteinSearch)
  (look_for : list ascii) (start stop threshold : Z) :
  (find_best self look_for start stop threshold = Returns (None, -1)
   \/ exists a b,
        find_best self look_for start stop threshold
        = Returns (Some (a, b), lev (slice (text self) a b) look_for)
        /\ a <= b
        /\ 0 <= lev (slice (text self) a b) look_for)
  /\ find_best self [] start stop threshold = Returns (None, -1).
Proof.
  split; [|reflexivity].
  destruct (find_best_result self look_for start stop threshold)
    as [Hnone | [w Hsome]]; [now left | right].
  rewrite Hsome. unfold refine, _find_best_in_interval.
  rewrite snap_to_tokens_distance.
  match goal with
  | |- context [snd (snap_to_tokens ?s ?q ?i)] =>
      pose proof (snap_to_tokens_ordered s q i) as Hord;
      destruct (snd (snap_to_tokens s q i)) as [a b]
  end.
  exists a, b. split; [reflexivity|]. split; [exact Hord|].
  apply (levenshtein_nonneg _ Ascii.eqb_eq).
Qed.

(** ** Intervals and their text *)

(** X14. [combine_intervals] returns the least interval that contains both
    arguments; it is commutative, associative and idempotent. *)
Theorem combine_intervals_least_upper_bound (i1 i2 i3 : interval) :
  contains (combine_intervals i1 i2) i1
  /\ contains (combine_intervals i1 i2) i2
  /\ (forall j, contains j i1 -> contains j i2 ->
                contains j (combine_intervals i1 i2))
  /\ combine_intervals i1 i2 = combine_intervals i2 i1
  /\ combine_intervals (combine_intervals i1 i2) i3
     = combine_intervals i1 (combine_intervals i2 i3)
  /\ combine_intervals i1 i1 = i1.
Proof.
  destruct i1 as [s1 e1], i2 as [s2 e2], i3 as [s3 e3].
  unfold contains, combine_intervals. cbn [fst snd].
  split; [lia|]. split; [lia|]. split.
  { intros [s e] [H1 H2] [H3 H4]. cbn [fst snd] in *. lia. }
  split; [f_equal; lia|]. split; f_equal; lia.
Qed.

Lemma slice_inside_nth {X} (l : list X) (i j : Z) :
  0 <= i -> i <= j -> j <= len l ->
  len (slice l i j) = j - i
  /\ forall k : nat, (Z.of_nat k < j - i) ->
       nth_error (slice l i j) k = nth_error l (Z.to_nat i + k).
Proof.
  intros Hi Hij Hj. unfold slice, clip.
  assert (E1 : (i <? 0) = false) by lia.
  assert (E2 : (j <? 0) = false) by lia.
  rewrite E1, E2, !Z.min_l by lia.
  split.
  - unfold len in *. rewrite length_firstn, length_skipn. lia.
  - intros k Hk. rewrite nth_error_firstn.
    assert (E : (k <? Z.to_nat (j - i))%nat = true)
      by (apply Nat.ltb_lt; lia).
    rewrite E. apply nth_error_skipn.
Qed.

(** X15. The text of the token found at a non-whitespace position [at] has
    [end - start >= 1] characters, none of them whitespace, and holds the
    character at [at] at index [at - start]. *)
Theorem token_text_has_no_whitespace (text : list ascii) (at_ : Z) :
  in_token text at_ = true ->
  let token := get_token_interval text at_ in
  let word := get_interval_text text token in
  len word = interval_len token
  /\ 1 <= len word
  /\ Forall (fun c => isspace c = false) word
  /\ nth_error word (Z.to_nat (at_ - fst token))
     = nth_error text (Z.to_nat at_).
Proof.
  intros Hin. cbv zeta.
  pose proof (get_token_interval_run text at_ Hin) as Hrun.
  destruct (get_token_interval text at_) as [s e].
  destruct Hrun as (Hs & Hsat & Hate & He & Hall & _).
  cbn [get_interval_text interval_len fst].
  destruct (slice_inside_nth text s e) as [Hlen Hnth]; try lia.
  split; [exact Hlen|]. split; [lia|]. split.
  - apply Forall_forall. intros c Hc.
    apply In_nth_error in Hc as [k Hk].
    assert (Hklt : Z.of_nat k < e - s).
    { rewrite <- Hlen. unfold len.
      apply Nat2Z.inj_lt, nth_error_Some. congruence. }
    rewrite Hnth in Hk by assumption.
    specialize (Hall (s + Z.of_nat k) ltac:(lia)).
    unfold in_token in Hall. apply andb_prop in Hall as [_ Hall].
    replace (Z.to_nat (s + Z.of_nat k)) with (Z.to_nat s + k)%nat in Hall
      by lia.
    rewrite Hk in Hall. now apply negb_true_iff in Hall.
  - rewrite Hnth by lia. f_equal. lia.
Qed.

Lemma token_text_has_no_whitespace_witness :
  in_token (str "the quick fox") 6 = true
  /\ let token := get_token_interval (str "the quick fox") 6 in
     let word := get_interval_text (str "the quick fox") token in
     len word = interval_len token
     /\ 1 <= len word
     /\ Forall (fun c => isspace c = false) word
     /\ nth_error word (Z.to_nat (6 - fst token))
        = nth_error (str "the quick fox") (Z.to_nat 6).
Proof.
  assert (H : in_token (str "the quick fox") 6 = true) by reflexivity.
  split; [exact H|].
  exact (token_text_has_no_whitespace (str "the quick fox") 6 H).
Defined.

(** ** [Alphabet] *)

Lemma str_eqb_spec (s t : list ascii) : str_eqb s t = true <-> s = t.
Proof.
  unfold str_eqb. rewrite String.eqb_eq. split; [|now intros ->].
  intros H. apply (f_equal list_ascii_of_string) in H.
  now rewrite !list_ascii_of_string_of_list_ascii in H.
Qed.

Lemma entries_cons (line : list ascii) (rest : list (list ascii)) :
  entries (line :: rest)
  = if is_comment line then entries rest
    else label_of_line line :: entries rest.
Proof. unfold entries. cbn [filter]. now destruct (is_comment line). Qed.

(** Without an empty line the loop returns: the labels of the lines that
    are no comments are appended and numbered in turn. *)
Lemma Alphabet_read_entries (lines : list (list ascii)) :
  forall (label_to_str : list ascii) (str_to_label : dict (list ascii) Z)
         (size : Z),
    (forall line, In line lines -> line <> []) ->
    Alphabet_read lines label_to_str str_to_label size
    = Returns {| _label_to_str := label_to_str ++ concat (entries lines);
                 _labels :=
                   {| _str_to_label :=
                        assign (entries lines) size str_to_label |};
                 _size := size + len (entries lines) |}.
Proof.
  induction lines as [|line rest IH]; intros lts d sz Hlines.
  - cbn. now rewrite app_nil_r, Z.add_0_r.
  - assert (Hrest : forall l, In l rest -> l <> [])
      by (intros l Hl; apply Hlines; now right).
    cbn [Alphabet_read]. rewrite entries_cons.
    unfold is_comment, label_of_line.
    destruct (escaped_hash line) eqn:Hesc.
    + cbn [negb andb]. rewrite IH by assumption.
      change (slice ["#"%char; newline] 0 (-1)) with ["#"%char].
      cbn [concat assign]. rewrite len_cons, <- app_assoc.
      now replace (sz + 1 + len (entries rest))
        with (sz + (len (entries rest) + 1)) by lia.
    + destruct line as [|first line];
        [now specialize (Hlines [] (or_introl eq_refl))|].
      change (index (first :: line) 0) with (Returns first).
      cbn [bind negb andb].
      destruct (Ascii.eqb first "#") eqn:Hfirst.
      * now rewrite IH.
      * rewrite IH by assumption.
        cbn [concat assign]. rewrite len_cons, <- app_assoc.
        now replace (sz + 1 + len (entries rest))
          with (sz + (len (entries rest) + 1)) by lia.
Qed.

Lemma assign_absent (labels : list (list ascii)) (s : list ascii) :
  forall (size : Z) (d : dict (list ascii) Z),
    ~ In s labels -> dict_get str_eqb (assign labels size d) s
                     = dict_get str_eqb d s.
Proof.
  induction labels as [|e labels IH]; intros sz d Hs; [reflexivity|].
  cbn [assign]. rewrite IH by (intros H; apply Hs; now right).
  rewrite (dict_get_set _ str_eqb_spec).
  destruct (str_eqb e s) eqn:E; [|reflexivity].
  apply str_eqb_spec in E. subst e. exfalso. apply Hs. now left.
Qed.

(** A label is numbered by the last line that registers it. *)
Lemma assign_present (labels : list (list ascii)) (s : list ascii) :
  forall (size : Z) (d : dict (list ascii) Z),
    In s labels ->
    exists k : nat,
      dict_get str_eqb (assign labels size d) s = Some (size + Z.of_nat k)
      /\ nth_error labels k = Some s
      /\ forall k', (k < k')%nat -> nth_error labels k' <> Some s.
Proof.
  induction labels as [|e labels IH]; intros sz d Hs; [destruct Hs|].
  cbn [assign].
  destruct (in_dec (list_eq_dec ascii_dec) s labels) as [Hin | Hout].
  - destruct (IH (sz + 1) (dict_set str_eqb d e sz) Hin)
      as (k & Hget & Hk & Hlast).
    exists (S k). split; [rewrite Hget; f_equal; lia|].
    split; [exact Hk|].
    intros [|k'] Hlt; [lia|]. apply Hlast. lia.
  - destruct Hs as [-> | Hs]; [|contradiction].
    exists 0%nat. rewrite assign_absent by assumption.
    rewrite (dict_get_set _ str_eqb_spec).
    assert (E : str_eqb s s = true) by now apply str_eqb_spec.
    rewrite E. split; [f_equal; lia|]. split; [reflexivity|].
    intros [|k'] Hlt Hk'; [lia|]. cbn [nth_error] in Hk'.
    apply Hout. now apply nth_error_In in Hk'.
Qed.

Lemma has_label_assign (labels : list (list ascii)) (s : list ascii) :
  has_label {| _str_to_label := assign labels 0 [] |} s = true <-> In s labels.
Proof.
  unfold has_label, dict_mem. cbn [_str_to_label].
  destruct (in_dec (list_eq_dec ascii_dec) s labels) as [Hin | Hout].
  - destruct (assign_present labels s 0 [] Hin) as (k & -> & _). tauto.
  - rewrite assign_absent by assumption. cbn. split; [discriminate | tauto].
Qed.

(** X16. On lines none of which is empty, [Alphabet.__init__] returns;
    [size()] is the number of lines that are no comments, [_label_to_str]
    holds the characters of their labels in order, and [has_label] accepts
    exactly their labels, ['#'] standing for a line that starts with
    ['\#']. *)
Theorem Alphabet_init_loads (lines : list (list ascii)) :
  (forall line, In line lines -> line <> []) ->
  exists self,
    Alphabet_init lines = Returns self
    /\ size self = len (entries lines)
    /\ _label_to_str self = concat (entries lines)
    /\ forall s, has_label (_labels self) s = true <-> In s (entries lines).
Proof.
  intros Hlines. unfold Alphabet_init.
  rewrite Alphabet_read_entries by assumption.
  eexists. split; [reflexivity|]. cbn [size _size _label_to_str _labels app].
  split; [lia|]. split; [reflexivity|].
  intros s. apply has_label_assign.
Qed.

Lemma Alphabet_init_loads_witness :
  let lines := [str "# letters" ++ [newline]; [" "%char; newline];
                ["a"%char; newline]; str "\# hash" ++ [newline]] in
  (forall line, In line lines -> line <> [])
  /\ exists self,
       Alphabet_init lines = Returns self
       /\ size self = len (entries lines)
       /\ _label_to_str self = concat (entries lines)
       /\ forall s, has_label (_labels self) s = true <-> In s (entries lines).
Proof.
  assert (H : forall line,
             In line [str "# letters" ++ [newline]; [" "%char; newline];
                      ["a"%char; newline]; str "\# hash" ++ [newline]] ->
             line <> []).
  { intros line Hin. cbn in Hin.
    repeat (destruct Hin as [<- | Hin]; [discriminate|]). destruct Hin. }
  split; [exact H|].
  exact (Alphabet_init_loads _ H).
Defined.

(** X17. For an alphabet loaded from lines none of which is empty,
    [label_from_string] returns for a registered label the number of the
    last line, comments not counted, that registers it, and raises
    [KeyError] for every other string. *)
Theorem label_from_string_last_entry (lines : list (list ascii))
  (s : list ascii) :
  (forall line, In line lines -> line <> []) ->
  exists self,
    Alphabet_init lines = Returns self
    /\ ((~ In s (entries lines) /\ label_from_string self s = Raises KeyError)
        \/ exists k : nat,
             label_from_string self s = Returns (Z.of_nat k)
             /\ nth_error (entries lines) k = Some s
             /\ forall k', (k < k')%nat -> nth_error (entries lines) k' <> Some s).
Proof.
  intros Hlines. unfold Alphabet_init.
  rewrite Alphabet_read_entries by assumption.
  eexists. split; [reflexivity|].
  unfold label_from_string, getitem. cbn [_labels _str_to_label].
  destruct (in_dec (list_eq_dec ascii_dec) s (entries lines)) as [Hin | Hout].
  - right. destruct (assign_present (entries lines) s 0 [] Hin)
      as (k & Hget & Hk & Hlast).
    exists k. rewrite Hget. cbn [Z.add]. auto.
  - left. rewrite assign_absent by assumption. cbn. auto.
Qed.

Lemma label_from_string_last_entry_witness :
  let lines := [["a"%char; newline]; ["b"%char; newline]; ["a"%char; newline]] in
  (forall line, In line lines -> line <> [])
  /\ exists self,
       Alphabet_init lines = Returns self
       /\ ((~ In ["a"%char] (entries lines)
            /\ label_from_string self ["a"%char] = Raises KeyError)
           \/ exists k : nat,
                label_from_string self ["a"%char] = Returns (Z.of_nat k)
                /\ nth_error (entries lines) k = Some ["a"%char]
                /\ forall k', (k < k')%nat ->
                              nth_error (entries lines) k' <> Some ["a"%char]).
Proof.
  assert (H : forall line,
             In line [["a"%char; newline]; ["b"%char; newline];
                      ["a"%char; newline]] -> line <> []).
  { intros line Hin. cbn in Hin.
    repeat (destruct Hin as [<- | Hin]; [discriminate|]). destruct Hin. }
  split; [exact H|].
  exact (label_from_string_last_entry _ ["a"%char] H).
Defined.

Lemma concat_singletons (labels : list (list ascii)) :
  (forall e, In e labels -> length e = 1%nat) ->
  forall (k : nat) (c : ascii),
    nth_error labels k = Some [c] -> nth_error (concat labels) k = Some c.
Proof.
  induction labels as [|e labels IH]; intros Hone k c Hk; [now destruct k|].
  assert (He : length e = 1%nat) by (apply Hone; now left).
  destruct e as [|c0 [|? ?]]; try discriminate.
  cbn [concat app]. destruct k as [|k]; cbn [nth_error] in *.
  - now injection Hk as ->.
  - apply IH; [|assumption]. intros e' He'. apply Hone. now right.
Qed.

Lemma index_nat {X} (l : list X) (k : nat) (x : X) :
  nth_error l k = Some x -> index l (Z.of_nat k) = Returns x.
Proof.
  intros H. unfold index.
  assert (E : (Z.of_nat k <? 0) = false) by (apply Z.ltb_ge; apply Nat2Z.is_nonneg).
  rewrite E, E.
  now rewrite Nat2Z.id, H.
Qed.

Section AlphabetRoundTrip.

Variable lines : list (list ascii).
Hypothesis lines_not_empty : forall line, In line lines -> line <> [].
Hypothesis single_characters :
  forall e, In e (entries lines) -> length e = 1%nat.

Let loaded : Alphabet_object :=
  {| _label_to_str := concat (entries lines);
     _labels := {| _str_to_label := assign (entries lines) 0 [] |};
     _size := len (entries lines) |}.

Lemma Alphabet_init_loaded : Alphabet_init lines = Returns loaded.
Proof.
  unfold Alphabet_init. rewrite Alphabet_read_entries by assumption.
  reflexivity.
Qed.

Lemma label_round_trip (c : ascii) (label : Z) :
  label_from_string loaded [c] = Returns label ->
  string_from_label loaded label = Returns c.
Proof.
  unfold label_from_string, getitem, string_from_label.
  cbn [loaded _labels _str_to_label _label_to_str].
  destruct (in_dec (list_eq_dec ascii_dec) [c] (entries lines)) as [Hin | Hout].
  - destruct (assign_present (entries lines) [c] 0 [] Hin)
      as (k & Hget & Hk & _).
    rewrite Hget. intros [= <-]. cbn [Z.add].
    apply index_nat, concat_singletons; assumption.
  - rewrite assign_absent by assumption. cbn. discriminate.
Qed.

Lemma decode_loop_round_trip (text : list ascii) :
  forall (labels : list Z) (res : list ascii),
    Forall2 (fun c label => label_from_string loaded [c] = Returns label)
            text labels ->
    decode_loop loaded labels res = Returns (res ++ text).
Proof.
  induction text as [|c text IH]; intros labels res H; inversion H; subst.
  - cbn. now rewrite app_nil_r.
  - cbn [decode_loop]. rewrite (label_round_trip c) by assumption.
    cbn [bind]. rewrite IH by assumption. now rewrite <- app_assoc.
Qed.

(** X18. For an alphabet whose labels are single characters, [decode] maps
    the labels that [label_from_string] gives to the characters of a text
    back to that text; in particular [string_from_label] inverts
    [label_from_string]. *)
Theorem decode_inverts_label_from_string (text : list ascii) (labels : list Z) :
  exists self,
    Alphabet_init lines = Returns self
    /\ (Forall2 (fun c label => label_from_string self [c] = Returns label)
                text labels ->
        decode self labels = Returns text).
Proof.
  exists loaded. split; [apply Alphabet_init_loaded|].
  intros H. unfold decode. now rewrite (decode_loop_round_trip text).
Qed.

(** X19. For an alphabet whose labels are distinct single characters,
    [label_from_string] inverts [string_from_label] on the labels
    [0 .. size() - 1]. *)
Theorem label_from_string_inverts_string_from_label (label : Z) :
  NoDup (entries lines) -> 0 <= label < len (entries lines) ->
  exists self c,
    Alphabet_init lines = Returns self
    /\ size self = len (entries lines)
    /\ string_from_label self label = Returns c
    /\ label_from_string self [c] = Returns label.
Proof.
  intros Hdistinct Hlabel.
  destruct (nth_error (entries lines) (Z.to_nat label)) as [e|] eqn:He;
    [|apply nth_error_None in He; unfold len in Hlabel; lia].
  assert (Hone : length e = 1%nat)
    by (apply single_characters; now apply nth_error_In in He).
  destruct e as [|c [|? ?]]; try discriminate.
  exists loaded, c. split; [apply Alphabet_init_loaded|].
  split; [reflexivity|]. split.
  - unfold string_from_label. cbn [loaded _label_to_str].
    rewrite <- (Z2Nat.id label) by lia.
    apply index_nat, concat_singletons; assumption.
  - unfold label_from_string, getitem. cbn [loaded _labels _str_to_label].
    destruct (assign_present (entries lines) [c] 0 []
                (nth_error_In _ _ He)) as (k & Hget & Hk & _).
    rewrite Hget. cbn [Z.add]. f_equal.
    assert (k = Z.to_nat label); [|lia].
    apply (proj1 (NoDup_nth_error (entries lines)) Hdistinct);
      [apply nth_error_Some; congruence | congruence].
Qed.

End AlphabetRoundTrip.

Lemma decode_inverts_label_from_string_witness :
  let lines := [["a"%char; newline]; ["b"%char; newline]; [" "%char; newline]] in
  (forall line, In line lines -> line <> [])
  /\ (forall e, In e (entries lines) -> length e = 1%nat)
  /\ exists self,
       Alphabet_init lines = Returns self
       /\ (Forall2 (fun c label => label_from_string self [c] = Returns label)
                   (str "ab ba") [0; 1; 2; 1; 0] ->
           decode self [0; 1; 2; 1; 0] = Returns (str "ab ba")).
Proof.
  assert (H1 : forall line,
             In line [["a"%char; newline]; ["b"%char; newline];
                      [" "%char; newline]] -> line <> []).
  { intros line Hin. cbn in Hin.
    repeat (destruct Hin as [<- | Hin]; [discriminate|]). destruct Hin. }
  assert (H2 : forall e,
             In e (entries [["a"%char; newline]; ["b"%char; newline];
                            [" "%char; newline]]) -> length e = 1%nat).
  { intros e Hin. cbn in Hin.
    repeat (destruct Hin as [<- | Hin]; [reflexivity|]). destruct Hin. }
  split; [exact H1|]. split; [exact H2|].
  exact (decode_inverts_label_from_string _ H1 H2 (str "ab ba") [0; 1; 2; 1; 0]).
Defined.

Lemma label_from_string_inverts_string_from_label_witness :
  let lines := [["a"%char; newline]; ["b"%char; newline]; [" "%char; newline]] in
  (forall line, In line lines -> line <> [])
  /\ (forall e, In e (entries lines) -> length e = 1%nat)
  /\ NoDup (entries lines)
  /\ 0 <= 1 < len (entries lines)
  /\ exists self c,
       Alphabet_init lines = Returns self
       /\ size self = len (entries lines)
       /\ string_from_label self 1 = Returns c
       /\ label_from_string self [c] = Returns 1.
Proof.
  assert (H1 : forall line,
             In line [["a"%char; newline]; ["b"%char; newline];
                      [" "%char; newline]] -> line <> []).
  { intros line Hin. cbn in Hin.
    repeat (destruct Hin as [<- | Hin]; [discriminate|]). destruct Hin. }
  assert (H2 : forall e,
             In e (entries [["a"%char; newline]; ["b"%char; newline];
                            [" "%char; newline]]) -> length e = 1%nat).
  { intros e Hin. cbn in Hin.
    repeat (destruct Hin as [<- | Hin]; [reflexivity|]). destruct Hin. }
  assert (H3 : NoDup (entries [["a"%char; newline]; ["b"%char; newline];
                               [" "%char; newline]])).
  { clear H1 H2. vm_compute.
    apply NoDup_cons; [intros [H | [H | []]]; discriminate|].
    apply NoDup_cons; [intros [H | []]; discriminate|].
    apply NoDup_cons; [intros []|]. apply NoDup_nil. }
  assert (H4 : 0 <= 1 < len (entries [["a"%char; newline]; ["b"%char; newline];
                                      [" "%char; newline]]))
    by (vm_compute; split; [discriminate | reflexivity]).
  split; [exact H1|]. split; [exact H2|]. split; [exact H3|]. split; [exact H4|].
  exact (label_from_string_inverts_string_from_label _ H1 H2 1 H3 H4).
Defined.

(** ** utils.py: [by_len] *)

Lemma decorate_total {X} (f : X -> Z) (l : list X) :
  decorate (fun x => Returns (f x)) l = Returns (map (fun x => (x, f x)) l).
Proof.
  induction l as [|x l IH]; [reflexivity|].
  cbn [decorate map bind]. now rewrite IH.
Qed.

Lemma undecorate_sorted {X} (f : X -> Z) (R' : X * Z -> X * Z -> Prop)
  (R : X -> X -> Prop) (l : list (X * Z)) :
  (forall a b, R' (a, f a) (b, f b) -> R a b) ->
  Forall (fun e => snd e = f (fst e)) l ->
  StronglySorted R' l -> StronglySorted R (map fst l).
Proof.
  intros HR Hkey Hsorted.
  induction Hsorted as [|[x k] l Hl IH Hx]; cbn [map]; [constructor|].
  inversion Hkey as [|? ? Hk Hkeys]; subst. cbn [fst snd] in *. subst k.
  constructor; [now apply IH|].
  apply Forall_map. rewrite Forall_forall in Hx, Hkeys |- *.
  intros [y k] Hy. specialize (Hx _ Hy). specialize (Hkeys _ Hy).
  cbn [fst snd] in *. subst k. now apply HR.
Qed.

Section Stability.

Context {X : Type}.
Variable reverse : bool.
Variable tag : X -> Z.

(** [a] is before [b] by its key, or has the same key and the lower tag. *)
Let stable (a b : X * Z) : Prop :=
  goes_before reverse (snd b) (snd a) = false
  \/ (snd a = snd b /\ tag (fst a) < tag (fst b)).

Lemma insert_sorted_stable (x : X * Z) (l : list (X * Z)) :
  Forall (fun y => tag (fst x) < tag (fst y)) l ->
  StronglySorted stable l ->
  StronglySorted stable (insert_sorted reverse x l).
Proof.
  intros Htag Hsorted. revert Htag.
  induction Hsorted as [|y l Hl IH Hy]; intros Htag; cbn [insert_sorted].
  - repeat constructor.
  - inversion Htag as [|? ? Hxy Htag']; subst.
    destruct (goes_before reverse (snd x) (snd y)) eqn:E.
    + constructor; [now constructor|].
      constructor.
      * unfold stable, goes_before in *. destruct reverse; lia.
      * rewrite Forall_forall in Hy, Htag' |- *. intros z Hz.
        specialize (Hy z Hz). specialize (Htag' z Hz).
        unfold stable, goes_before in *. destruct reverse; lia.
    + constructor; [now apply IH|].
      rewrite Forall_forall in Hy |- *. intros z Hz.
      apply (Permutation_in _ (insert_sorted_perm reverse x l)) in Hz.
      destruct Hz as [<- | Hz]; [|now apply Hy].
      unfold stable, goes_before in *. destruct reverse; lia.
Qed.

Lemma sort_decorated_stable (l : list (X * Z)) :
  StronglySorted (fun a b => tag (fst a) < tag (fst b)) l ->
  StronglySorted stable (sort_decorated reverse l).
Proof.
  induction 1 as [|x l Hl IH Hx]; cbn [sort_decorated fold_right];
    [constructor|].
  apply insert_sorted_stable; [|exact IH].
  rewrite Forall_forall in Hx |- *. intros y Hy. apply Hx.
  now apply (Permutation_in _ (sort_decorated_perm reverse l)).
Qed.

End Stability.

Lemma enumerate_increasing {A} (l : list A) :
  forall start,
    StronglySorted (fun a b => fst a < fst b) (enumerate l start)
    /\ Forall (fun e => start <= fst e) (enumerate l start).
Proof.
  induction l as [|x l IH]; intros start; cbn [enumerate].
  - split; constructor.
  - destruct (IH (start + 1)) as [Hsorted Hlow]. split.
    + constructor; [assumption|].
      eapply Forall_impl; [|exact Hlow]. cbn. intros; lia.
    + constructor; [cbn; lia|].
      eapply Forall_impl; [|exact Hlow]. cbn. intros; lia.
Qed.

Lemma StronglySorted_map {X Y} (g : X -> Y) (R : Y -> Y -> Prop) (l : list X) :
  StronglySorted (fun a b => R (g a) (g b)) l -> StronglySorted R (map g l).
Proof.
  induction 1 as [|x l Hl IH Hx]; cbn [map]; constructor; [assumption|].
  now apply Forall_map.
Qed.

(** X20. [by_len] returns every pair [(index, item)] of [enumerate(items)]
    once, the longer items first; items of equal length keep the order they
    have in [items]. *)
Theorem by_len_order {A} (items : list (list A)) :
  exists out,
    by_len items = Returns out
    /\ Permutation out (enumerate items 0)
    /\ StronglySorted longer_first out.
Proof.
  unfold by_len, sorted. rewrite decorate_total. cbn [bind].
  set (decorated := map (fun e : Z * list A => (e, len (snd e)))
                        (enumerate items 0)).
  exists (map fst (sort_decorated true decorated)). split; [reflexivity|].
  split.
  - rewrite (sort_decorated_perm true decorated). subst decorated.
    rewrite map_map. cbn [fst]. now rewrite map_id.
  - apply (undecorate_sorted (fun e : Z * list A => len (snd e))
             (fun a b => goes_before true (snd b) (snd a) = false
                         \/ (snd a = snd b /\ fst (fst a) < fst (fst b)))).
    + intros a b. unfold longer_first, goes_before. cbn [fst snd]. lia.
    + apply Forall_forall. intros e He.
      apply (Permutation_in _ (sort_decorated_perm true decorated)) in He.
      subst decorated. apply in_map_iff in He.
      now destruct He as (e' & <- & _).
    + apply (sort_decorated_stable true fst). subst decorated.
      apply StronglySorted_map with (g := fun e : Z * list A => (e, len (snd e)))
        (R := fun a b : (Z * list A) * Z => fst (fst a) < fst (fst b)).
      cbn [fst]. apply enumerate_increasing.
Qed.

(** ** utils.py: [circulate] *)

Lemma StronglySorted_app {X} (R : X -> X -> Prop) (l1 l2 : list X) :
  StronglySorted R l1 -> StronglySorted R l2 ->
  (forall a b, In a l1 -> In b l2 -> R a b) ->
  StronglySorted R (l1 ++ l2).
Proof.
  induction 1 as [|x l1 Hl IH Hx]; intros H2 Hcross; cbn [app];
    [assumption|].
  constructor.
  - apply IH; [assumption|]. intros a b Ha Hb. apply Hcross; [now right|assumption].
  - apply Forall_app. split; [assumption|].
    apply Forall_forall. intros b Hb. apply Hcross; [now left|assumption].
Qed.

Lemma StronglySorted_NoDup {X} (R : X -> X -> Prop) (l : list X) :
  (forall x, ~ R x x) -> StronglySorted R l -> NoDup l.
Proof.
  intros Hirr. induction 1 as [|x l Hl IH Hx]; constructor; [|assumption].
  intros Hin. rewrite Forall_forall in Hx. exact (Hirr x (Hx x Hin)).
Qed.

Lemma index_nonneg {X} (l : list X) (j : Z) (x : X) :
  0 <= j -> (index l j = Returns x <-> nth_error l (Z.to_nat j) = Some x).
Proof.
  intros Hj. unfold index.
  assert (E : (j <? 0) = false) by lia. rewrite E, E.
  destruct (nth_error l (Z.to_nat j)); split; congruence.
Qed.

Lemma index_returns {X} (l : list X) (j : Z) :
  0 <= j < len l -> exists x, index l j = Returns x.
Proof.
  intros Hj. destruct (nth_error l (Z.to_nat j)) as [x|] eqn:E.
  - exists x. now apply index_nonneg.
  - apply nth_error_None in E. unfold len in Hj. lia.
Qed.

Lemma In_enumerate {X} (l : list X) :
  forall (start j : Z) (x : X),
    In (j, x) (enumerate l start)
    <-> start <= j /\ nth_error l (Z.to_nat (j - start)) = Some x.
Proof.
  induction l as [|y l IH]; intros start j x; cbn [enumerate In].
  - split; [tauto|]. intros [_ H]. now destruct (Z.to_nat (j - start)).
  - rewrite IH. split.
    + intros [[= <- <-] | [Hj Hx]].
      * split; [lia|]. now rewrite Z.sub_diag.
      * split; [lia|].
        replace (Z.to_nat (j - start)) with (S (Z.to_nat (j - (start + 1))))
          by lia. exact Hx.
    + intros [Hj Hx].
      destruct (Z.eq_dec j start) as [-> | Hne].
      * rewrite Z.sub_diag in Hx. cbn in Hx. left. congruence.
      * right. split; [lia|].
        replace (Z.to_nat (j - start)) with (S (Z.to_nat (j - (start + 1))))
          in Hx by lia. exact Hx.
Qed.

Lemma In_range_from (i : Z) (n : nat) (j : Z) :
  In j (range_from i n) <-> i <= j < i + Z.of_nat n.
Proof.
  unfold range_from. rewrite in_map_iff. split.
  - intros (k & <- & Hk). apply in_seq in Hk. lia.
  - intros Hj. exists (Z.to_nat (j - i)). split; [lia|].
    apply in_seq. lia.
Qed.

Lemma range_from_increasing (i : Z) (n : nat) :
  StronglySorted Z.lt (range_from i n).
Proof.
  revert i. induction n as [|n IH]; intros i; [constructor|].
  rewrite range_from_S. constructor; [apply IH|].
  apply Forall_forall. intros j Hj. apply In_range_from in Hj. lia.
Qed.

Section Circulate.

Context {A : Type}.
Variable items : list A.
Variable center : Z.
Hypothesis center_inside : 0 <= center < len items.

(** What [circulate] yields is an index of [items] with its item. *)
Let indexed (e : Z * A) : Prop :=
  0 <= fst e < len items /\ index items (fst e) = Returns (snd e).

Lemma circulate_round_returns (i : Z) :
  1 <= i ->
  exists round,
    circulate_round items (len items) center i = Returns round
    /\ Forall (fun e => indexed e /\ Z.abs (fst e - center) = i) round
    /\ StronglySorted (circulates_before center) round
    /\ (forall j, 0 <= j < len items -> Z.abs (j - center) = i ->
                  In j (map fst round)).
Proof.
  intros Hi. unfold circulate_round.
  destruct (center + i <? len items) eqn:Eright;
    destruct (center - i >=? 0) eqn:Eleft.
  - destruct (index_returns items (center + i)) as [x Hx]; [lia|].
    destruct (index_returns items (center - i)) as [y Hy]; [lia|].
    rewrite Hx, Hy. cbn [bind app].
    exists [(center + i, x); (center - i, y)]. split; [reflexivity|].
    split; [|split].
    + repeat (apply Forall_cons || apply Forall_nil);
        unfold indexed; cbn [fst snd]; (split; [split; [lia | assumption] | lia]).
    + apply SSorted_cons; [apply SSorted_cons; [apply SSorted_nil | apply Forall_nil]|].
      apply Forall_cons; [|apply Forall_nil].
      unfold circulates_before. cbn [fst]. lia.
    + intros j Hj Habs. cbn [map fst In]. lia.
  - destruct (index_returns items (center + i)) as [x Hx]; [lia|].
    rewrite Hx. cbn [bind app].
    exists [(center + i, x)]. split; [reflexivity|]. split; [|split].
    + repeat (apply Forall_cons || apply Forall_nil);
        unfold indexed; cbn [fst snd]; (split; [split; [lia | assumption] | lia]).
    + apply SSorted_cons; [apply SSorted_nil | apply Forall_nil].
    + intros j Hj Habs. cbn [map fst In]. lia.
  - destruct (index_returns items (center - i)) as [y Hy]; [lia|].
    rewrite Hy. cbn [bind app].
    exists [(center - i, y)]. split; [reflexivity|]. split; [|split].
    + repeat (apply Forall_cons || apply Forall_nil);
        unfold indexed; cbn [fst snd]; (split; [split; [lia | assumption] | lia]).
    + apply SSorted_cons; [apply SSorted_nil | apply Forall_nil].
    + intros j Hj Habs. cbn [map fst In]. lia.
  - cbn [bind app]. exists []. split; [reflexivity|]. split; [|split].
    + constructor.
    + constructor.
    + intros j Hj Habs. lia.
Qed.

Lemma circulate_loop_returns (range : list Z) :
  Forall (fun i => 1 <= i) range -> StronglySorted Z.lt range ->
  exists out,
    circulate_loop items (len items) center range = Returns out
    /\ Forall (fun e => indexed e /\ In (Z.abs (fst e - center)) range) out
    /\ StronglySorted (circulates_before center) out
    /\ (forall j, 0 <= j < len items -> In (Z.abs (j - center)) range ->
                  In j (map fst out)).
Proof.
  intros Hpos Hsorted. induction Hsorted as [|i range Hrange IH Hi].
  - exists []. split; [reflexivity|]. split; [constructor|].
    split; [constructor|]. intros j _ [].
  - inversion Hpos as [|? ? Hi1 Hpos']; subst.
    destruct (circulate_round_returns i Hi1)
      as (round & Eround & Hround & Sround & Iround).
    destruct (IH Hpos') as (rest & Erest & Hrest & Srest & Irest).
    cbn [circulate_loop]. rewrite Eround, Erest. cbn [bind].
    exists (round ++ rest). split; [reflexivity|]. split; [|split].
    + apply Forall_app. split.
      * eapply Forall_impl; [|exact Hround].
        intros e [He Habs]. split; [assumption|]. left. now symmetry.
      * eapply Forall_impl; [|exact Hrest].
        intros e [He Habs]. split; [assumption|]. now right.
    + apply StronglySorted_app; [assumption | assumption|].
      intros a b Ha Hb. rewrite Forall_forall in Hround, Hrest, Hi.
      destruct (Hround a Ha) as [_ Habs_a].
      destruct (Hrest b Hb) as [_ Habs_b].
      specialize (Hi _ Habs_b). left. lia.
    + intros j Hj [Habs | Habs]; rewrite map_app; apply in_or_app.
      * left. apply Iround; [assumption | now symmetry].
      * right. now apply Irest.
Qed.

End Circulate.

Lemma circulate_center_inside {A} (items : list A) (center : option Z) :
  items <> [] -> 0 <= circulate_center items center < len items.
Proof.
  intros Hitems. unfold circulate_center.
  assert (0 < len items).
  { destruct items; [contradiction|]. rewrite len_cons.
    pose proof (len_nonneg items). lia. }
  lia.
Qed.

Lemma circulate_returns {A} (items : list A) (center : option Z) :
  exists out,
    circulate items center = Returns out
    /\ Forall (fun e => 0 <= fst e < len items
                        /\ index items (fst e) = Returns (snd e)) out
    /\ StronglySorted (circulates_before (circulate_center items center)) out
    /\ (forall j, 0 <= j < len items -> In j (map fst out))
    /\ (items <> [] ->
        exists item rest, out = (circulate_center items center, item) :: rest).
Proof.
  unfold circulate. destruct (len items >? 0) eqn:Ecount.
  - assert (Hitems : items <> []).
    { intros ->. discriminate. }
    pose proof (circulate_center_inside items center Hitems) as Hc.
    fold (circulate_center items center).
    set (c := circulate_center items center) in *.
    destruct (index_returns items c Hc) as [x Hx]. rewrite Hx. cbn [bind].
    destruct (circulate_loop_returns items c Hc
                (range_from 1 (Z.to_nat (len items - 1))))
      as (rest & Erest & Hrest & Srest & Irest).
    { apply Forall_forall. intros i Hi. apply In_range_from in Hi. lia. }
    { apply range_from_increasing. }
    rewrite Erest. cbn [bind].
    exists ((c, x) :: rest). split; [reflexivity|].
    split; [|split; [|split]].
    + constructor; [cbn [fst snd]; split; assumption|].
      eapply Forall_impl; [|exact Hrest]. intros e [He _]. exact He.
    + constructor; [assumption|].
      eapply Forall_impl; [|exact Hrest]. intros e [_ He].
      apply In_range_from in He. left. cbn [fst]. lia.
    + intros j Hj. cbn [map fst In].
      destruct (Z.eq_dec c j) as [-> | Hne]; [now left|]. right.
      apply Irest; [assumption|]. apply In_range_from. lia.
    + intros _. now exists x, rest.
  - exists []. split; [reflexivity|]. split; [constructor|].
    split; [constructor|]. split.
    + intros j Hj. lia.
    + intros Hitems. destruct items; [contradiction|].
      rewrite len_cons in Ecount. pose proof (len_nonneg items). lia.
Qed.

(** X21. [circulate] never fails and yields every pair [(index, item)] of
    [enumerate(items)] exactly once, for every [center]. *)
Theorem circulate_visits_every_item {A} (items : list A) (center : option Z) :
  exists out,
    circulate items center = Returns out
    /\ Permutation out (enumerate items 0).
Proof.
  destruct (circulate_returns items center)
    as (out & Eout & Hout & Sout & Iout & _).
  exists out. split; [assumption|].
  apply NoDup_Permutation.
  - apply (StronglySorted_NoDup
             (circulates_before (circulate_center items center)));
      [intros e; unfold circulates_before; lia | assumption].
  - apply (StronglySorted_NoDup (fun a b : Z * A => fst a < fst b));
      [intros e; lia | apply enumerate_increasing].
  - intros [j x]. rewrite In_enumerate, Z.sub_0_r. split.
    + intros Hin. rewrite Forall_forall in Hout.
      destruct (Hout _ Hin) as [Hj Hx]. cbn [fst snd] in *.
      split; [lia|]. now apply index_nonneg.
    + intros [Hj Hx].
      assert (Hlt : 0 <= j < len items).
      { split; [assumption|].
        assert (Z.to_nat j < length items)%nat
          by (apply nth_error_Some; congruence).
        unfold len. lia. }
      destruct (proj1 (in_map_iff _ _ _) (Iout j Hlt)) as ([j' x'] & Hfst & Hin).
      cbn [fst] in Hfst. subst j'.
      rewrite Forall_forall in Hout. destruct (Hout _ Hin) as [_ Hx'].
      cbn [fst snd] in Hx'. apply index_nonneg in Hx'; [|assumption].
      congruence.
Qed.

(** X22. [circulate] starts at the center, which is [count // 2] by default
    and is clamped into [0 .. count - 1], and moves outwards from it: an
    item nearer to the center is yielded before one further away, and of two
    items as far from it the right one comes first. *)
Theorem circulate_moves_outwards {A} (items : list A) (center : option Z) :
  exists out,
    circulate items center = Returns out
    /\ StronglySorted (circulates_before (circulate_center items center)) out
    /\ (items = [] -> out = [])
    /\ (items <> [] ->
        0 <= circulate_center items center < len items
        /\ exists item rest,
             out = (circulate_center items center, item) :: rest).
Proof.
  destruct (circulate_returns items center)
    as (out & Eout & Hout & Sout & Iout & Hfirst).
  exists out. split; [assumption|]. split; [assumption|]. split.
  - intros ->. cbn in Eout. congruence.
  - intros Hitems. split; [now apply circulate_center_inside|].
    now apply Hfirst.
Qed.

(** ** utils.py: [Interleaved] *)

Section InterleavedFacts.

Context {A : Type}.
Variable key : A -> Z.

Let by_key (a b : A) : Prop := key a <= key b.

Lemma sort_firsts_perm (firsts : list (list A * A)) :
  Permutation (sort_firsts key firsts) firsts.
Proof.
  unfold sort_firsts. rewrite sort_decorated_perm, map_map. cbn [fst].
  now rewrite map_id.
Qed.

Lemma sort_firsts_sorted (firsts : list (list A * A)) :
  StronglySorted (fun a b => key (snd a) <= key (snd b))
                 (sort_firsts key firsts).
Proof.
  unfold sort_firsts.
  apply (undecorate_sorted (fun e : list A * A => key (snd e))
           (fun a b => goes_before false (snd a) (snd b) = true)).
  - intros a b. unfold goes_before. cbn [snd]. lia.
  - apply Forall_forall. intros e He.
    apply (Permutation_in _ (sort_decorated_perm false _)) in He.
    apply in_map_iff in He. now destruct He as (e' & <- & _).
  - apply sort_decorated_sorted.
Qed.

Lemma pending_cons (e : list A * A) (firsts : list (list A * A)) :
  pending (e :: firsts) = snd e :: fst e ++ pending firsts.
Proof. reflexivity. Qed.

Lemma pending_app (f1 f2 : list (list A * A)) :
  pending (f1 ++ f2) = pending f1 ++ pending f2.
Proof. unfold pending. now rewrite map_app, concat_app. Qed.

Lemma pending_perm (f1 f2 : list (list A * A)) :
  Permutation f1 f2 -> Permutation (pending f1) (pending f2).
Proof.
  induction 1 as [|e f1 f2 H IH|e1 e2 f|f1 f2 f3 H1 IH1 H2 IH2].
  - reflexivity.
  - rewrite !pending_cons. constructor. now apply Permutation_app_head.
  - rewrite !pending_cons.
    first [ exact (Permutation_app_swap_app (snd e1 :: fst e1)
                     (snd e2 :: fst e2) (pending f))
          | exact (Permutation_app_swap_app (snd e2 :: fst e2)
                     (snd e1 :: fst e1) (pending f)) ].
  - now transitivity (pending f2).
Qed.

Lemma In_pending (x : A) (firsts : list (list A * A)) :
  In x (pending firsts) <-> exists e, In e firsts /\ In x (snd e :: fst e).
Proof.
  unfold pending. rewrite in_concat. split.
  - intros (l & Hl & Hx). apply in_map_iff in Hl.
    destruct Hl as (e & <- & He). now exists e.
  - intros (e & He & Hx). exists (snd e :: fst e). split; [|assumption].
    apply in_map_iff. now exists e.
Qed.

Lemma Interleaved_loop_perm (fuel : nat) :
  forall firsts,
    (length (pending firsts) <= fuel)%nat ->
    Permutation (Interleaved_loop key fuel firsts) (pending firsts).
Proof.
  induction fuel as [|fuel IH]; intros firsts Hfuel.
  - destruct (pending firsts); [reflexivity | cbn in Hfuel; lia].
  - cbn [Interleaved_loop].
    pose proof (pending_perm _ _ (sort_firsts_perm firsts)) as Hperm.
    destruct (sort_firsts key firsts) as [|[it first] firsts'].
    + now rewrite <- Hperm.
    + rewrite <- Hperm, pending_cons. cbn [fst snd].
      apply Permutation_length in Hperm.
      rewrite pending_cons in Hperm. cbn [fst snd length] in Hperm.
      rewrite length_app in Hperm.
      constructor. destruct it as [|first' it'].
      * apply IH. cbn [length] in Hperm. lia.
      * rewrite IH.
        -- rewrite pending_app. cbn [pending map concat fst snd].
           rewrite app_nil_r. apply Permutation_app_comm.
        -- rewrite pending_app, length_app. cbn [pending map concat fst snd].
           rewrite app_nil_r. cbn [length] in *. lia.
Qed.

Lemma Interleaved_loop_sorted (fuel : nat) :
  forall firsts,
    (length (pending firsts) <= fuel)%nat ->
    Forall (fun e => StronglySorted by_key (snd e :: fst e)) firsts ->
    StronglySorted by_key (Interleaved_loop key fuel firsts).
Proof.
  induction fuel as [|fuel IH]; intros firsts Hfuel Hfirsts; [constructor|].
  cbn [Interleaved_loop].
  pose proof (sort_firsts_perm firsts) as Hperm.
  pose proof (sort_firsts_sorted firsts) as Hsorted.
  assert (Hall : Forall (fun e => StronglySorted by_key (snd e :: fst e))
                        (sort_firsts key firsts)).
  { rewrite Forall_forall in Hfirsts |- *. intros e He. apply Hfirsts.
    now apply (Permutation_in _ Hperm). }
  apply pending_perm, Permutation_length in Hperm.
  destruct (sort_firsts key firsts) as [|[it first] firsts']; [constructor|].
  rewrite pending_cons in Hperm. cbn [fst snd length] in Hperm.
  rewrite length_app in Hperm.
  inversion Hall as [|? ? Hrun Hall']; subst. cbn [fst snd] in Hrun.
  inversion Hsorted as [|? ? Hsorted' Hleast]; subst. cbn [snd] in Hleast.
  inversion Hrun as [|? ? Hit Hfirst]; subst.
  assert (Hothers : forall x, In x (pending firsts') -> by_key first x).
  { intros x Hx. apply In_pending in Hx. destruct Hx as (e & He & Hx).
    rewrite Forall_forall in Hleast, Hall'.
    specialize (Hleast e He). specialize (Hall' e He).
    destruct Hx as [<- | Hx]; [exact Hleast|].
    inversion Hall' as [|? ? _ Hlow]; subst.
    rewrite Forall_forall in Hlow. specialize (Hlow x Hx).
    unfold by_key in *. lia. }
  destruct it as [|first' it'].
  - constructor.
    + apply IH; [cbn [length] in Hperm; lia | assumption].
    + apply Forall_forall. intros x Hx. apply Hothers.
      apply (Permutation_in _ (Interleaved_loop_perm fuel firsts'
               ltac:(cbn [length] in Hperm; lia))). exact Hx.
  - assert (Hlen : (length (pending (firsts' ++ [(it', first')])) <= fuel)%nat).
    { rewrite pending_app, length_app. cbn [pending map concat fst snd].
      rewrite app_nil_r. cbn [length] in *. lia. }
    constructor.
    + apply IH; [exact Hlen|].
      apply Forall_app. split; [assumption|].
      constructor; [|constructor]. cbn [fst snd]. exact Hit.
    + apply Forall_forall. intros x Hx.
      apply (Permutation_in _ (Interleaved_loop_perm fuel _ Hlen)) in Hx.
      rewrite pending_app in Hx. apply in_app_or in Hx.
      destruct Hx as [Hx | Hx]; [now apply Hothers|].
      cbn [pending map concat fst snd] in Hx. rewrite app_nil_r in Hx.
      rewrite Forall_forall in Hfirst. now apply Hfirst.
Qed.

Lemma pending_firsts (iterables : list (list A)) :
  pending (Interleaved_firsts iterables) = concat iterables.
Proof.
  induction iterables as [|[|first it] rest IH]; cbn [Interleaved_firsts concat].
  - reflexivity.
  - exact IH.
  - rewrite pending_cons. cbn [fst snd app]. now rewrite IH.
Qed.

Lemma Interleaved_len_concat (iterables : list (list A)) :
  Interleaved_len iterables = len (concat iterables).
Proof.
  unfold Interleaved_len.
  assert (H : forall start,
             fold_left Z.add (map len iterables) start
             = start + len (concat iterables)).
  { induction iterables as [|l rest IH]; intros start;
      cbn [map fold_left concat].
    - rewrite len_nil. lia.
    - rewrite IH, len_app. lia. }
  now rewrite H.
Qed.

(** X23. Iterating over an [Interleaved] yields every item of every
    iterable exactly once, whatever the key, so it yields [len(self)]
    items. *)
Theorem Interleaved_yields_every_item (iterables : list (list A)) :
  Permutation (Interleaved_iter key iterables) (concat iterables)
  /\ len (Interleaved_iter key iterables) = Interleaved_len iterables.
Proof.
  assert (H : Permutation (Interleaved_iter key iterables) (concat iterables)).
  { unfold Interleaved_iter. rewrite Interleaved_loop_perm by reflexivity.
    now rewrite pending_firsts. }
  split; [exact H|].
  rewrite Interleaved_len_concat. unfold len.
  now rewrite (Permutation_length H).
Qed.

(** X24. If every iterable is in ascending order of the key, the items
    come out of an [Interleaved] in ascending order of the key. *)
Theorem Interleaved_merges_sorted (iterables : list (list A)) :
  Forall (StronglySorted (fun a b => key a <= key b)) iterables ->
  StronglySorted (fun a b => key a <= key b) (Interleaved_iter key iterables).
Proof.
  intros Hsorted. unfold Interleaved_iter.
  apply Interleaved_loop_sorted; [reflexivity|].
  induction Hsorted as [|[|first it] rest Hrun Hrest IH];
    cbn [Interleaved_firsts]; [constructor | exact IH|].
  constructor; [exact Hrun | exact IH].
Qed.

End InterleavedFacts.

Lemma Interleaved_merges_sorted_witness :
  Forall (StronglySorted (fun a b : Z => a <= b)) [[1; 4; 9]; []; [2; 4]; [0]]
  /\ StronglySorted (fun a b : Z => a <= b)
       (Interleaved_iter (fun a : Z => a) [[1; 4; 9]; []; [2; 4]; [0]]).
Proof.
  assert (H : Forall (StronglySorted (fun a b : Z => a <= b))
                     [[1; 4; 9]; []; [2; 4]; [0]]).
  { repeat (apply Forall_cons || apply Forall_nil
            || apply SSorted_cons || apply SSorted_nil); lia. }
  split; [exact H|].
  exact (Interleaved_merges_sorted (fun a : Z => a) _ H).
Defined.

(** ** utils.py: [parse_file_size] *)

Lemma lower_char_digit (c : ascii) :
  isdigit (lower_char c) = isdigit c /\ (isdigit c = true -> lower_char c = c).
Proof.
  destruct c as [[] [] [] [] [] [] [] []]; vm_compute; split;
    try reflexivity; intros H; try reflexivity; discriminate H.
Qed.

Lemma lower_char_space (c : ascii) : isspace (lower_char c) = isspace c.
Proof. destruct c as [[] [] [] [] [] [] [] []]; reflexivity. Qed.

Lemma space_not_digit (c : ascii) : isspace c = true -> isdigit c = false.
Proof.
  destruct c as [[] [] [] [] [] [] [] []]; vm_compute; intros H;
    try reflexivity; discriminate H.
Qed.

Lemma blank_lower (s : list ascii) : blank (lower s) <-> blank s.
Proof.
  unfold blank, lower. rewrite Forall_map.
  split; apply Forall_impl; intros c; now rewrite lower_char_space.
Qed.

Lemma keep_only_digits_lower (s : list ascii) :
  keep_only_digits (lower s) = keep_only_digits s.
Proof.
  unfold keep_only_digits, lower.
  induction s as [|c s IH]; [reflexivity|]. cbn [map filter].
  destruct (lower_char_digit c) as [-> Hc].
  destruct (isdigit c); [|exact IH]. now rewrite Hc, IH.
Qed.

Lemma lstrip_cases (s : list ascii) :
  (lstrip s = [] /\ blank s)
  \/ exists ws c r,
       s = ws ++ c :: r /\ blank ws /\ isspace c = false /\ lstrip s = c :: r.
Proof.
  induction s as [|c s IH]; [left; split; [reflexivity | constructor]|].
  cbn [lstrip]. destruct (isspace c) eqn:Ec.
  - destruct IH as [[H1 H2] | (ws & c' & r & -> & Hws & Hc' & Hstrip)].
    + left. split; [assumption | now constructor].
    + right. exists (c :: ws), c', r. repeat split; try assumption.
      now constructor.
  - right. exists [], c, s. repeat split; try assumption. constructor.
Qed.

Lemma lstrip_blank (s : list ascii) : lstrip s = [] <-> blank s.
Proof.
  split.
  - intros H. destruct (lstrip_cases s) as [[_ Hb] | (ws & c & r & _ & _ & _ & E)];
      [assumption | congruence].
  - induction 1 as [|c s Hc Hs IH]; [reflexivity|]. cbn [lstrip]. now rewrite Hc.
Qed.

Lemma lstrip_padding (ws s : list ascii) : blank ws -> lstrip (ws ++ s) = lstrip s.
Proof.
  induction 1 as [|c ws Hc Hws IH]; [reflexivity|].
  cbn [app lstrip]. now rewrite Hc.
Qed.

Lemma lstrip_token (c : ascii) (s : list ascii) :
  isspace c = false -> lstrip (c :: s) = c :: s.
Proof. intros H. cbn [lstrip]. now rewrite H. Qed.

Lemma blank_rev (s : list ascii) : blank (rev s) <-> blank s.
Proof.
  unfold blank. rewrite !Forall_forall. split; intros H c Hc; apply H.
  - now apply -> in_rev.
  - now apply in_rev.
Qed.

Lemma strip_blank (s : list ascii) : strip s = [] <-> blank s.
Proof.
  unfold strip. split.
  - intros H. apply (f_equal (@rev ascii)) in H. rewrite rev_involutive in H.
    cbn [rev] in H. apply (proj1 (lstrip_blank _)) in H.
    apply (proj1 (blank_rev _)) in H.
    destruct (lstrip_cases s) as [[_ Hb] | (ws & c & r & _ & _ & Hc & E)];
      [assumption|].
    rewrite E in H. unfold blank in H. inversion H; congruence.
  - intros H. apply lstrip_blank in H. now rewrite H.
Qed.

Lemma keep_only_digits_lstrip (s : list ascii) :
  keep_only_digits (lstrip s) = keep_only_digits s.
Proof.
  unfold keep_only_digits. induction s as [|c s IH]; [reflexivity|].
  cbn [lstrip]. destruct (isspace c) eqn:Ec; [|reflexivity].
  cbn [filter]. now rewrite (space_not_digit c Ec).
Qed.

Lemma keep_only_digits_rev (s : list ascii) :
  keep_only_digits (rev s) = rev (keep_only_digits s).
Proof.
  unfold keep_only_digits. induction s as [|c s IH]; [reflexivity|].
  cbn [rev filter]. rewrite filter_app, IH. cbn [filter].
  destruct (isdigit c); [reflexivity | now rewrite app_nil_r].
Qed.

Lemma keep_only_digits_strip (s : list ascii) :
  keep_only_digits (strip s) = keep_only_digits s.
Proof.
  unfold strip.
  now rewrite keep_only_digits_rev, keep_only_digits_lstrip,
    keep_only_digits_rev, rev_involutive, keep_only_digits_lstrip.
Qed.

Lemma index_minus_one {X} (l : list X) (x : X) :
  index (l ++ [x]) (-1) = Returns x /\ slice (l ++ [x]) 0 (-1) = l.
Proof.
  pose proof (len_nonneg l) as Hl.
  assert (Hlen : len (l ++ [x]) = len l + 1) by (now rewrite len_app).
  split.
  - unfold index. rewrite Hlen. cbn [Z.ltb Z.compare].
    assert (E : (-1 + (len l + 1) <? 0) = false) by (apply Z.ltb_ge; lia).
    rewrite E. replace (Z.to_nat (-1 + (len l + 1))) with (length l)
      by (unfold len; lia).
    rewrite nth_error_app2 by lia. now rewrite Nat.sub_diag.
  - unfold slice, clip. rewrite Hlen. cbn [Z.ltb Z.compare].
    rewrite Z.min_l by lia. rewrite Z.max_r by lia. cbn [Z.to_nat skipn].
    replace (Z.to_nat (-1 + (len l + 1) - 0)) with (length l)
      by (unfold len; lia).
    rewrite firstn_app, Nat.sub_diag, firstn_all. cbn [firstn].
    now rewrite app_nil_r.
Qed.

Lemma unit_factor (e : ascii) (n : Z) :
  exists factor,
    In factor [1; KILOBYTE; MEGABYTE; GIGABYTE; TERABYTE]
    /\ (if dict_mem Ascii.eqb SIZE_PREFIX_LOOKUP e
        then lift (getitem Ascii.eqb SIZE_PREFIX_LOOKUP e)
                  (fun factor => Parsed (factor * n))
        else Parsed n) = Parsed (factor * n).
Proof.
  unfold dict_mem, getitem, SIZE_PREFIX_LOOKUP. cbn [dict_get].
  destruct (Ascii.eqb "k" e); [exists KILOBYTE; cbn; tauto|].
  destruct (Ascii.eqb "m" e); [exists MEGABYTE; cbn; tauto|].
  destruct (Ascii.eqb "g" e); [exists GIGABYTE; cbn; tauto|].
  destruct (Ascii.eqb "t" e); [exists TERABYTE; cbn; tauto|].
  exists 1. split; [cbn; tauto|]. now rewrite Z.mul_1_l.
Qed.

Lemma int_digits_none (ds : list ascii) :
  forall value,
    int_digits ds value = None
    <-> Exists (fun c => decimal_digit c = None) ds.
Proof.
  induction ds as [|c ds IH]; intros value; cbn [int_digits].
  - split; [discriminate | intros H; inversion H].
  - destruct (decimal_digit c) as [d|] eqn:Ec.
    + rewrite IH. split; [now right|].
      intros H. inversion H; [congruence | assumption].
    + split; [now left | reflexivity].
Qed.

Lemma keep_only_digits_nil (s : list ascii) :
  keep_only_digits s = [] <-> Forall (fun c => isdigit c = false) s.
Proof.
  unfold keep_only_digits. induction s as [|c s IH]; cbn [filter].
  - split; [constructor | reflexivity].
  - destruct (isdigit c) eqn:Ec.
    + split; [discriminate|]. intros H. inversion H; congruence.
    + rewrite IH. split; [now constructor | intros H; now inversion H].
Qed.

Lemma keep_only_digits_superscript (s : list ascii) :
  Exists (fun c => decimal_digit c = None) (keep_only_digits s)
  <-> Exists (fun c => superscript c = true) s.
Proof.
  unfold keep_only_digits, superscript. rewrite !Exists_exists. split.
  - intros (c & Hc & Hd). apply filter_In in Hc. destruct Hc as [Hc Hdigit].
    exists c. split; [assumption|]. now rewrite Hdigit, Hd.
  - intros (c & Hc & Hd). apply andb_prop in Hd. destruct Hd as [Hdigit Hd].
    exists c. split; [apply filter_In; now split|].
    now destruct (decimal_digit c).
Qed.

Lemma int_of_digits_none (s : list ascii) :
  int_of_digits (keep_only_digits s) = None
  <-> Forall (fun c => isdigit c = false) s
      \/ Exists (fun c => superscript c = true) s.
Proof.
  rewrite <- keep_only_digits_superscript, <- keep_only_digits_nil.
  unfold int_of_digits.
  destruct (keep_only_digits s) as [|c ds] eqn:E.
  - split; [now left | reflexivity].
  - rewrite int_digits_none. split; [now right|].
    intros [H | H]; [discriminate | assumption].
Qed.

Lemma parse_file_size_blank (file_size : list ascii) :
  blank file_size -> parse_file_size file_size = Parsed 0.
Proof.
  intros H. unfold parse_file_size.
  now rewrite (proj2 (strip_blank (lower file_size)))
    by now apply blank_lower.
Qed.

Lemma parse_file_size_digits (file_size : list ascii) :
  ~ blank file_size ->
  parse_file_size file_size
  = match int_of_digits (keep_only_digits file_size) with
    | None => ValueError
    | Some n =>
        lift (index (strip (lower file_size)) (-1)) (fun last =>
        let stripped :=
          if Ascii.eqb last "b" then slice (strip (lower file_size)) 0 (-1)
          else strip (lower file_size) in
        lift (index stripped (-1)) (fun e => scaled e n))
    end.
Proof.
  intros H. unfold parse_file_size.
  rewrite keep_only_digits_strip, keep_only_digits_lower.
  destruct (len (strip (lower file_size)) =? 0) eqn:E; [|reflexivity].
  exfalso. apply H, blank_lower, strip_blank, len_zero. lia.
Qed.

Lemma not_blank_stripped (file_size : list ascii) :
  strip (lower file_size) <> [] -> ~ blank file_size.
Proof.
  intros H Hb. apply H, strip_blank, blank_lower, Hb.
Qed.

Lemma parse_file_size_plain (file_size body : list ascii) (e : ascii) (n : Z) :
  strip (lower file_size) = body ++ [e] -> Ascii.eqb e "b" = false ->
  int_of_digits (keep_only_digits file_size) = Some n ->
  parse_file_size file_size = scaled e n.
Proof.
  intros Ht He Hn.
  rewrite parse_file_size_digits
    by (apply not_blank_stripped; rewrite Ht; now destruct body).
  rewrite Hn, Ht. destruct (index_minus_one body e) as [-> _].
  cbn [lift]. rewrite He. cbn zeta.
  destruct (index_minus_one body e) as [-> _]. reflexivity.
Qed.

Lemma parse_file_size_bytes (file_size body : list ascii) (e : ascii) (n : Z) :
  strip (lower file_size) = body ++ [e; "b"%char] ->
  int_of_digits (keep_only_digits file_size) = Some n ->
  parse_file_size file_size = scaled e n.
Proof.
  intros Ht Hn.
  rewrite parse_file_size_digits
    by (apply not_blank_stripped; rewrite Ht; now destruct body).
  rewrite Hn, Ht.
  change (body ++ [e; "b"%char]) with (body ++ [e] ++ ["b"%char]).
  rewrite app_assoc.
  destruct (index_minus_one (body ++ [e]) "b"%char) as [-> ->].
  cbn [lift]. cbn zeta. change (Ascii.eqb "b"%char "b"%char) with true. cbn iota.
  destruct (index_minus_one body e) as [-> _]. reflexivity.
Qed.

Lemma scaled_factor (e : ascii) (n : Z) :
  exists factor,
    In factor [1; KILOBYTE; MEGABYTE; GIGABYTE; TERABYTE]
    /\ scaled e n = Parsed (factor * n).
Proof. exact (unit_factor e n). Qed.

Lemma parse_file_size_tail (file_size : list ascii) (n : Z) :
  ~ blank file_size ->
  int_of_digits (keep_only_digits file_size) = Some n ->
  exists body e,
    ((strip (lower file_size) = body ++ [e] /\ Ascii.eqb e "b" = false)
     \/ strip (lower file_size) = body ++ [e; "b"%char])
    /\ parse_file_size file_size = scaled e n.
Proof.
  intros Hblank Hn.
  assert (Ht : strip (lower file_size) <> []).
  { intros E. apply Hblank, blank_lower, strip_blank, E. }
  destruct (exists_last Ht) as (t' & last & Et).
  destruct (Ascii.eqb last "b") eqn:Elast.
  - apply Ascii.eqb_eq in Elast. subst last.
    assert (Ht' : t' <> []).
    { intros ->. cbn [app] in Et.
      pose proof (keep_only_digits_strip (lower file_size)) as Hk.
      rewrite keep_only_digits_lower, Et in Hk. cbn in Hk.
      rewrite <- Hk in Hn. discriminate. }
    destruct (exists_last Ht') as (body & e & ->).
    exists body, e. rewrite <- app_assoc in Et. cbn [app] in Et.
    split; [now right|]. now apply (parse_file_size_bytes _ body).
  - exists t', last. split; [now left|].
    now apply (parse_file_size_plain _ t').
Qed.

(** X25. The outcomes of [parse_file_size], for a string of at most 4300
    characters (which keeps [int()] below the limit of newer interpreters):
    a string of whitespace only gives 0; any other string gives
    [ValueError] exactly when it holds no digit or holds a superscript digit,
    and otherwise gives the number read from all its digits in order,
    multiplied by 1 or by one of the four units; the two indexings and the
    table lookup never fail. *)
Theorem parse_file_size_outcomes (file_size : list ascii) :
  len file_size <= 4300 ->
  (blank file_size -> parse_file_size file_size = Parsed 0)
  /\ (~ blank file_size ->
      (parse_file_size file_size = ValueError
       <-> Forall (fun c => isdigit c = false) file_size
           \/ Exists (fun c => superscript c = true) file_size)
      /\ forall n,
           int_of_digits (keep_only_digits file_size) = Some n ->
           exists factor,
             In factor [1; 1024; 1024 ^ 2; 1024 ^ 3; 1024 ^ 4]
             /\ parse_file_size file_size = Parsed (factor * n))
  /\ forall e, parse_file_size file_size <> Other e.
Proof.
  intros _.
  assert (Hsome : forall n,
             ~ blank file_size ->
             int_of_digits (keep_only_digits file_size) = Some n ->
             exists factor,
               In factor [1; 1024; 1024 ^ 2; 1024 ^ 3; 1024 ^ 4]
               /\ parse_file_size file_size = Parsed (factor * n)).
  { intros n Hblank Hn.
    destruct (parse_file_size_tail file_size n Hblank Hn)
      as (body & e & _ & ->).
    exact (scaled_factor e n). }
  assert (Hnone : ~ blank file_size ->
                  int_of_digits (keep_only_digits file_size) = None ->
                  parse_file_size file_size = ValueError).
  { intros Hblank Hn. rewrite parse_file_size_digits by assumption.
    now rewrite Hn. }
  split; [apply parse_file_size_blank|]. split.
  - intros Hblank. split; [|intros n; now apply Hsome].
    rewrite <- int_of_digits_none. split; [|now apply Hnone].
    intros Herror.
    destruct (int_of_digits (keep_only_digits file_size)) as [n|] eqn:Hn;
      [|reflexivity].
    destruct (Hsome n Hblank eq_refl) as (factor & _ & E). congruence.
  - intros e Hother.
    destruct (lstrip_blank file_size) as [_ Hdec].
    assert (Hcases : blank file_size \/ ~ blank file_size).
    { destruct (lstrip file_size) eqn:E;
        [left; now apply lstrip_blank|].
      right. intros Hb. apply lstrip_blank in Hb. congruence. }
    destruct Hcases as [Hb | Hb].
    + rewrite parse_file_size_blank in Hother by assumption. discriminate.
    + destruct (int_of_digits (keep_only_digits file_size)) as [n|] eqn:Hn.
      * destruct (Hsome n Hb eq_refl) as (factor & _ & E). congruence.
      * rewrite (Hnone Hb eq_refl) in Hother. discriminate.
Qed.

Lemma parse_file_size_outcomes_witness :
  let file_size := str " 10 Mb " in
  len file_size <= 4300
  /\ (blank file_size -> parse_file_size file_size = Parsed 0)
  /\ (~ blank file_size ->
      (parse_file_size file_size = ValueError
       <-> Forall (fun c => isdigit c = false) file_size
           \/ Exists (fun c => superscript c = true) file_size)
      /\ forall n,
           int_of_digits (keep_only_digits file_size) = Some n ->
           exists factor,
             In factor [1; 1024; 1024 ^ 2; 1024 ^ 3; 1024 ^ 4]
             /\ parse_file_size file_size = Parsed (factor * n))
  /\ forall e, parse_file_size file_size <> Other e.
Proof.
  assert (H : len (str " 10 Mb ") <= 4300) by (vm_compute; discriminate).
  split; [exact H|]. exact (parse_file_size_outcomes (str " 10 Mb ") H).
Defined.

Lemma decimal_digit_isdigit (c : ascii) (d : Z) :
  decimal_digit c = Some d ->
  isdigit c = true /\ isspace c = false /\ scaled c = fun n => Parsed n.
Proof.
  destruct c as [[] [] [] [] [] [] [] []]; vm_compute; intros H;
    try discriminate H; repeat split.
Qed.

Lemma int_digits_decimal (ds : list ascii) :
  forall value n,
    int_digits ds value = Some n ->
    Forall (fun c => exists d, decimal_digit c = Some d) ds.
Proof.
  induction ds as [|c ds IH]; intros value n H; [constructor|].
  cbn [int_digits] in H. destruct (decimal_digit c) as [d|] eqn:Ec;
    [|discriminate].
  constructor; [now exists d | now apply (IH _ _ H)].
Qed.

Lemma strip_tokens (s : list ascii) (first last : ascii) (m1 m2 : list ascii) :
  s = first :: m1 -> s = m2 ++ [last] ->
  isspace first = false -> isspace last = false ->
  strip s = s.
Proof.
  intros E1 E2 Hfirst Hlast. unfold strip.
  rewrite E1 at 1. rewrite lstrip_token by assumption. rewrite <- E1.
  rewrite E2 at 1. rewrite rev_app_distr. cbn [rev app].
  rewrite lstrip_token by assumption.
  change (last :: rev m2) with (rev [last] ++ rev m2).
  now rewrite <- rev_app_distr, rev_involutive.
Qed.

Lemma lower_decimal (ds : list ascii) :
  Forall (fun c => exists d, decimal_digit c = Some d) ds -> lower ds = ds.
Proof.
  unfold lower. induction 1 as [|c ds [d Hd] _ IH]; [reflexivity|].
  cbn [map]. rewrite IH. f_equal.
  destruct (decimal_digit_isdigit c d Hd) as [Hdigit _].
  exact (proj2 (lower_char_digit c) Hdigit).
Qed.

Lemma keep_only_digits_decimal (ds : list ascii) :
  Forall (fun c => exists d, decimal_digit c = Some d) ds ->
  keep_only_digits ds = ds.
Proof.
  unfold keep_only_digits. induction 1 as [|c ds [d Hd] _ IH]; [reflexivity|].
  cbn [filter]. destruct (decimal_digit_isdigit c d Hd) as [-> _].
  now rewrite IH.
Qed.

Section Units.

Variable digits : list ascii.
Variable n : Z.
Hypothesis digits_value : int_of_digits digits = Some n.

Lemma digits_decimal :
  Forall (fun c => exists d, decimal_digit c = Some d) digits.
Proof.
  unfold int_of_digits in digits_value.
  destruct digits; [discriminate|]. exact (int_digits_decimal _ _ _ digits_value).
Qed.

Lemma digits_first : exists first rest, digits = first :: rest
                                   /\ isspace first = false.
Proof.
  pose proof digits_decimal as H. unfold int_of_digits in digits_value.
  destruct digits as [|c ds]; [discriminate|].
  inversion H as [|? ? [d Hd] _]; subst.
  exists c, ds. split; [reflexivity|]. now apply (decimal_digit_isdigit c d).
Qed.

Lemma digits_last : exists body last d, digits = body ++ [last]
                                   /\ decimal_digit last = Some d.
Proof.
  pose proof digits_decimal as H.
  assert (Hne : digits <> []).
  { intros E. rewrite E in digits_value. discriminate. }
  destruct (exists_last Hne) as (body & last & E).
  rewrite E in H. apply Forall_app in H. destruct H as [_ H].
  inversion H as [|? ? [d Hd] _]; subst. now exists body, last, d.
Qed.

Lemma lower_digits : lower digits = digits.
Proof. apply lower_decimal, digits_decimal. Qed.

Lemma keep_only_digits_digits (tail : list ascii) :
  keep_only_digits (digits ++ tail) = digits ++ keep_only_digits tail.
Proof.
  unfold keep_only_digits. rewrite filter_app. f_equal.
  apply keep_only_digits_decimal, digits_decimal.
Qed.

(** The string [digits ++ tail], when [tail] holds lower-case letters
    only, is what [parse_file_size] works on. *)
Lemma stripped_digits (tail : list ascii) :
  Forall (fun c => isspace c = false) tail ->
  strip (digits ++ tail) = digits ++ tail.
Proof.
  intros Htail.
  destruct digits_first as (first & rest & E & Hfirst).
  destruct digits_last as (body & last & d & E' & Hlast).
  destruct (exists_last (l := digits ++ tail)) as (m2 & z & Ez).
  { rewrite E. discriminate. }
  apply (strip_tokens _ first z (rest ++ tail) m2);
    [now rewrite E | assumption | assumption|].
  assert (Hall : Forall (fun c => isspace c = false) (digits ++ tail)).
  { apply Forall_app. split; [|assumption].
    eapply Forall_impl; [|exact digits_decimal].
    intros c [d' Hd']. now apply (decimal_digit_isdigit c d'). }
  rewrite Ez in Hall. apply Forall_app in Hall. destruct Hall as [_ Hall].
  now inversion Hall.
Qed.

Lemma parse_digits_plain (tail body : list ascii) (e : ascii) :
  Forall (fun c => isspace c = false) (lower tail) ->
  keep_only_digits tail = [] ->
  digits ++ lower tail = body ++ [e] -> Ascii.eqb e "b" = false ->
  parse_file_size (digits ++ tail) = scaled e n.
Proof.
  intros Hspace Hkeep Hbody He.
  apply (parse_file_size_plain _ body).
  - unfold lower in *. rewrite map_app. fold (lower digits).
    rewrite lower_digits. now rewrite stripped_digits.
  - assumption.
  - now rewrite keep_only_digits_digits, Hkeep, app_nil_r.
Qed.

Lemma parse_digits_bytes (tail body : list ascii) (e : ascii) :
  Forall (fun c => isspace c = false) (lower tail) ->
  keep_only_digits tail = [] ->
  digits ++ lower tail = body ++ [e; "b"%char] ->
  parse_file_size (digits ++ tail) = scaled e n.
Proof.
  intros Hspace Hkeep Hbody.
  apply (parse_file_size_bytes _ body).
  - unfold lower in *. rewrite map_app. fold (lower digits).
    rewrite lower_digits. now rewrite stripped_digits.
  - now rewrite keep_only_digits_digits, Hkeep, app_nil_r.
Qed.

End Units.

Ltac unit_case digits n Hn :=
  match goal with
  | |- parse_file_size (_ ++ ?u :: _) = _ =>
      transitivity (scaled (lower_char u) n);
      [ first
          [ apply (parse_digits_plain digits n Hn _ digits);
            [vm_compute; repeat constructor | reflexivity | reflexivity
             | reflexivity]
          | apply (parse_digits_bytes digits n Hn _ digits);
            [vm_compute; repeat constructor | reflexivity | reflexivity] ]
      | reflexivity ]
  end.

(** X26. A decimal number followed by nothing, by [b], by one of the unit
    letters [k], [m], [g], [t], or by a unit letter and [b], in either case
    of the letters, is the number times 1024 to the power 0, 1, 2, 3, 4 of
    its unit. *)
Theorem parse_file_size_units (digits : list ascii) (n : Z) (unit : ascii)
  (power : Z) (byte : list ascii) :
  int_of_digits digits = Some n ->
  len digits <= 4298 ->
  In (unit, power)
     [("k"%char, 1); ("K"%char, 1); ("m"%char, 2); ("M"%char, 2);
      ("g"%char, 3); ("G"%char, 3); ("t"%char, 4); ("T"%char, 4)] ->
  In byte [[]; ["b"%char]; ["B"%char]] ->
  parse_file_size (digits ++ byte) = Parsed n
  /\ parse_file_size (digits ++ unit :: byte) = Parsed (1024 ^ power * n).
Proof.
  intros Hn _ Hunit Hbyte.
  destruct (digits_last digits n Hn) as (body & last & d & Ebody & Hlast).
  destruct (decimal_digit_isdigit last d Hlast) as (_ & _ & Hscaled).
  assert (Elast : Ascii.eqb last "b" = false).
  { destruct (Ascii.eqb last "b") eqn:E; [|reflexivity].
    apply Ascii.eqb_eq in E. subst last. discriminate Hlast. }
  split.
  - replace (Parsed n) with (scaled last n) by now rewrite Hscaled.
    cbn [In] in Hbyte. destruct Hbyte as [<- | [<- | [<- | []]]].
    + apply (parse_digits_plain digits n Hn [] body);
        [constructor | reflexivity | now rewrite app_nil_r | assumption].
    + apply (parse_digits_bytes digits n Hn ["b"%char] body);
        [repeat constructor | reflexivity|].
      rewrite Ebody at 1. now rewrite <- app_assoc.
    + apply (parse_digits_bytes digits n Hn ["B"%char] body);
        [repeat constructor | reflexivity|].
      rewrite Ebody at 1. now rewrite <- app_assoc.
  - cbn [In] in Hunit, Hbyte.
    destruct Hbyte as [<- | [<- | [<- | []]]];
      repeat (destruct Hunit as [[= <- <-] | Hunit]; [unit_case digits n Hn|]);
      destruct Hunit.
Qed.

Lemma parse_file_size_units_witness :
  int_of_digits (str "512") = Some 512
  /\ len (str "512") <= 4298
  /\ In ("G"%char, 3)
        [("k"%char, 1); ("K"%char, 1); ("m"%char, 2); ("M"%char, 2);
         ("g"%char, 3); ("G"%char, 3); ("t"%char, 4); ("T"%char, 4)]
  /\ In ["b"%char] [[]; ["b"%char]; ["B"%char]]
  /\ parse_file_size (str "512" ++ ["b"%char]) = Parsed 512
  /\ parse_file_size (str "512" ++ "G"%char :: ["b"%char])
     = Parsed (1024 ^ 3 * 512).
Proof.
  assert (H1 : int_of_digits (str "512") = Some 512) by reflexivity.
  assert (H2 : len (str "512") <= 4298) by (vm_compute; discriminate).
  assert (H3 : In ("G"%char, 3)
                  [("k"%char, 1); ("K"%char, 1); ("m"%char, 2); ("M"%char, 2);
                   ("g"%char, 3); ("G"%char, 3); ("t"%char, 4); ("T"%char, 4)])
    by (cbn; tauto).
  assert (H4 : In ["b"%char] [[]; ["b"%char]; ["B"%char]]) by (cbn; tauto).
  split; [exact H1|]. split; [exact H2|]. split; [exact H3|].
  split; [exact H4|].
  exact (parse_file_size_units (str "512") 512 "G" 3 ["b"%char] H1 H2 H3 H4).
Defined.

Lemma strip_padding (ws1 ws2 s : list ascii) :
  blank ws1 -> blank ws2 -> strip (ws1 ++ s ++ ws2) = strip s.
Proof.
  intros H1 H2. unfold strip. rewrite lstrip_padding by assumption.
  destruct (lstrip_cases s) as [[E Hs] | (ws & c & r & -> & Hws & Hc & E)].
  - rewrite E. rewrite (proj2 (lstrip_blank (s ++ ws2))); [reflexivity|].
    apply Forall_app. now split.
  - rewrite E. rewrite <- app_assoc, lstrip_padding by assumption.
    cbn [app]. rewrite lstrip_token by assumption.
    change (c :: r ++ ws2) with ((c :: r) ++ ws2).
    rewrite rev_app_distr, lstrip_padding; [reflexivity|].
    now apply blank_rev.
Qed.

Lemma lower_idempotent (s : list ascii) : lower (lower s) = lower s.
Proof.
  unfold lower. rewrite map_map. apply map_ext. intros c.
  apply lower_char_idempotent.
Qed.

(** X27. [parse_file_size] ignores whitespace around the string and the
    case of its letters. *)
Theorem parse_file_size_ignores_padding_and_case
  (before file_size after : list ascii) :
  blank before -> blank after ->
  parse_file_size (before ++ file_size ++ after) = parse_file_size file_size
  /\ parse_file_size (lower file_size) = parse_file_size file_size.
Proof.
  intros Hbefore Hafter. unfold parse_file_size. split.
  - unfold lower. rewrite !map_app. fold (lower before) (lower file_size)
      (lower after).
    now rewrite strip_padding by now apply blank_lower.
  - now rewrite lower_idempotent.
Qed.

Lemma parse_file_size_ignores_padding_and_case_witness :
  blank (str "  ") /\ blank [newline]
  /\ parse_file_size (str "  " ++ str "2Gb" ++ [newline])
     = parse_file_size (str "2Gb")
  /\ parse_file_size (lower (str "2Gb")) = parse_file_size (str "2Gb").
Proof.
  assert (H1 : blank (str "  ")) by (repeat constructor).
  assert (H2 : blank [newline]) by (repeat constructor).
  split; [exact H1|]. split; [exact H2|].
  exact (parse_file_size_ignores_padding_and_case _ (str "2Gb") _ H1 H2).
Defined.
